(** * sfcc_service_worker: the placeholder scanner, the stream rewriter and
      the request dispatcher of the service worker, embedded from
      [sw/helpers/streamHelper.js] and the main worker script. *)

From Stdlib Require Import ZArith Lia Strings.String Strings.Ascii Strings.Byte List Bool.
From stdpp Require Import base decidable option list strings pretty gmap.

Local Open Scope Z_scope.
Local Open Scope nat_scope.

#[global] Instance byte_eq_decision : EqDecision byte := Byte.byte_eq_dec.

(** A [Uint8Array] is a list of bytes; [TextEncoder.encode] of an ASCII
    string is the list of its bytes. *)
Abbreviation Uint8Array := (list byte).

Definition encode (s : string) : Uint8Array := list_byte_of_string s.

(** * JavaScript strings and regular expressions

    Strings are sequences of code units; every string the worker inspects
    is a serialised URL, a header value or a configuration string. *)

Module Js.

(** [s.indexOf(u)]: the first position of [u] in [s], or [-1]. *)
Fixpoint indexOfNat (u s : string) : option nat :=
  if String.prefix u s then Some 0
  else match s with
       | EmptyString => None
       | String _ s' => option_map S (indexOfNat u s')
       end.

Definition indexOf (s u : string) : Z :=
  match indexOfNat u s with
  | Some n => Z.of_nat n
  | None => (-1)%Z
  end.

(** [s.indexOf(u) !== -1] *)
Definition includes (s u : string) : bool := negb (indexOf s u =? -1)%Z.

(** [s.replace(pat, rep)] with a string pattern: the first occurrence only.
    The replacement strings of the worker are site ids and locales, which
    hold no [$] replacement pattern. *)
Definition replaceFirst (s pat rep : string) : string :=
  match indexOfNat pat s with
  | Some n =>
      String.substring 0 n s ++ rep
      ++ String.substring (n + String.length pat) (String.length s - n - String.length pat) s
  | None => s
  end.

(** [`${x}`] of a possibly [undefined] value. *)
Definition template (x : option string) : string := default "undefined" x.

(** A value read in a boolean context: [undefined], [null] and the empty
    string are falsy. *)
Definition truthy (x : option string) : bool :=
  match x with
  | Some (String _ _) => true
  | _ => false
  end.

(** ** The regular expressions of the worker

    They are sequences of literals and of greedy repetitions of a character
    class; a repetition gives characters back when the rest fails. *)
Inductive atom :=
  | Lit (l : string)
  | Rep (cls : ascii -> bool) (min : nat) (max : option nat).

Definition between (lo hi c : ascii) : bool :=
  (nat_of_ascii lo <=? nat_of_ascii c) && (nat_of_ascii c <=? nat_of_ascii hi).

(** [\w] *)
Definition wordChar (c : ascii) : bool :=
  between "a" "z" c || between "A" "Z" c || between "0" "9" c || Ascii.eqb c "_".

(** [[\w\-_]] *)
Definition wordOrDash (c : ascii) : bool := wordChar c || Ascii.eqb c "-".

(** [.]: any character but a line terminator. *)
Definition dot (c : ascii) : bool :=
  negb (Ascii.eqb c "010" || Ascii.eqb c "013").

(** [[^/]] *)
Definition notSlash (c : ascii) : bool := negb (Ascii.eqb c "/").

Fixpoint run (cls : ascii -> bool) (s : string) : nat :=
  match s with
  | String c s' => if cls c then S (run cls s') else 0
  | EmptyString => 0
  end.

Definition dropStr (n : nat) (s : string) : string :=
  String.substring n (String.length s - n) s.

(** Try [k], [k - 1], ..., [min] repetitions. *)
Fixpoint tryDown (k min : nat) (f : nat -> option string) : option string :=
  match f k with
  | Some r => if min <=? k then Some r else None
  | None =>
      match k with
      | 0 => None
      | S k' => if min <=? k' then tryDown k' min f else None
      end
  end.

(** Match the pattern at the start of [s]; the result is what follows the
    match. *)
Fixpoint matchHere (p : list atom) (s : string) : option string :=
  match p with
  | [] => Some s
  | Lit l :: p' =>
      if String.prefix l s then matchHere p' (dropStr (String.length l) s) else None
  | Rep cls min max :: p' =>
      let avail := run cls s in
      let top := match max with Some m => Nat.min m avail | None => avail end in
      if top <? min then None
      else tryDown top min (fun k => matchHere p' (dropStr k s))
  end.

(** The leftmost match: the text before it and the text after it. *)
Fixpoint exec (p : list atom) (s : string) : option (string * string) :=
  match matchHere p s with
  | Some rest => Some (EmptyString, rest)
  | None =>
      match s with
      | EmptyString => None
      | String c s' =>
          match exec p s' with
          | Some (pre, rest) => Some (String c pre, rest)
          | None => None
          end
      end
  end.

(** [re.test(s)] *)
Definition test (p : list atom) (s : string) : bool :=
  match exec p s with Some _ => true | None => false end.

(** [s.replace(re, '')] *)
Definition removeFirst (p : list atom) (s : string) : string :=
  match exec p s with
  | Some (pre, rest) => pre ++ rest
  | None => s
  end.

(** [/(Sites-[\w\-_]+-Site\/[\w]{2,7}\/)/] *)
Definition siteLocaleSegment : list atom :=
  [Lit "Sites-"; Rep wordOrDash 1 None; Lit "-Site/"; Rep wordChar 2 (Some 7); Lit "/"].

(** [/\/demandware.static\//] *)
Definition staticFolder : list atom :=
  [Lit "/demandware"; Rep dot 1 (Some 1); Lit "static/"].

(** [/\/demandware.static\/-\/Sites-[^/]+/] *)
Definition siteStaticFolder : list atom :=
  [Lit "/demandware"; Rep dot 1 (Some 1); Lit "static/-/Sites-"; Rep notSlash 1 None].

(** [/.*\.(js|css)/], one pattern for each side of the alternation. *)
Definition jsExtension : list atom := [Rep dot 0 None; Lit ".js"].
Definition cssExtension : list atom := [Rep dot 0 None; Lit ".css"].

End Js.

(** * [URL] and [URLSearchParams]

    The URL of a request is a serialised URL, which [new URL] parses into
    the same parts it was serialised from: in it, the first [#] starts the
    fragment and the first [?] before the fragment starts the query. The
    characters of a string are the bytes of its UTF-8 encoding. *)

Module Url.

(** The text before the first [c], and the text after it when there is
    one. *)
Fixpoint cut (c : ascii) (s : string) : string * option string :=
  match s with
  | EmptyString => (EmptyString, None)
  | String x s' =>
      if Ascii.eqb x c then (EmptyString, Some s')
      else let '(a, b) := cut c s' in (String x a, b)
  end.

Record URL := {
  beforeQuery : string;
  query : option string;
  fragment : option string
}.

(** [new URL(u)] *)
Definition parse (u : string) : URL :=
  let '(rest, frag) := cut "#" u in
  let '(base, q) := cut "?" rest in
  {| beforeQuery := base; query := q; fragment := frag |}.

(** [url.href] *)
Definition href (u : URL) : string :=
  beforeQuery u
  ++ match query u with Some q => "?" ++ q | None => "" end
  ++ match fragment u with Some f => "#" ++ f | None => "" end.

(** ** The parser of [application/x-www-form-urlencoded] *)

Definition hexDigit (c : ascii) : option nat :=
  let n := nat_of_ascii c in
  if (48 <=? n) && (n <=? 57) then Some (n - 48)
  else if (65 <=? n) && (n <=? 70) then Some (n - 55)
  else if (97 <=? n) && (n <=? 102) then Some (n - 87)
  else None.

(** Percent-decoding: a [%] that two hexadecimal digits do not follow is
    kept. *)
Fixpoint percentDecode (s : string) : string :=
  match s with
  | EmptyString => EmptyString
  | String c rest =>
      let plain := String c (percentDecode rest) in
      if Ascii.eqb c "%" then
        match rest with
        | String a (String b rest') =>
            match hexDigit a, hexDigit b with
            | Some h, Some l => String (ascii_of_nat (16 * h + l)) (percentDecode rest')
            | _, _ => plain
            end
        | _ => plain
        end
      else plain
  end.

(** U+FFFD in UTF-8. *)
Definition replacement : string :=
  String (ascii_of_nat 239) (String (ascii_of_nat 191) (String (ascii_of_nat 189) "")).

(** The state of the UTF-8 decoder inside a sequence: the bytes it has
    seen, the number of bytes it still needs, and the bounds of the next
    byte. *)
Record Pending := {
  seen : string;
  needed : nat;
  lower : nat;
  upper : nat
}.

Inductive Lead :=
  | Single
  | Start (p : Pending)
  | Invalid.

(** The first byte of a sequence. *)
Definition lead (b : ascii) : Lead :=
  let n := nat_of_ascii b in
  if n <=? 127 then Single
  else if (194 <=? n) && (n <=? 223) then
    Start {| seen := String b ""; needed := 1; lower := 128; upper := 191 |}
  else if (224 <=? n) && (n <=? 239) then
    Start {| seen := String b ""; needed := 2;
             lower := if n =? 224 then 160 else 128;
             upper := if n =? 237 then 159 else 191 |}
  else if (240 <=? n) && (n <=? 244) then
    Start {| seen := String b ""; needed := 3;
             lower := if n =? 240 then 144 else 128;
             upper := if n =? 244 then 143 else 191 |}
  else Invalid.

(** [UTF-8 decode without BOM] followed by the UTF-8 encoding of the
    result: a well-formed sequence is kept, and every error of the decoder
    gives U+FFFD; the byte that ends an unfinished sequence is read again
    as a first byte. *)
Fixpoint utf8 (p : option Pending) (s : string) : string :=
  match s with
  | EmptyString => match p with Some _ => replacement | None => EmptyString end
  | String b rest =>
      let fresh :=
        match lead b with
        | Single => String b (utf8 None rest)
        | Start q => utf8 (Some q) rest
        | Invalid => (replacement ++ utf8 None rest)%string
        end in
      match p with
      | None => fresh
      | Some q =>
          let n := nat_of_ascii b in
          if (lower q <=? n) && (n <=? upper q) then
            if needed q =? 1 then ((seen q ++ String b "") ++ utf8 None rest)%string
            else utf8 (Some {| seen := (seen q ++ String b "")%string;
                               needed := needed q - 1;
                               lower := 128; upper := 191 |}) rest
          else (replacement ++ fresh)%string
      end
  end.

(** The pieces of [s] between the occurrences of [c]. *)
Fixpoint splitOn (c : ascii) (s : string) : list string :=
  match s with
  | EmptyString => [EmptyString]
  | String x s' =>
      if Ascii.eqb x c then EmptyString :: splitOn c s'
      else match splitOn c s' with
           | h :: t => String x h :: t
           | [] => [String x EmptyString]
           end
  end.

Fixpoint plusToSpace (s : string) : string :=
  match s with
  | EmptyString => EmptyString
  | String c rest => String (if Ascii.eqb c "+" then " "%char else c) (plusToSpace rest)
  end.

Definition decodeComponent (s : string) : string :=
  utf8 None (percentDecode (plusToSpace s)).

Definition parsePair (s : string) : string * string :=
  let '(name, value) := cut "=" s in
  (decodeComponent name, decodeComponent (default "" value)).

(** The list of name-value pairs of a query; empty pieces are skipped. *)
Definition parseQuery (q : string) : list (string * string) :=
  map parsePair (List.filter (fun s => negb (String.eqb s "")) (splitOn "&" q)).

(** ** The serialiser of [application/x-www-form-urlencoded] *)

Definition hexChar (n : nat) : ascii :=
  if n <? 10 then ascii_of_nat (48 + n) else ascii_of_nat (55 + n).

(** The bytes that are written as they are: [*], [-], [.], [_], digits and
    letters. *)
Definition unreserved (n : nat) : bool :=
  (n =? 42) || (n =? 45) || (n =? 46) || (n =? 95)
  || ((48 <=? n) && (n <=? 57)) || ((65 <=? n) && (n <=? 90))
  || ((97 <=? n) && (n <=? 122)).

Fixpoint serializeBytes (s : string) : string :=
  match s with
  | EmptyString => EmptyString
  | String c rest =>
      let n := nat_of_ascii c in
      if n =? 32 then String "+" (serializeBytes rest)
      else if unreserved n then String c (serializeBytes rest)
      else String "%" (String (hexChar (n / 16)) (String (hexChar (n mod 16))
                                                      (serializeBytes rest)))
  end.

Definition serialize (l : list (string * string)) : string :=
  String.concat "&"
    (map (fun nv => (serializeBytes (fst nv) ++ "=" ++ serializeBytes (snd nv))%string) l).

(** ** [url.searchParams] *)

(** The list of the [URLSearchParams] object of a URL. *)
Definition searchParams (u : URL) : list (string * string) :=
  parseQuery (default "" (query u)).

(** [url.searchParams.append(name, value)] on a URL and the list of its
    [searchParams]: the pair is added to the list, and the query of the
    URL becomes the serialisation of the list. *)
Definition append (st : URL * list (string * string)) (name value : string)
  : URL * list (string * string) :=
  let l := snd st ++ [(name, value)] in
  let q := serialize l in
  ({| beforeQuery := beforeQuery (fst st);
      query := if String.eqb q "" then None else Some q;
      fragment := fragment (fst st) |}, l).

End Url.

(** ** Constants of streamHelper.js *)

Definition PLACEHOLDER_PREFIX : string := "$sw".
Definition LAST_BYTES_COUNT : nat := 20.
Definition X_SF_CC_SITEID : string := "x-sf-cc-siteid".
Definition X_SF_CC_REQUESTLOCALE : string := "x-sf-cc-requestlocale".

(** ** Configuration records (swConfig.js, [getInitConfig]) *)

Record CachedPart := {
  part_url : string;
  placeholder : string;
  skipParameter : string;
  part_cacheSuffix : string;
  part_cacheCleanTriggerUrls : list string
}.

Record CachedUrl := {
  cu_url : string;
  cu_cacheSuffix : string;
  cu_cacheCleanTriggerUrls : list string
}.

(** [{ ...c, placeholderBytes }] as built by [encodePlaceholderConfigs]. *)
Record PlaceholderConfig := {
  part : CachedPart;
  placeholderBytes : Uint8Array
}.

(** [self.serverPreparedData], rendered into the worker script by the
    server, and [self.buildSuitePreparedData]. *)
Record ServerPreparedData := {
  offlineUrl : string;
  cachedParts : list CachedPart;
  cachedUrls : list CachedUrl;
  urlSiteId : string;
  urlLocale : string;
  cacheVersion : string;
  swEnabled : bool
}.

(** * The platform: requests, responses, the cache storage, the network *)

Module Platform.

Inductive RequestMode := ModeSameOrigin | ModeNoCors | ModeCors | ModeNavigate.

Inductive ResponseType :=
  TypeBasic | TypeCors | TypeDefault | TypeError | TypeOpaque | TypeOpaqueRedirect.

#[global] Instance RequestMode_eq_dec : EqDecision RequestMode.
Proof. solve_decision. Defined.

#[global] Instance ResponseType_eq_dec : EqDecision ResponseType.
Proof. solve_decision. Defined.

(** Header names are kept in lower case, as [Headers] reports them. *)
Abbreviation Headers := (list (string * string)).

Fixpoint headerGet (h : Headers) (name : string) : option string :=
  match h with
  | [] => None
  | (k, v) :: rest => if String.eqb k name then Some v else headerGet rest name
  end.

(** [obj[k] = v] on an object used as a map. *)
Fixpoint objSet (o : Headers) (k v : string) : Headers :=
  match o with
  | [] => [(k, v)]
  | (k', v') :: rest =>
      if String.eqb k' k then (k', v) :: rest else (k', v') :: objSet rest k v
  end.

Record Request := {
  url : string;
  method : string;
  mode : RequestMode;
  destination : string;
  req_headers : Headers;
  redirect : string
}.

(** [new Request(url)] *)
Definition newRequest (u : string) : Request :=
  {| url := u; method := "GET"; mode := ModeCors; destination := "";
     req_headers := []; redirect := "follow" |}.

(** A response; its body is the sequence of chunks a reader receives. *)
Record Response := {
  status : nat;
  statusText : string;
  rtype : ResponseType;
  resp_headers : Headers;
  body : list Uint8Array
}.

(** [response.ok] *)
Definition ok (r : Response) : bool := (200 <=? status r) && (status r <=? 299).

(** [new Uint8Array(await resp.arrayBuffer())] *)
Definition arrayBuffer (r : Response) : Uint8Array := concat (body r).

(** One cache: the stored responses by the URL of their request. *)
Abbreviation Cache := (gmap string Response).

(** [caches]: the named caches, in the order of their creation. *)
Abbreviation CacheStorage := (list (string * Cache)).

Fixpoint cachesGet (cs : CacheStorage) (name : string) : option Cache :=
  match cs with
  | [] => None
  | (n, c) :: rest => if String.eqb n name then Some c else cachesGet rest name
  end.

(** [caches.open(name)] creates the cache when there is none. *)
Definition cachesOpen (cs : CacheStorage) (name : string) : CacheStorage :=
  match cachesGet cs name with
  | Some _ => cs
  | None => cs ++ [(name, ∅)]
  end.

Definition openedCache (cs : CacheStorage) (name : string) : Cache :=
  default ∅ (cachesGet cs name).

Fixpoint cachesUpdate (cs : CacheStorage) (name : string) (f : Cache -> Cache)
  : CacheStorage :=
  match cs with
  | [] => []
  | (n, c) :: rest =>
      if String.eqb n name then (n, f c) :: rest else (n, c) :: cachesUpdate rest name f
  end.

(** [caches.match(key)]: the first cache, in creation order, with an entry. *)
Fixpoint cachesMatch (cs : CacheStorage) (keyUrl : string) : option Response :=
  match cs with
  | [] => None
  | (_, c) :: rest =>
      match c !! keyUrl with
      | Some r => Some r
      | None => cachesMatch rest keyUrl
      end
  end.

(** [caches.keys()] *)
Definition cachesKeys (cs : CacheStorage) : list string := map fst cs.

(** [caches.delete(name)] *)
Definition cachesDelete (cs : CacheStorage) (name : string) : CacheStorage :=
  List.filter (fun e => negb (String.eqb (fst e) name)) cs.

(** [cache.put(key, response)] on the cache [name]. *)
Definition cachePut (cs : CacheStorage) (name keyUrl : string) (r : Response)
  : CacheStorage :=
  cachesUpdate cs name (fun c => <[keyUrl := r]> c).

(** [cache.match(request)] with a [Request] object: a request whose method
    is not [GET] matches nothing. A string key makes a [GET] request. *)
Definition cacheMatchRequest (c : Cache) (request : Request) : option Response :=
  if String.eqb (method request) "GET" then c !! url request else None.

(** [cache.put(request, response)] with a [Request] object, on the cache
    [name]: for a request whose method is not [GET] the promise is rejected
    and nothing is stored. *)
Definition cachePutRequest (cs : CacheStorage) (name : string) (request : Request)
    (r : Response) : CacheStorage :=
  if String.eqb (method request) "GET" then cachePut cs name (url request) r else cs.

(** What the worker can observe and change: the cache storage, and the log
    of the requests it sent to the network. *)
Record World := {
  caches : CacheStorage;
  fetched : list Request
}.

(** What one run of the worker script has around it: the network ([None]
    is a rejected [fetch]), its script URL, the value of
    [new Date().getTime()] when the script started, and the server's
    configuration. The browser stops an idle worker and runs the script
    again for a later event: an [Env] stands for the events of one run. *)
Record Env := {
  net : Request -> option Response;
  location : string;
  startTime : Z;
  serverPreparedData : ServerPreparedData
}.

(** The run of the script that starts at [now], with the same network,
    script URL and configuration. *)
Definition restart (env : Env) (now : Z) : Env :=
  {| net := net env; location := location env; startTime := now;
     serverPreparedData := serverPreparedData env |}.

(** [self.buildSuitePreparedData.codeVersion], the template literal
    [`Build-${new Date().getTime()}`], which is evaluated when the script
    starts. *)
Definition codeVersion (env : Env) : string := "Build-" ++ pretty (startTime env).

#[global] Arguments codeVersion : simpl never.

(** [fetch(request)] *)
Definition fetch (env : Env) (w : World) (r : Request) : option Response * World :=
  (net env r, {| caches := caches w; fetched := fetched w ++ [r] |}).

(** The origin of a serialised URL: everything before the path. *)
Fixpoint untilPath (s : string) : string :=
  match s with
  | EmptyString => EmptyString
  | String c s' =>
      if Ascii.eqb c "/" || Ascii.eqb c "?" || Ascii.eqb c "#" then EmptyString
      else String c (untilPath s')
  end.

Definition urlOrigin (u : string) : string :=
  match Js.indexOfNat "://" u with
  | Some n =>
      String.substring 0 (n + 3) u ++ untilPath (Js.dropStr (n + 3) u)
  | None => u
  end.

(** The directory of a URL: everything up to its last [/]. *)
Fixpoint baseDir (u : string) : string :=
  match u with
  | EmptyString => EmptyString
  | String c u' =>
      if Js.includes u' "/" || Ascii.eqb c "/" then String c (baseDir u')
      else EmptyString
  end.

(** A string handed to the cache or to [new Request] is resolved against
    the worker's script URL. *)
Definition resolveUrl (env : Env) (u : string) : string :=
  if Js.includes u "://" then u
  else if String.prefix "/" u then urlOrigin (location env) ++ u
  else baseDir (location env) ++ u.

Definition keyUrl (env : Env) (key : string) : string := resolveUrl env key.

(** [CACHE_ID] and [OFFLINE_URL] of the worker script. *)
Definition CACHE_ID (env : Env) : string :=
  codeVersion env ++ "_" ++ cacheVersion (serverPreparedData env).

#[global] Arguments CACHE_ID : simpl never.

Definition OFFLINE_URL (env : Env) : string := offlineUrl (serverPreparedData env).

End Platform.

(** ** [TypedArray.prototype.slice]

    Negative indices count from the end of the array, and both bounds are
    clamped to the array. *)
Definition relIndex (len : nat) (k : Z) : nat :=
  if (k <? 0)%Z then Z.to_nat (Z.max (Z.of_nat len + k) 0)
  else Z.to_nat (Z.min k (Z.of_nat len)).

Definition slice (a : Uint8Array) (from to : Z) : Uint8Array :=
  let f := relIndex (length a) from in
  let t := relIndex (length a) to in
  take (t - f) (drop f a).

Definition sliceFrom (a : Uint8Array) (from : Z) : Uint8Array :=
  drop (relIndex (length a) from) a.

(** ** [findMatchingPlaceholder] *)

Module Scanner.

(** One element of the [candidates] array. *)
Record Candidate := {
  c_config : PlaceholderConfig;
  c_bytes : Uint8Array;
  c_length : nat;
  c_matched : bool;
  c_finished : bool
}.

(** The candidate object after [end] and [start] were stored on it. *)
Record MatchData := {
  m_cand : Candidate;
  m_start : Z;
  m_end : Z
}.

Definition m_config (m : MatchData) : PlaceholderConfig := c_config (m_cand m).

(** The callback of [placeholderConfigs.map]; [a[i] === b[j]] compares two
    possibly [undefined] array reads. *)
Definition init_candidate (bytes : Uint8Array) (i : nat) (config : PlaceholderConfig)
  : Candidate :=
  {| c_config := config;
     c_bytes := placeholderBytes config;
     c_length := length (placeholderBytes config);
     c_matched := bool_decide (placeholderBytes config !! 0 = bytes !! i);
     c_finished := bool_decide (length (placeholderBytes config) = 1) |}.

(** The body of the [for] loop for one candidate, before the [splice]. *)
Definition step_candidate (bytes : Uint8Array) (i idx : nat) (c : Candidate) : Candidate :=
  let matched :=
    if idx <? c_length c
    then c_matched c && bool_decide (c_bytes c !! idx = bytes !! i)
    else c_matched c in
  let finished :=
    if (Z.of_nat idx =? Z.of_nat (c_length c) - 1)%Z then true else c_finished c in
  {| c_config := c_config c; c_bytes := c_bytes c; c_length := c_length c;
     c_matched := matched; c_finished := finished |}.

(** [for (let k = candidates.length - 1; k >= 0; k--)]: the candidates are
    visited from the last to the first, and a candidate that stopped
    matching is spliced out, which leaves the positions below [k] alone. *)
Fixpoint for_candidates (bytes : Uint8Array) (i idx : nat) (cands : list Candidate)
    (allFinished found : bool) : list Candidate * bool * bool :=
  match cands with
  | [] => ([], allFinished, found)
  | c :: rest =>
      let '(rest', allFinished', found') :=
        for_candidates bytes i idx rest allFinished found in
      let c' := step_candidate bytes i idx c in
      let allFinished'' := allFinished' && c_finished c' in
      let found'' := found' || (c_finished c' && c_matched c') in
      (if c_matched c' then c' :: rest' else rest', allFinished'', found'')
  end.

Definition nonempty {A} (l : list A) : bool :=
  match l with [] => false | _ => true end.

(** The [while] loop; it runs at most [length bytes - i] times, which is the
    fuel its caller passes. The result is [(i, candidates, found)]. *)
Fixpoint find_loop (fuel : nat) (bytes : Uint8Array) (i idx : nat)
    (cands : list Candidate) (allFinished found : bool)
  : nat * list Candidate * bool :=
  match fuel with
  | 0 => (i, cands, found)
  | S fuel' =>
      if (i <? length bytes) && nonempty cands && negb allFinished && negb found
      then
        let '(cands', allFinished', found') :=
          for_candidates bytes i idx cands true found in
        find_loop fuel' bytes (S i) (S idx) cands' allFinished' found'
      else (i, cands, found)
  end.

(** [candidates[0]] of an empty array is [undefined] and the assignment to
    [matchData.end] would throw; [found] is only set by a candidate that
    stays in the array, so the branch is dead and returns [None] here. *)
Definition findMatchingPlaceholder (bytes : Uint8Array) (startIndex : nat)
    (prefixBytes : Uint8Array) (placeholderConfigs : list PlaceholderConfig)
  : option MatchData :=
  let candidates := map (init_candidate bytes startIndex) placeholderConfigs in
  let '(i, candidates', found) :=
    find_loop (length bytes) bytes (S startIndex) 1 candidates false false in
  if found then
    match candidates' with
    | c :: _ =>
        let end_ := (Z.of_nat i - 1)%Z in
        Some {| m_cand := c;
                m_end := end_;
                m_start := (end_ - Z.of_nat (c_length c)
                            - Z.of_nat (length prefixBytes) + 1)%Z |}
    | [] => None
    end
  else None.

(** ** [extractPlaceholderChunk] *)

(** The inner [while]: advance over the bytes that agree with the prefix. *)
Fixpoint match_prefix (fuel : nat) (bytes prefixBytes : Uint8Array)
    (pointer prefixIdx : nat) : nat * nat :=
  match fuel with
  | 0 => (pointer, prefixIdx)
  | S fuel' =>
      if bool_decide (bytes !! pointer = prefixBytes !! prefixIdx)
         && (prefixIdx <? length prefixBytes)
         && (pointer <? length bytes)
      then match_prefix fuel' bytes prefixBytes (S pointer) (S prefixIdx)
      else (pointer, prefixIdx)
  end.

(** The outer [while (pointer < len && !found)]. *)
Fixpoint scan_loop (fuel : nat) (bytes prefixBytes : Uint8Array)
    (placeholderConfigs : list PlaceholderConfig) (pointer : nat)
  : option MatchData :=
  match fuel with
  | 0 => None
  | S fuel' =>
      if pointer <? length bytes then
        let '(pointer', prefixIdx) :=
          match_prefix (length prefixBytes) bytes prefixBytes pointer 0 in
        let found :=
          if (prefixIdx =? length prefixBytes) && (pointer' <? length bytes)
          then findMatchingPlaceholder bytes pointer' prefixBytes placeholderConfigs
          else None in
        match found with
        | Some m => Some m
        | None => scan_loop fuel' bytes prefixBytes placeholderConfigs (S pointer')
        end
      else None
  end.

Record Extracted := {
  found : option MatchData;
  before : option Uint8Array;
  after : option Uint8Array;
  leftover : option Uint8Array
}.

Definition extractPlaceholderChunk (bytes prefixBytes : Uint8Array)
    (placeholderConfigs : list PlaceholderConfig) (isFinal : bool) : Extracted :=
  match scan_loop (length bytes) bytes prefixBytes placeholderConfigs 0 with
  | Some m =>
      {| found := Some m;
         before := Some (slice bytes 0 (m_start m));
         after := Some (sliceFrom bytes (m_end m + 1));
         leftover := None |}
  | None =>
      if negb isFinal then
        if LAST_BYTES_COUNT <? length bytes then
          {| found := None;
             before := Some (slice bytes 0 (Z.of_nat (length bytes) - Z.of_nat LAST_BYTES_COUNT));
             after := None;
             leftover := Some (sliceFrom bytes (Z.of_nat (length bytes) - Z.of_nat LAST_BYTES_COUNT)) |}
        else
          {| found := None; before := None; after := None; leftover := Some bytes |}
      else
        {| found := None; before := Some bytes; after := None; leftover := None |}
  end.

(** [encodePlaceholderConfigs]; a placeholder that does not start with the
    prefix makes it throw, which is [None] here. *)
Definition stripPrefix (p s : string) : option string :=
  if String.prefix p s then Some (String.substring (String.length p) (String.length s - String.length p) s)
  else None.

Fixpoint encodeConfigs (cachedParts : list CachedPart) : option (list PlaceholderConfig) :=
  match cachedParts with
  | [] => Some []
  | c :: rest =>
      match stripPrefix PLACEHOLDER_PREFIX (placeholder c) with
      | None => None
      | Some tail =>
          match encodeConfigs rest with
          | None => None
          | Some cs => Some ({| part := c; placeholderBytes := encode tail |} :: cs)
          end
      end
  end.

Definition encodePlaceholderConfigs (cachedParts : list CachedPart)
  : option (Uint8Array * list PlaceholderConfig) :=
  match encodeConfigs cachedParts with
  | None => None
  | Some configs => Some (encode PLACEHOLDER_PREFIX, configs)
  end.

End Scanner.

(** * The stream rewriter ([createStream]) *)

Module Stream.
Import Scanner Platform.

(** ** [fetchOrCachePart] *)

(** What a promise in [this.queue] resolves to. A flag that the object does
    not carry is only ever read for its truth value, so a missing flag is
    [false]. *)
Record Item := {
  value : option Uint8Array;
  done : bool;
  merge : bool;
  isBase : bool
}.

(** A settled promise of the queue. *)
Inductive Settled :=
  | Resolved (item : Item)
  | Rejected.

(** The URL of a part for the site and the locale of the page. *)
Definition localizedUrl (env : Env) (u siteId locale : string) : string :=
  Js.replaceFirst
    (Js.replaceFirst u ("-" ++ urlSiteId (serverPreparedData env) ++ "-")
                       ("-" ++ siteId ++ "-"))
    ("/" ++ urlLocale (serverPreparedData env) ++ "/")
    ("/" ++ locale ++ "/").

Definition partKey (siteId locale : option string) (suffix : string) : string :=
  Js.template siteId ++ "." ++ Js.template locale ++ "." ++ suffix.

Definition fetchOrCachePart (env : Env) (w : World) (partConfig : CachedPart)
    (siteId locale : option string) (cacheId : string) : Settled * World :=
  let key := partKey siteId locale (part_cacheSuffix partConfig) in
  match cachesMatch (caches w) (keyUrl env key) with
  | Some resp =>
      (Resolved {| value := Some (arrayBuffer resp); done := false;
                   merge := false; isBase := false |}, w)
  | None =>
      let u := localizedUrl env (part_url partConfig)
                 (Js.template siteId) (Js.template locale) in
      match fetch env w (newRequest (resolveUrl env u)) with
      | (None, w1) => (Rejected, w1)
      | (Some resp, w1) =>
          let w2 :=
            if ok resp
            then {| caches := cachePut (cachesOpen (caches w1) cacheId) cacheId
                                (keyUrl env key) resp;
                    fetched := fetched w1 |}
            else w1 in
          (Resolved {| value := Some (arrayBuffer resp); done := false;
                       merge := false; isBase := false |}, w2)
      end
  end.

(** [combineUint8Arrays] *)
Definition combineUint8Arrays (arrays : list Uint8Array) : Uint8Array := concat arrays.

(** [buildInitHeaders] *)
Record ResponseInit := {
  init_status : nat;
  init_statusText : string;
  init_headers : Headers
}.

Definition buildInitHeaders (fromResponse : Response) : ResponseInit :=
  {| init_status := status fromResponse;
     init_statusText := statusText fromResponse;
     init_headers :=
       fold_left (fun o kv => objSet o (fst kv) (snd kv)) (resp_headers fromResponse)
                 [("X-ServedByServiceWorker", "true")] |}.

(** ** The underlying source of the [ReadableStream] *)

(** [this]: the reader (the chunks it has not delivered yet), the encoded
    configuration, the queue of promises and the [done] flag. *)
Record Source := {
  reader : list Uint8Array;
  prefixBytes : Uint8Array;
  configs : list PlaceholderConfig;
  queue : list Settled;
  s_done : bool
}.

Inductive StreamState := Readable | Closed | Errored.

(** The controller: the chunks enqueued so far and the state of the stream. *)
Record Controller := {
  chunks : list Uint8Array;
  state : StreamState
}.

Definition enqueue (ctl : Controller) (chunk : Uint8Array) : Controller :=
  {| chunks := chunks ctl ++ [chunk]; state := state ctl |}.

Definition close (ctl : Controller) : Controller :=
  {| chunks := chunks ctl; state := Closed |}.

Definition error (ctl : Controller) : Controller :=
  {| chunks := chunks ctl; state := Errored |}.

Definition setQueue (src : Source) (q : list Settled) : Source :=
  {| reader := reader src; prefixBytes := prefixBytes src; configs := configs src;
     queue := q; s_done := s_done src |}.

Definition setDone (src : Source) (d : bool) : Source :=
  {| reader := reader src; prefixBytes := prefixBytes src; configs := configs src;
     queue := queue src; s_done := d |}.

(** [readChunk]: the promise of the next [reader.read()]. Reads are served
    in the order they are issued, and at most one is pending at a time, so
    the promise is settled here with the chunk it will deliver. *)
Definition readChunk (src : Source) : Settled * Source :=
  match reader src with
  | [] =>
      (Resolved {| value := None; done := true; merge := false; isBase := true |}, src)
  | chunk :: rest =>
      (Resolved {| value := Some chunk; done := false; merge := false; isBase := true |},
       {| reader := rest; prefixBytes := prefixBytes src; configs := configs src;
          queue := queue src; s_done := s_done src |})
  end.

(** The [while (item.merge && this.queue.length)] loop of [nextFromQueue];
    [None] is a rejection. *)
Fixpoint mergeLoop (item : Item) (q : list Settled) : option (Item * list Settled) :=
  if merge item then
    match q with
    | [] => Some (item, [])
    | Rejected :: _ => None
    | Resolved next :: q' =>
        mergeLoop
          {| value := match value next with
                      | Some v => Some (combineUint8Arrays [default [] (value item); v])
                      | None => value item
                      end;
             done := done item || done next;
             merge := merge next;
             isBase := isBase next |}
          q'
    end
  else Some (item, q).

Definition nextFromQueue (q : list Settled) : option (Item * list Settled) :=
  match q with
  | [] => None
  | Rejected :: _ => None
  | Resolved item :: q' => mergeLoop item q'
  end.

(** What one run of the body of [pull] ends with: [return controller.close()]
    or a thrown exception ([Stop]), or [return this.pull(controller)]
    ([Again]). *)
Inductive PullResult :=
  | Stop (src : Source) (ctl : Controller) (w : World)
  | Again (src : Source) (ctl : Controller) (w : World).

(** The items that [pull] puts at the head of the queue. *)
Definition carryItem (l : Uint8Array) : Settled :=
  Resolved {| value := Some l; done := false; merge := true; isBase := false |}.

Definition afterItem (a : Uint8Array) : Settled :=
  Resolved {| value := Some a; done := false; merge := false; isBase := false |}.

(** The body of [pull], up to its recursive call. An exception thrown
    inside [pull] errors the stream. *)
Definition pullOnce (env : Env) (siteId locale : option string)
    (cacheId : string) (src : Source) (ctl : Controller) (w : World) : PullResult :=
  if negb (nonempty (queue src)) || s_done src then Stop src (close ctl) w
  else
    match nextFromQueue (queue src) with
    | None => Stop src (error ctl) w
    | Some (item, q) =>
        let src := setDone (setQueue src q) (s_done src || done item) in
        match value item with
        | None =>
            if s_done src then Stop src (close ctl) w
            else Stop src (error ctl) w
        | Some v =>
            let r := extractPlaceholderChunk v (prefixBytes src) (configs src)
                       (s_done src) in
            let ctl :=
              match before r with Some b => enqueue ctl b | None => ctl end in
            let src :=
              match leftover r with
              | Some l => setQueue src (carryItem l :: queue src)
              | None => src
              end in
            let src :=
              match after r with
              | Some a => setQueue src (afterItem a :: queue src)
              | None => src
              end in
            let '(src, w) :=
              match found r with
              | Some m =>
                  let '(p, w') :=
                    fetchOrCachePart env w (part (m_config m)) siteId locale cacheId in
                  (setQueue src (p :: queue src), w')
              | None => (src, w)
              end in
            let src :=
              if negb (s_done src) && isBase item then
                let '(p, src') := readChunk src in
                setQueue src' (queue src' ++ [p])
              else src in
            Again src ctl w
        end
    end.

(** [pull]. It calls itself until the stream is closed or errored; [fuel]
    bounds the number of calls, and [None] means that the bound was
    reached. *)
Fixpoint pull (fuel : nat) (env : Env) (siteId locale : option string)
    (cacheId : string) (src : Source) (ctl : Controller) (w : World)
  : option (Source * Controller * World) :=
  match fuel with
  | 0 => None
  | S fuel' =>
      match pullOnce env siteId locale cacheId src ctl w with
      | Stop src' ctl' w' => Some (src', ctl', w')
      | Again src' ctl' w' => pull fuel' env siteId locale cacheId src' ctl' w'
      end
  end.

(** The rewritten response: its [init] and the run of its body stream,
    which starts when the response is read. *)
Record Rewritten := {
  rw_init : ResponseInit;
  rw_stream : option (Controller * World)
}.

(** [start] followed by the [pull] the consumer triggers. A configuration
    that [encodePlaceholderConfigs] rejects makes [start] throw, which
    errors the stream before anything is read. *)
Definition runStream (fuel : nat) (env : Env) (w : World) (baseResponse : Response)
    (parts : list CachedPart) (cacheId : string) (siteId locale : option string)
  : option (Controller * World) :=
  let ctl := {| chunks := []; state := Readable |} in
  match encodePlaceholderConfigs parts with
  | None => Some (error ctl, w)
  | Some (prefixBytes, configs) =>
      let src0 := {| reader := body baseResponse; prefixBytes := prefixBytes;
                     configs := configs; queue := []; s_done := false |} in
      let '(p, src1) := readChunk src0 in
      match pull fuel env siteId locale cacheId (setQueue src1 [p]) ctl w with
      | Some (_, ctl', w') => Some (ctl', w')
      | None => None
      end
  end.

(** [createStream] up to its last statement: the [init] and the stream it
    builds. *)
Definition createStream (fuel : nat) (env : Env) (w : World) (baseResponse : Response)
    (parts : list CachedPart) (cacheId : string) : Rewritten :=
  let headersInit := buildInitHeaders baseResponse in
  let siteId := headerGet (init_headers headersInit) X_SF_CC_SITEID in
  let locale := headerGet (init_headers headersInit) X_SF_CC_REQUESTLOCALE in
  {| rw_init := headersInit;
     rw_stream := runStream fuel env w baseResponse parts cacheId siteId locale |}.

(** The statuses of a response that has no body. *)
Definition nullBodyStatus (s : nat) : bool :=
  existsb (Nat.eqb s) [101; 103; 204; 205; 304].

(** The last statement of [createStream], [new Response(stream, headersInit)]:
    the constructor throws a [RangeError] for a status outside 200..599
    and, its body being a stream, a [TypeError] for a null body status. *)
Definition constructorThrows (init : ResponseInit) : bool :=
  negb ((200 <=? init_status init) && (init_status init <=? 599))
  || nullBodyStatus (init_status init).

(** The bytes the consumer of the stream receives. *)
Definition emitted (ctl : Controller) : Uint8Array := concat (chunks ctl).

End Stream.

(** * The worker script *)

Module Worker.
Import Platform Stream.

(** ** The cache invalidation map

    A JavaScript object used as a map from trigger URL to the list of cache
    suffixes; [Object.keys] lists its keys in the order of their first
    insertion (trigger URLs are paths, never array indices). *)
Abbreviation InvalidationMap := (list (string * list string)).

Fixpoint mapGet (m : InvalidationMap) (k : string) : option (list string) :=
  match m with
  | [] => None
  | (k', v) :: rest => if String.eqb k' k then Some v else mapGet rest k
  end.

(** [map[url] = map[url] || []; map[url].push(suffix)] *)
Fixpoint mapPush (m : InvalidationMap) (u suffix : string) : InvalidationMap :=
  match m with
  | [] => [(u, [suffix])]
  | (k, v) :: rest =>
      if String.eqb k u then (k, v ++ [suffix]) :: rest
      else (k, v) :: mapPush rest u suffix
  end.

Definition generateCacheInvalidationMap (d : ServerPreparedData) : InvalidationMap :=
  let m1 :=
    fold_left (fun m p =>
                 fold_left (fun m u => mapPush m u (part_cacheSuffix p))
                           (part_cacheCleanTriggerUrls p) m)
              (cachedParts d) [] in
  fold_left (fun m cfg =>
               fold_left (fun m u => mapPush m u (cu_cacheSuffix cfg))
                         (cu_cacheCleanTriggerUrls cfg) m)
            (cachedUrls d) m1.

(** [self.cacheCleanUrls] *)
Definition cacheCleanUrls (env : Env) : InvalidationMap :=
  generateCacheInvalidationMap (serverPreparedData env).

(** ** Request classification helpers *)

Definition isStaticResource (u : string) : bool :=
  Js.test Js.staticFolder u && negb (Js.test Js.siteStaticFolder u).

Definition isAllowedExtension (u : string) : bool :=
  Js.test Js.jsExtension u || Js.test Js.cssExtension u.

Definition isCacheableStatic (request : Request) : bool :=
  if isStaticResource (url request) then
    existsb (String.eqb (destination request)) ["image"; "script"; "style"; "font"]
    || isAllowedExtension (url request)
  else false.

Definition isSameOrigin (env : Env) (u : string) : bool :=
  String.eqb (urlOrigin (resolveUrl env u)) (urlOrigin (location env)).

(** [addSkipParamsToRequest]: the loop appends to the [searchParams] of
    [new URL(originalRequest.url)]; the new request has the serialised URL,
    the mode that [new Request] gives by default, and [redirect: 'manual']. *)
Definition addSkipParamsToRequest (env : Env) (originalRequest : Request) : Request :=
  let u0 := Url.parse (url originalRequest) in
  let st :=
    fold_left (fun st p =>
                 if Js.truthy (Some (skipParameter p))
                 then Url.append st (skipParameter p) "true"
                 else st)
              (cachedParts (serverPreparedData env)) (u0, Url.searchParams u0) in
  {| url := Url.href (fst st); method := method originalRequest; mode := ModeCors;
     destination := ""; req_headers := req_headers originalRequest;
     redirect := "manual" |}.

(** [getAjaxCacheConfig]; [false] and [undefined] are both [None]. *)
Definition getAjaxCacheConfig (env : Env) (request : Request) : option CachedUrl :=
  let siteId := headerGet (req_headers request) X_SF_CC_SITEID in
  let locale := headerGet (req_headers request) X_SF_CC_REQUESTLOCALE in
  if negb (Js.truthy siteId) || negb (Js.truthy locale) then None
  else
    List.find (fun cfg =>
                 let expectedUrl :=
                   localizedUrl env (cu_url cfg) (Js.template siteId) (Js.template locale) in
                 Js.includes (url request) expectedUrl)
              (cachedUrls (serverPreparedData env)).

Definition basicAuthFallbackBody : string :=
  "<html><head><script>navigator.serviceWorker.getRegistrations().then(regs => Promise.all(regs.map(r => r.unregister()))).then(() => { window.location.reload(); });</script></head><body></body></html>".

Definition getBasicAuthFallbackResponse : Response :=
  {| status := 200; statusText := ""; rtype := TypeDefault;
     resp_headers := [("content-type", "text/html")];
     body := [encode basicAuthFallbackBody] |}.

(** ** Cache maintenance *)

(** [clearOldCaches] *)
Definition clearOldCaches (env : Env) (w : World) : World :=
  {| caches :=
       fold_left cachesDelete
         (List.filter (fun name => negb (String.eqb name (CACHE_ID env)))
                      (cachesKeys (caches w)))
         (caches w);
     fetched := fetched w |}.

(** [precacheOfflinePage]; [cache.add] rejects when the response is not
    [ok], and the flag of the result tells whether it resolved. *)
Definition precacheOfflinePage (env : Env) (w : World) : bool * World :=
  let cs := cachesOpen (caches w) (CACHE_ID env) in
  let request := newRequest (resolveUrl env (OFFLINE_URL env)) in
  match fetch env {| caches := cs; fetched := fetched w |} request with
  | (Some resp, w1) =>
      if ok resp
      then (true, {| caches := cachePut (caches w1) (CACHE_ID env) (url request) resp;
                     fetched := fetched w1 |})
      else (false, w1)
  | (None, w1) => (false, w1)
  end.

(** The suffixes of the first trigger, in key order, that the shortened URL
    contains; [self.cacheCleanUrls[undefined]] reads the key ["undefined"]. *)
Definition triggeredSuffixes (env : Env) (requestUrl : string) : list string :=
  let shortUrl := Js.removeFirst Js.siteLocaleSegment requestUrl in
  let trigger :=
    List.find (fun u => Js.includes shortUrl u) (map fst (cacheCleanUrls env)) in
  default [] (mapGet (cacheCleanUrls env) (Js.template trigger)).

Definition shouldDelete (suffixes : list string) (entryUrl : string) : bool :=
  existsb (fun s => Js.includes entryUrl ("." ++ s)) suffixes.

(** [cleanTriggeredCache] *)
Definition cleanTriggeredCache (env : Env) (w : World) (request : Request) : World :=
  let suffixes := triggeredSuffixes env (url request) in
  let cs := cachesOpen (caches w) (CACHE_ID env) in
  let keys := map fst (map_to_list (openedCache cs (CACHE_ID env))) in
  let toDelete := List.filter (shouldDelete suffixes) keys in
  {| caches :=
       cachesUpdate cs (CACHE_ID env)
         (fun c => fold_left (fun c k => delete k c) toDelete c);
     fetched := fetched w |}.

(** ** The strategies *)

(** What a strategy hands to [respondWith]: a response, a rewritten
    response whose body is produced by [createStream], [undefined], or a
    rejected promise. *)
Inductive Answer :=
  | Whole (r : Response)
  | Rewriting (rw : Rewritten)
  | Undefined
  | Failed.

(** What [respondToNavigation] leaves: its answer, the world when it
    answers, and the stream that [createStream] had built when the
    constructor of its response threw. Such a stream has no consumer, but
    it has started, and the [pull] that follows [start] runs the body to
    its end. *)
Record Navigated := {
  nav_answer : Answer;
  nav_world : World;
  nav_abandoned : option Rewritten
}.

(** The [catch] block of [respondToNavigation]. *)
Definition offlineAnswer (env : Env) (w : World) : Answer * World :=
  let cs := cachesOpen (caches w) (CACHE_ID env) in
  (match openedCache cs (CACHE_ID env) !! resolveUrl env (OFFLINE_URL env) with
   | Some r => Whole r
   | None => Undefined
   end,
   {| caches := cs; fetched := fetched w |}).

(** [respondToNavigation]; the [try] block covers the invalidation check,
    the rebuilt request, the [fetch] and the call of [createStream], and
    returns the stream response before any of its body is produced. When
    the constructor of that response throws, the [catch] block answers. A
    response with a null body status has no body: [start] throws on it and
    the stream does nothing. *)
Definition respondToNavigation (fuel : nat) (env : Env) (w : World) (request : Request)
  : Navigated :=
  let w1 := cleanTriggeredCache env w request in
  let modifiedRequest := addSkipParamsToRequest env request in
  match fetch env w1 modifiedRequest with
  | (Some networkResponse, w2) =>
      if status networkResponse =? 401 then
        {| nav_answer := Whole getBasicAuthFallbackResponse; nav_world := w2;
           nav_abandoned := None |}
      else if existsb (Nat.eqb (status networkResponse)) [301; 302]
              || bool_decide (rtype networkResponse = TypeOpaqueRedirect)
      then {| nav_answer := Whole networkResponse; nav_world := w2; nav_abandoned := None |}
      else if constructorThrows (buildInitHeaders networkResponse) then
        let '(a, w3) := offlineAnswer env w2 in
        {| nav_answer := a; nav_world := w3;
           nav_abandoned :=
             if nullBodyStatus (status networkResponse) then None
             else Some (createStream fuel env w3 networkResponse
                          (cachedParts (serverPreparedData env)) (CACHE_ID env)) |}
      else
        {| nav_answer :=
             Rewriting (createStream fuel env w2 networkResponse
                          (cachedParts (serverPreparedData env)) (CACHE_ID env));
           nav_world := w2; nav_abandoned := None |}
  | (None, w2) =>
      let '(a, w3) := offlineAnswer env w2 in
      {| nav_answer := a; nav_world := w3; nav_abandoned := None |}
  end.

(** [respondToAjax]; the [cache.put] handed to [waitUntil] is run to its
    end here. *)
Definition respondToAjax (env : Env) (w : World) (request : Request)
    (config : option CachedUrl) : Answer * World :=
  match config with
  | Some config =>
      let cs := cachesOpen (caches w) (CACHE_ID env) in
      let w0 := {| caches := cs; fetched := fetched w |} in
      let siteId := headerGet (req_headers request) X_SF_CC_SITEID in
      let locale := headerGet (req_headers request) X_SF_CC_REQUESTLOCALE in
      let key := (Js.template siteId ++ "." ++ Js.template locale ++ "."
                  ++ cu_cacheSuffix config)%string in
      match openedCache cs (CACHE_ID env) !! keyUrl env key with
      | Some cached => (Whole cached, w0)
      | None =>
          match fetch env w0 request with
          | (Some cached, w1) =>
              if ok cached
              then (Whole cached,
                    {| caches := cachePut (caches w1) (CACHE_ID env) (keyUrl env key) cached;
                       fetched := fetched w1 |})
              else (Whole cached, w1)
          | (None, w1) => (Failed, w1)
          end
      end
  | None =>
      match fetch env w request with
      | (Some r, w1) => (Whole r, w1)
      | (None, w1) => (Failed, w1)
      end
  end.

(** [respondToStatic]; the request itself is the key of [cache.match] and
    of [cache.put], whose promise is not awaited. *)
Definition respondToStatic (env : Env) (w : World) (request : Request) : Answer * World :=
  let cs := cachesOpen (caches w) (CACHE_ID env) in
  let w0 := {| caches := cs; fetched := fetched w |} in
  match cacheMatchRequest (openedCache cs (CACHE_ID env)) request with
  | Some cached => (Whole cached, w0)
  | None =>
      match fetch env w0 request with
      | (Some network, w1) =>
          if ok network
          then (Whole network,
                {| caches := cachePutRequest (caches w1) (CACHE_ID env) request network;
                   fetched := fetched w1 |})
          else (Whole network, w1)
      | (None, w1) => (Failed, w1)
      end
  end.

(** ** The event listeners *)

(** The worker and what surrounds it when an event is dispatched: the
    world; whether the worker is still registered; the open client views
    that the active worker of the registration controls; the other open
    client views in the scope of the worker; the views the worker
    reloaded; the messages it posted; and the flags of [skipWaiting] and
    [clients.claim]. *)
Record Host := {
  world : World;
  registered : bool;
  clients : list string;
  uncontrolled : list string;
  navigated : list string;
  posted : list (string * string);
  skippedWaiting : bool;
  claimed : bool
}.

(** The phases of the worker in which its listeners run. *)
Inductive Phase := Installing | Activating | Activated.

(** [self.clients.matchAll()]: called without [includeUncontrolled], it
    resolves to the clients whose active worker is this worker. A worker
    that is being installed is the active worker of no client; when the
    [activate] event is dispatched, it is the active worker of the
    registration and of the clients that use it. *)
Definition matchAll (phase : Phase) (h : Host) : list string :=
  match phase with
  | Installing => []
  | Activating | Activated => clients h
  end.

(** The [install] listener. *)
Definition onInstall (env : Env) (h : Host) : Host :=
  if negb (swEnabled (serverPreparedData env)) then
    {| world := clearOldCaches env (world h);
       registered := false;
       clients := clients h;
       uncontrolled := uncontrolled h;
       navigated := navigated h ++ matchAll Installing h;
       posted := posted h;
       skippedWaiting := skippedWaiting h;
       claimed := claimed h |}
  else
    {| world := snd (precacheOfflinePage env (world h));
       registered := registered h;
       clients := clients h;
       uncontrolled := uncontrolled h;
       navigated := navigated h;
       posted := posted h;
       skippedWaiting := true;
       claimed := claimed h |}.

(** The [activate] listener; the call of [clients.claim()] is recorded by
    the flag [claimed]. *)
Definition onActivate (env : Env) (h : Host) : Host :=
  {| world := clearOldCaches env (world h);
     registered := registered h;
     clients := clients h;
     uncontrolled := uncontrolled h;
     navigated := navigated h;
     posted := posted h ++ map (fun cl => (cl, CACHE_ID env)) (matchAll Activating h);
     skippedWaiting := skippedWaiting h;
     claimed := true |}.

(** What the [fetch] listener did with an event: the answer it handed to
    [respondWith], if it called it, the world once its promises are
    settled, and the stream that [createStream] had built when the
    constructor of its response threw. *)
Record Handled := {
  respondedWith : option Answer;
  worldAfter : World;
  abandoned : option Rewritten
}.

(** The [fetch] listener. *)
Definition onFetch (fuel : nat) (env : Env) (w : World) (request : Request) : Handled :=
  let ajaxConfig := getAjaxCacheConfig env request in
  if isSameOrigin env (url request) && bool_decide (is_Some ajaxConfig) then
    let '(a, w') := respondToAjax env w request ajaxConfig in
    {| respondedWith := Some a; worldAfter := w'; abandoned := None |}
  else if bool_decide (mode request = ModeSameOrigin) then
    {| respondedWith := None; worldAfter := cleanTriggeredCache env w request;
       abandoned := None |}
  else if bool_decide (mode request = ModeNavigate) then
    let n := respondToNavigation fuel env w request in
    {| respondedWith := Some (nav_answer n); worldAfter := nav_world n;
       abandoned := nav_abandoned n |}
  else if isCacheableStatic request then
    let '(a, w') := respondToStatic env w request in
    {| respondedWith := Some a; worldAfter := w'; abandoned := None |}
  else
    {| respondedWith := None; worldAfter := w; abandoned := None |}.

End Worker.

(** * The configuration of swConfig.js

    [getInitConfig] for the site [RefArch] and the locale [en_US], with the
    URLs [URLUtils] renders for them. *)

Module Sample.
Import Platform Worker.

Definition storeUrl (action : string) : string :=
  "/on/demandware.store/Sites-RefArch-Site/en_US/" ++ action.

(** [buildRelativeUrls] *)
Definition buildRelativeUrls (actions : list string) : list string :=
  map (fun action => Js.removeFirst Js.siteLocaleSegment (storeUrl action)) actions.

Definition layoutCacheInvalidationRoutes : list string :=
  ["Account-Login"; "Account-SaveNewPassword"; "Account-SubmitRegistration"; "Login-Logout"].

Definition minicartCacheInvalidationRoutes : list string :=
  ["Cart-AddProduct"; "Cart-Show"; "Cart-UpdateQuantity"; "Cart-RemoveProductLineItem";
   "Cart-AddCoupon"; "Cart-RemoveCouponLineItem"; "Cart-EditProductLineItem";
   "CSRF-AjaxFail"; "CSRF-Fail"; "CheckoutServices-PlaceOrder"; "Order-Confirm";
   "COPlaceOrder-Submit"; "Account-Login"; "Login-Logout"].

Definition wishlistCacheInvalidationRoutes : list string :=
  ["Wishlist-AddProduct"; "Wishlist-RemoveProduct"; "Wishlist-EditProductListItem"].

Definition headerPart : CachedPart :=
  {| part_url := storeUrl "Page-IncludeHeaderMenu?sw=true";
     placeholder := "$swheader$";
     skipParameter := "sw_skipheader";
     part_cacheSuffix := "header";
     part_cacheCleanTriggerUrls := buildRelativeUrls layoutCacheInvalidationRoutes |}.

Definition footerPart : CachedPart :=
  {| part_url := storeUrl "Page-IncludeFooter?sw=true";
     placeholder := "$swfooter$";
     skipParameter := "sw_skipfooter";
     part_cacheSuffix := "footer";
     part_cacheCleanTriggerUrls := buildRelativeUrls layoutCacheInvalidationRoutes |}.

Definition miniCartUrl : CachedUrl :=
  {| cu_url := storeUrl "Cart-MiniCartShow";
     cu_cacheSuffix := "MiniCartShow";
     cu_cacheCleanTriggerUrls := buildRelativeUrls minicartCacheInvalidationRoutes |}.

Definition wishlistUrl : CachedUrl :=
  {| cu_url := storeUrl "Wishlist-Show";
     cu_cacheSuffix := "WishlistShow";
     cu_cacheCleanTriggerUrls := buildRelativeUrls wishlistCacheInvalidationRoutes |}.

Definition getInitConfig (enabled : bool) : ServerPreparedData :=
  {| offlineUrl := "/on/demandware.static/Sites-RefArch-Site/-/en_US/v1/offline.html";
     cachedParts := [headerPart; footerPart];
     cachedUrls := [miniCartUrl; wishlistUrl];
     urlSiteId := "RefArch";
     urlLocale := "en_US";
     cacheVersion := "dw4ae791b3";
     swEnabled := enabled |}.

Definition origin : string := "https://shop.example".

Definition htmlResponse (chunks : list string) : Response :=
  {| status := 200; statusText := "OK"; rtype := TypeBasic;
     resp_headers := [(X_SF_CC_REQUESTLOCALE, "en_US"); (X_SF_CC_SITEID, "RefArch")];
     body := map encode chunks |}.

(** A network that serves the header and the footer fragments. *)
Definition fragmentNet (request : Request) : option Response :=
  if String.eqb (url request) (origin ++ part_url headerPart) then Some (htmlResponse ["HDR"])
  else if String.eqb (url request) (origin ++ part_url footerPart) then Some (htmlResponse ["FTR"])
  else None.

(** The time at which the run of the examples starts, and the time of an
    earlier run. *)
Definition startedAt : Z := 1700000000000.
Definition earlierStart : Z := 1699990000000.

Definition env (network : Request -> option Response) (enabled : bool) : Env :=
  {| net := network;
     location := origin ++ "/service-worker.js";
     startTime := startedAt;
     serverPreparedData := getInitConfig enabled |}.

Definition emptyWorld : World := {| caches := []; fetched := [] |}.

(** The standard placeholders, encoded. *)
Definition standardConfigs : list PlaceholderConfig :=
  [ {| part := headerPart; placeholderBytes := encode "header$" |};
    {| part := footerPart; placeholderBytes := encode "footer$" |} ].

Definition partFor (p : string) : CachedPart :=
  {| part_url := storeUrl "Page-Include?sw=true"; placeholder := p;
     skipParameter := ""; part_cacheSuffix := p; part_cacheCleanTriggerUrls := [] |}.

(** A configuration entry for the placeholder [p], which starts with the
    three bytes of the prefix. *)
Definition configFor (p : string) : PlaceholderConfig :=
  {| part := partFor p; placeholderBytes := encode (Js.dropStr 3 p) |}.

(** ** Requests, worlds and networks for the worked examples *)

Definition identityHeaders : Headers :=
  [(X_SF_CC_REQUESTLOCALE, "en_US"); (X_SF_CC_SITEID, "RefArch")].

(** A top-level navigation to a store action. *)
Definition navigate (action : string) : Request :=
  {| url := origin ++ storeUrl action; method := "GET"; mode := ModeNavigate;
     destination := "document"; req_headers := []; redirect := "manual" |}.

(** A same-origin [XMLHttpRequest], whose mode is [cors]. *)
Definition xhr (verb action : string) (headers : Headers) : Request :=
  {| url := origin ++ storeUrl action; method := verb; mode := ModeCors;
     destination := ""; req_headers := headers; redirect := "follow" |}.

Definition textResponse (code : nat) (text : string) : Response :=
  {| status := code; statusText := ""; rtype := TypeBasic;
     resp_headers := []; body := [encode text] |}.

(** [CACHE_ID] of the run of the examples, and of the earlier run. *)
Definition generation : string := "Build-1700000000000_dw4ae791b3".
Definition earlierGeneration : string := "Build-1699990000000_dw4ae791b3".

(** A world in which the cache of this run holds the given entries, by
    key: they were stored by earlier events of the run. *)
Definition worldWith (e : Env) (entries : list (string * Response)) : World :=
  {| caches :=
       [(generation,
         list_to_map (map (fun kv => (keyUrl e (fst kv), snd kv)) entries))];
     fetched := [] |}.

(** One more cached URL, whose suffix begins like the suffix of the header. *)
Definition bannerUrl : CachedUrl :=
  {| cu_url := storeUrl "Page-HeaderBanner";
     cu_cacheSuffix := "headerBanner";
     cu_cacheCleanTriggerUrls := [] |}.

Definition bannerEnv : Env :=
  {| net := fragmentNet;
     location := origin ++ "/service-worker.js";
     startTime := startedAt;
     serverPreparedData :=
       {| offlineUrl := offlineUrl (getInitConfig true);
          cachedParts := [headerPart; footerPart];
          cachedUrls := [miniCartUrl; wishlistUrl; bannerUrl];
          urlSiteId := "RefArch";
          urlLocale := "en_US";
          cacheVersion := "dw4ae791b3";
          swEnabled := true |} |}.

Definition bannerWorld : World :=
  worldWith bannerEnv
    [("RefArch.en_US.header", textResponse 200 "HDR");
     ("RefArch.en_US.headerBanner", textResponse 200 "BANNER")].

(** A configuration in which one trigger URL is the beginning of another:
    the header is cleaned by [Account-Login], the mini cart by
    [Account-LoginForm]. *)
Definition overlapEnv : Env :=
  {| net := fragmentNet;
     location := origin ++ "/service-worker.js";
     startTime := startedAt;
     serverPreparedData :=
       {| offlineUrl := offlineUrl (getInitConfig true);
          cachedParts :=
            [ {| part_url := part_url headerPart; placeholder := "$swheader$";
                 skipParameter := "sw_skipheader"; part_cacheSuffix := "header";
                 part_cacheCleanTriggerUrls := buildRelativeUrls ["Account-Login"] |} ];
          cachedUrls :=
            [ {| cu_url := storeUrl "Cart-MiniCartShow"; cu_cacheSuffix := "MiniCartShow";
                 cu_cacheCleanTriggerUrls := buildRelativeUrls ["Account-LoginForm"] |} ];
          urlSiteId := "RefArch";
          urlLocale := "en_US";
          cacheVersion := "dw4ae791b3";
          swEnabled := true |} |}.

Definition overlapWorld : World :=
  worldWith overlapEnv
    [("RefArch.en_US.header", textResponse 200 "HDR");
     ("RefArch.en_US.MiniCartShow", textResponse 200 "cart")].

(** Entries of two sites and locales, and the offline page. *)
Definition storedWorld : World :=
  worldWith (env fragmentNet true)
    [("RefArch.en_US.header", textResponse 200 "HDR");
     ("RefArch.fr_FR.header", textResponse 200 "HDR-fr");
     ("Outlet.en_GB.footer", textResponse 200 "FTR");
     ("RefArch.en_US.MiniCartShow", textResponse 200 "cart");
     ("RefArch.en_US.WishlistShow", textResponse 200 "wishlist");
     (offlineUrl (getInitConfig true), textResponse 200 "offline")].

(** Only the offline page is stored. *)
Definition offlineOnlyWorld : World :=
  worldWith (env fragmentNet true)
    [(offlineUrl (getInitConfig true), textResponse 200 "offline")].

(** A network that serves the pages but no fragment. *)
Definition pageOnlyNet (request : Request) : option Response :=
  if String.eqb (url request)
       (origin ++ storeUrl "Home-Show" ++ "?sw_skipheader=true&sw_skipfooter=true")
  then Some (htmlResponse ["<html>$swheader$</html>"])
  else None.

(** A network that serves the fragment of [partFor]. *)
Definition includeNet (request : Request) : option Response :=
  if String.eqb (url request) (origin ++ storeUrl "Page-Include?sw=true")
  then Some (htmlResponse ["INC"])
  else None.

(** A network that serves the mini cart, whatever the query. *)
Definition cartNet (request : Request) : option Response :=
  if Js.includes (url request) (storeUrl "Cart-MiniCartShow")
  then Some (textResponse 200 "cart-1")
  else None.

(** A host in the middle of a run: the storage holds the cache that an
    earlier run of the script left and the cache of this run, and the
    worker controls one client view. *)
Definition hostWithTwoGenerations : Host :=
  {| world :=
       {| caches :=
            [(earlierGeneration,
              {[ keyUrl (env fragmentNet false) "RefArch.en_US.header"
                 := textResponse 200 "old" ]});
             (generation,
              {[ keyUrl (env fragmentNet false) "RefArch.en_US.header"
                 := textResponse 200 "HDR" ]})];
          fetched := [] |};
     registered := true;
     clients := [(origin ++ storeUrl "Home-Show")%string];
     uncontrolled := [];
     navigated := [];
     posted := [];
     skippedWaiting := false;
     claimed := false |}.

(** A host when a new version of the script is installed: the storage
    holds the cache that an earlier run left; two pages of the shop are
    open, one that the active worker of the registration controls and one
    that no worker controls. *)
Definition hostAtInstall : Host :=
  {| world :=
       {| caches :=
            [(earlierGeneration,
              {[ keyUrl (env fragmentNet false) "RefArch.en_US.header"
                 := textResponse 200 "old" ]})];
          fetched := [] |};
     registered := true;
     clients := [(origin ++ storeUrl "Home-Show")%string];
     uncontrolled := [(origin ++ storeUrl "Cart-Show")%string];
     navigated := [];
     posted := [];
     skippedWaiting := false;
     claimed := false |}.

End Sample.

(** ** Predicates used to state the scanner's properties *)

Module ScannerSpec.
Import Scanner.

(** The match loop reports the right token when every placeholder has at
    least two bytes after the prefix and no placeholder is a strict prefix
    of another one. *)
Definition suffix_lengths_ok (configs : list PlaceholderConfig) : Prop :=
  Forall (fun cfg => 2 <= length (placeholderBytes cfg)) configs.

Definition prefix_free (configs : list PlaceholderConfig) : Prop :=
  Forall (fun a =>
            Forall (fun b =>
                      placeholderBytes a `prefix_of` placeholderBytes b ->
                      placeholderBytes a = placeholderBytes b)
                   configs)
         configs.

Definition prefix_free_in (configs : list PlaceholderConfig) : Prop :=
  forall a b, In a configs -> In b configs ->
    placeholderBytes a `prefix_of` placeholderBytes b ->
    placeholderBytes a = placeholderBytes b.

(** The longest configured token, prefix included. *)
Definition longestToken (prefixBytes : Uint8Array) (configs : list PlaceholderConfig)
  : nat :=
  fold_right Nat.max 0
    (map (fun cfg => length prefixBytes + length (placeholderBytes cfg)) configs).

(** The carry-over of a scan. *)
Definition carryOver (r : Extracted) : Uint8Array := default [] (leftover r).

(** "The carry-over of a non-final scan without a match is no longer than
    the longest configured token." *)
Definition carry_over_within_longest_token (bytes prefixBytes : Uint8Array)
    (configs : list PlaceholderConfig) : Prop :=
  length (carryOver (extractPlaceholderChunk bytes prefixBytes configs false))
  <= longestToken prefixBytes configs.

(** "Scanning [chunk1] as non-final and then its carry-over merged with
    [chunk2] yields the same match as scanning [chunk1 ++ chunk2]": the
    same configuration, the same bytes passed through before the match, the
    same bytes after it. *)
Definition split_scan_agrees (prefixBytes : Uint8Array)
    (configs : list PlaceholderConfig) (chunk1 chunk2 : Uint8Array)
    (isFinal : bool) : Prop :=
  let first := extractPlaceholderChunk chunk1 prefixBytes configs false in
  let second :=
    extractPlaceholderChunk (carryOver first ++ chunk2) prefixBytes configs isFinal in
  let oneshot :=
    extractPlaceholderChunk (chunk1 ++ chunk2) prefixBytes configs isFinal in
  (m_config <$> found second) = (m_config <$> found oneshot) /\
  default [] (before first) ++ default [] (before second)
  = default [] (before oneshot) /\
  after second = after oneshot.

(** "Whenever a match is reported, [before], the bytes of the matched token
    and [after] make up the buffer." *)
Definition reconstructs (bytes prefixBytes : Uint8Array)
    (configs : list PlaceholderConfig) (isFinal : bool) : Prop :=
  let r := extractPlaceholderChunk bytes prefixBytes configs isFinal in
  forall m, found r = Some m ->
    default [] (before r) ++ (prefixBytes ++ placeholderBytes (m_config m))
    ++ default [] (after r) = bytes.

(** What holds of every candidate when the loop is about to compare the
    byte at offset [j] after the prefix; [w] are the bytes that follow the
    prefix in the buffer. *)
Definition cand_inv (w : Uint8Array) (configs : list PlaceholderConfig)
    (j : nat) (cd : Candidate) : Prop :=
  c_bytes cd = placeholderBytes (c_config cd) /\
  c_length cd = length (c_bytes cd) /\
  In (c_config cd) configs /\
  c_finished cd = false /\
  (c_matched cd = true ->
     j < c_length cd /\ take j (c_bytes cd) = take j w).

(** A configured token, prefix included, starts at position [i] of [hay]. *)
Definition tokenAt (prefixBytes : Uint8Array) (configs : list PlaceholderConfig)
    (hay : Uint8Array) (i : nat) : bool :=
  existsb (fun cfg =>
             bool_decide ((prefixBytes ++ placeholderBytes cfg) `prefix_of` drop i hay))
          configs.

(** The positions of [hay] at which a configured token starts. *)
Definition tokenPositions (prefixBytes : Uint8Array)
    (configs : list PlaceholderConfig) (hay : Uint8Array) : list nat :=
  List.filter (tokenAt prefixBytes configs hay) (seq 0 (length hay)).

(** The candidate object that [found] is raised by. *)
Definition winner (tok : Uint8Array) (c : PlaceholderConfig) : Candidate :=
  {| c_config := c; c_bytes := tok; c_length := length tok;
     c_matched := true; c_finished := true |}.

(** The candidates array at the head of the [while] loop: the candidate
    of [c] is still there, and only candidates listed before [c] in the
    configuration stand before it. *)
Definition loop_inv (tok post : Uint8Array) (c : PlaceholderConfig)
    (l1 l2 : list PlaceholderConfig) (j : nat) (cs : list Candidate) : Prop :=
  exists cs1 cdc cs2,
    cs = cs1 ++ cdc :: cs2 /\
    Forall (fun cd => In (c_config cd) l1) cs1 /\
    c_config cdc = c /\ c_matched cdc = true /\
    Forall (cand_inv (tok ++ post) (l1 ++ c :: l2) j) cs.

(** The match the scanner reports for the token [prefixBytes ++ tok] that
    follows [pre]. *)
Definition token_match (pre prefixBytes tok : Uint8Array) (c : PlaceholderConfig)
  : MatchData :=
  {| m_cand := winner tok c;
     m_start := Z.of_nat (length pre);
     m_end := (Z.of_nat (length pre + length prefixBytes + length tok) - 1)%Z |}.

End ScannerSpec.

(** ** States of the stream used to state its properties *)

Module StreamSpec.
Import Scanner Platform Stream.

(** What the promise of [readChunk] resolves to: a chunk, or the end of the
    body. *)
Definition readItem (x : option Uint8Array) : Settled :=
  Resolved {| value := x;
              done := match x with Some _ => false | None => true end;
              merge := false; isBase := true |}.

(** What [fetchOrCachePart] resolves to. *)
Definition fragmentItem (frag : Uint8Array) : Settled :=
  Resolved {| value := Some frag; done := false; merge := false; isBase := false |}.

(** The source between two chunks: the carry-over [l] is at the head of
    the queue, followed by the pending read of the first chunk of [rest];
    the reader holds the chunks after it. *)
Definition srcPending (prefixBytes : Uint8Array) (configs : list PlaceholderConfig)
    (l : Uint8Array) (rest : list Uint8Array) : Source :=
  {| reader := tail rest; prefixBytes := prefixBytes; configs := configs;
     queue := [carryItem l; readItem (head rest)]; s_done := false |}.

(** The source right after a match: the fragment, the bytes after the
    token, and the pending read. *)
Definition srcMatched (prefixBytes : Uint8Array) (configs : list PlaceholderConfig)
    (frag post1 : Uint8Array) (rest : list Uint8Array) : Source :=
  {| reader := tail rest; prefixBytes := prefixBytes; configs := configs;
     queue := [fragmentItem frag; afterItem post1; readItem (head rest)];
     s_done := false |}.

(** [if (x) controller.enqueue(x)] *)
Definition enqueueIf (ctl : Controller) (x : option Uint8Array) : Controller :=
  match x with Some b => enqueue ctl b | None => ctl end.

End StreamSpec.

(** ** Predicates used to state the worker's properties *)

Module WorkerSpec.
Import Platform Stream Worker.

(** The entry stored under a URL in the cache of the active generation. *)
Definition generationLookup (env : Env) (w : World) (entryUrl : string)
  : option Response :=
  openedCache (caches w) (CACHE_ID env) !! entryUrl.

(** The URL a request is compared with: its URL without the site and locale
    segment. *)
Definition shortUrl (request : Request) : string :=
  Js.removeFirst Js.siteLocaleSegment (url request).

(** The first configured trigger, in key order, that the shortened URL
    contains. *)
Definition firstTrigger (env : Env) (request : Request) : option string :=
  List.find (fun u => Js.includes (shortUrl request) u) (map fst (cacheCleanUrls env)).

Definition siteLocaleKey (siteId locale suffix : string) : string :=
  siteId ++ "." ++ locale ++ "." ++ suffix.

(** "After the check for a request that matches a trigger, every entry
    with one of the trigger's suffixes is absent for every site and locale,
    and every entry with another suffix is unchanged." *)
Definition invalidation_is_exact (env : Env) (w : World) (request : Request)
    (suffixes : list string) : Prop :=
  let w' := cleanTriggeredCache env w request in
  (forall siteId locale s, In s suffixes ->
     generationLookup env w' (keyUrl env (siteLocaleKey siteId locale s)) = None) /\
  (forall siteId locale s, ~ In s suffixes ->
     generationLookup env w' (keyUrl env (siteLocaleKey siteId locale s))
     = generationLookup env w (keyUrl env (siteLocaleKey siteId locale s))).

(** "The navigation resolves to a page and surfaces no raw error": the
    answer is a response, and a rewritten body is streamed to its end. *)
Definition no_raw_error (a : Answer) : Prop :=
  match a with
  | Whole _ => True
  | Rewriting rw =>
      exists ctl w, rw_stream rw = Some (ctl, w) /\ state ctl = Closed
  | Undefined | Failed => False
  end.

(** "The request triggers the invalidation check and its response is not
    overridden." *)
Definition invalidates_without_override (fuel : nat) (env : Env) (w : World)
    (request : Request) : Prop :=
  respondedWith (onFetch fuel env w request) = None /\
  worldAfter (onFetch fuel env w request) = cleanTriggeredCache env w request.

(** The request is answered by the keyed-AJAX strategy. *)
Definition keyedAjax (env : Env) (request : Request) : bool :=
  isSameOrigin env (url request) && bool_decide (is_Some (getAjaxCacheConfig env request)).

(** The cache key of a keyed-AJAX request. *)
Definition ajaxKeyUrl (env : Env) (request : Request) (config : CachedUrl) : string :=
  keyUrl env
    (Js.template (headerGet (req_headers request) X_SF_CC_SITEID) ++ "."
     ++ Js.template (headerGet (req_headers request) X_SF_CC_REQUESTLOCALE) ++ "."
     ++ cu_cacheSuffix config).

(** "The kill switch clears every cache, unregisters the worker and reloads
    every open client view." *)
Definition kill_switch_clears_all (env : Env) (h : Host) : Prop :=
  caches (world (onInstall env h)) = [] /\
  registered (onInstall env h) = false /\
  navigated (onInstall env h) = navigated h ++ clients h ++ uncontrolled h.

End WorkerSpec.

(** ** Functions used to state further properties of the worker *)

Module WorkerLists.
Import Platform Stream Worker.

(** The suffix [s] once for every occurrence of [u] among the triggers of
    an entry. *)
Definition pushes (u s : string) (triggers : list string) : list string :=
  flat_map (fun t => if String.eqb t u then [s] else []) triggers.

(** No key of the map holds an empty list. *)
Definition filled (m : InvalidationMap) : Prop := forall u, mapGet m u <> Some [].

End WorkerLists.

(** ** Functions used to state further properties of the stream *)

Module StreamViews.
Import Platform Stream.

(** The world a run of the body of [pull] ends with. *)
Definition resultWorld (r : PullResult) : World :=
  match r with Stop _ _ w | Again _ _ w => w end.

End StreamViews.

(** ** The URLs of the storefront

    [URLUtils.url(action)] renders the pipeline URL of a controller action
    for the current site and locale. *)

Module Storefront.

(** Every character of [s] is in the class [cls]. *)
Fixpoint allChars (cls : ascii -> bool) (s : string) : bool :=
  match s with
  | EmptyString => true
  | String c s' => cls c && allChars cls s'
  end.

(** A site id: one or more characters of [[\w\-_]]. *)
Definition isSiteId (s : string) : bool :=
  (1 <=? String.length s) && allChars Js.wordOrDash s.

(** A locale id: two to seven characters of [\w]. *)
Definition isLocale (s : string) : bool :=
  (2 <=? String.length s) && (String.length s <=? 7) && allChars Js.wordChar s.

Definition storeUrlFor (site locale action : string) : string :=
  "/on/demandware.store/Sites-" ++ site ++ "-Site/" ++ locale ++ "/" ++ action.

(** [buildRelativeUrls] of swConfig.js, for a site and a locale. *)
Definition buildRelativeUrlsFor (site locale : string) (actions : list string)
  : list string :=
  map (fun action => Js.removeFirst Js.siteLocaleSegment (storeUrlFor site locale action))
      actions.

End Storefront.

(** * The registration script of the pages *)

Module Client.

(** [/(\/s\/[^/]+)\/?/], up to the end of its capture group: the optional
    slash that follows the group never fails, so the group is the longest
    run of characters other than [/] after the first [/s/] that such a
    character follows. *)
Definition sandboxGroup : list Js.atom := [Js.Lit "/s/"; Js.Rep Js.notSlash 1 None].

(** [pathname.match(...)]: the text of the capture group, when the
    expression matches. *)
Definition sandboxMatch (pathname : string) : option string :=
  match Js.exec sandboxGroup pathname with
  | Some (pre, rest) =>
      Some (String.substring (String.length pre)
              (String.length pathname - String.length pre - String.length rest)
              pathname)
  | None => None
  end.

(** [resolveServiceWorkerPath] *)
Definition resolveServiceWorkerPath (pathname relativePath : string) : string :=
  match sandboxMatch pathname with
  | Some group => group ++ relativePath
  | None => relativePath
  end.

(** What [registerServiceWorker] does. *)
Inductive Registration :=
  | NotSupported
  | SystemUrl
  | UnregisterAll
  | RegisterScript (scriptUrl : string).

(** [registerServiceWorker]: [supported] stands for
    ['serviceWorker' in navigator], [swenabled] for the [data-swenabled]
    attribute of the root element. *)
Definition registerServiceWorker (supported : bool) (swenabled : option string)
    (pathname : string) : Registration :=
  if negb supported then NotSupported
  else
    let swEnabled := if Js.truthy swenabled then default "" swenabled else "false" in
    let isSystemUrl := (-1 <? Js.indexOf pathname "on/demandware.store")%Z in
    if isSystemUrl then SystemUrl
    else if String.eqb swEnabled "false" then UnregisterAll
    else RegisterScript (resolveServiceWorkerPath pathname "/service-worker.js").

End Client.

(** ** A body with several tokens

    A body is a sequence of segments, each made of the bytes before a token
    and of the configuration entry of that token, followed by the bytes
    after the last token. *)

Module Segments.
Import Scanner ScannerSpec Platform Stream StreamSpec.

Abbreviation Segment := (Uint8Array * PlaceholderConfig)%type.

(** The bytes of the body. *)
Fixpoint bodyOf (prefixBytes : Uint8Array) (segs : list Segment) (post : Uint8Array)
  : Uint8Array :=
  match segs with
  | [] => post
  | (pre, c) :: segs' =>
      pre ++ prefixBytes ++ placeholderBytes c ++ bodyOf prefixBytes segs' post
  end.

(** The body with every token replaced by its fragment. *)
Fixpoint outputOf (segs : list Segment) (frags : list Uint8Array) (post : Uint8Array)
  : Uint8Array :=
  match segs, frags with
  | (pre, _) :: segs', frag :: frags' => pre ++ frag ++ outputOf segs' frags' post
  | _, _ => post
  end.

(** The fragments resolve one after the other, each in the world the one
    before it left. *)
Fixpoint resolves (env : Env) (siteId locale : option string) (cacheId : string)
    (w : World) (segs : list Segment) (frags : list Uint8Array) (w' : World) : Prop :=
  match segs, frags with
  | [], [] => w' = w
  | (_, c) :: segs', frag :: frags' =>
      exists w1,
        fetchOrCachePart env w (part c) siteId locale cacheId = (fragmentItem frag, w1) /\
        resolves env siteId locale cacheId w1 segs' frags' w'
  | _, _ => False
  end.

(** What the scanner needs of the bytes it scans, token after token. The
    bytes [x] are the fragment of the token before, which is scanned with
    what follows it. The token of a segment has at most
    [LAST_BYTES_COUNT + 1] bytes; up to its end, it is the only configured
    token that starts in the bytes scanned; none of the [length prefixBytes]
    bytes before it is the first byte of the prefix. After the last token
    no configured token occurs. *)
Fixpoint staged (prefixBytes : Uint8Array) (configs : list PlaceholderConfig)
    (x : Uint8Array) (segs : list Segment) (frags : list Uint8Array) (post : Uint8Array)
  : Prop :=
  match segs, frags with
  | [], [] => tokenPositions prefixBytes configs (x ++ post) = []
  | (pre, c) :: segs', frag :: frags' =>
      In c configs /\
      length prefixBytes + length (placeholderBytes c) <= LAST_BYTES_COUNT + 1 /\
      List.filter
        (tokenAt prefixBytes configs
           ((x ++ pre) ++ prefixBytes ++ placeholderBytes c
            ++ bodyOf prefixBytes segs' post))
        (seq 0 (length (x ++ pre) + length prefixBytes + length (placeholderBytes c)))
      = [length (x ++ pre)] /\
      Forall (fun b => prefixBytes !! 0 <> Some b)
             (drop (length (x ++ pre) - length prefixBytes) (x ++ pre)) /\
      staged prefixBytes configs frag segs' frags' post
  | _, _ => False
  end.

End Segments.

(** * Properties of the scanner *)

Module ScannerFacts.
Import Scanner ScannerSpec.

(** ** [slice] with bounds inside the array *)

Lemma relIndex_nat len k : k <= len -> relIndex len (Z.of_nat k) = k.
Proof.
  intros Hk. unfold relIndex. destruct (Z.ltb_spec (Z.of_nat k) 0); lia.
Qed.

Lemma slice_0_nat (a : Uint8Array) k :
  k <= length a -> slice a 0 (Z.of_nat k) = take k a.
Proof.
  intros Hk. unfold slice. rewrite relIndex_nat by done.
  change 0%Z with (Z.of_nat 0). rewrite relIndex_nat by lia.
  by rewrite Nat.sub_0_r, drop_0.
Qed.

Lemma sliceFrom_nat (a : Uint8Array) k :
  k <= length a -> sliceFrom a (Z.of_nat k) = drop k a.
Proof. intros Hk. unfold sliceFrom. by rewrite relIndex_nat. Qed.

(** ** The [for] loop as a filter

    Visiting the candidates backwards and splicing out the ones that stopped
    matching keeps, in order, the stepped candidates that still match;
    [allFinished] and [found] accumulate over all of them. *)
Lemma for_candidates_spec bytes i idx cands allFinished fnd :
  for_candidates bytes i idx cands allFinished fnd =
    (List.filter c_matched (map (step_candidate bytes i idx) cands),
     allFinished && forallb c_finished (map (step_candidate bytes i idx) cands),
     fnd || existsb (fun c => c_finished c && c_matched c)
                    (map (step_candidate bytes i idx) cands)).
Proof.
  induction cands as [|c rest IH]; cbn [for_candidates map List.filter forallb existsb].
  - by rewrite andb_true_r, orb_false_r.
  - rewrite IH.
    generalize (step_candidate bytes i idx c) as c'.
    generalize (forallb c_finished (map (step_candidate bytes i idx) rest)) as fa.
    generalize (existsb (fun c => c_finished c && c_matched c)
                        (map (step_candidate bytes i idx) rest)) as ex.
    intros ex fa c'.
    destruct (c_matched c'), (c_finished c'), allFinished, fnd, fa, ex; reflexivity.
Qed.

(** [found] is only raised by a candidate that stays in the array, so the
    read of [candidates[0]] after the loop never hits an empty array. *)
Lemma for_candidates_found_nonempty bytes i idx cands allFinished cands' allFinished' :
  for_candidates bytes i idx cands allFinished false = (cands', allFinished', true) ->
  cands' <> [].
Proof.
  rewrite for_candidates_spec. intros [= <- _ Hex]. simpl in Hex.
  apply existsb_exists in Hex as (c & Hin & Hc).
  apply andb_true_iff in Hc as [_ Hm].
  intros Hnil.
  assert (In c (List.filter c_matched (map (step_candidate bytes i idx) cands))) as Hc
    by (apply filter_In; auto).
  by rewrite Hnil in Hc.
Qed.

(** ** The prefix loop *)

Lemma match_prefix_mismatch fuel bytes prefixBytes pointer :
  bytes !! pointer <> prefixBytes !! 0 ->
  match_prefix fuel bytes prefixBytes pointer 0 = (pointer, 0).
Proof.
  intros Hne. destruct fuel; simpl; [done|].
  by rewrite bool_decide_eq_false_2.
Qed.

Lemma match_prefix_full front rest k (done_ todo : Uint8Array) :
  length todo = k ->
  match_prefix k (front ++ done_ ++ todo ++ rest) (done_ ++ todo)
               (length front + length done_) (length done_)
  = (length front + length done_ + k, length done_ + k).
Proof.
  revert done_ todo. induction k as [|k IH]; intros done_ todo Hlen.
  - simpl. f_equal; lia.
  - destruct todo as [|b todo]; [done|]. simpl in Hlen.
    assert (front ++ done_ ++ (b :: todo) ++ rest
            = front ++ (done_ ++ [b]) ++ todo ++ rest) as E1
      by (by rewrite <- !app_assoc).
    assert (done_ ++ b :: todo = (done_ ++ [b]) ++ todo) as E2
      by (by rewrite <- app_assoc).
    rewrite E1, E2. cbn [match_prefix].
    assert ((front ++ (done_ ++ [b]) ++ todo ++ rest) !! (length front + length done_)
            = Some b) as ->.
    { rewrite lookup_app_r by lia. rewrite lookup_app_l by (rewrite length_app; simpl; lia).
      rewrite lookup_app_r by lia.
      by replace (length front + length done_ - length front - length done_) with 0 by lia. }
    assert (((done_ ++ [b]) ++ todo) !! length done_ = Some b) as ->.
    { rewrite lookup_app_l by (rewrite length_app; simpl; lia).
      rewrite lookup_app_r by lia. by rewrite Nat.sub_diag. }
    rewrite bool_decide_eq_true_2 by done.
    assert ((length done_ <? length ((done_ ++ [b]) ++ todo)) = true) as ->.
    { apply Nat.ltb_lt. rewrite !length_app. simpl. lia. }
    assert ((length front + length done_
             <? length (front ++ (done_ ++ [b]) ++ todo ++ rest)) = true) as ->.
    { apply Nat.ltb_lt. rewrite !length_app. simpl. lia. }
    cbn [andb].
    specialize (IH (done_ ++ [b]) todo ltac:(lia)).
    rewrite length_app in IH. simpl in IH.
    replace (S (length front + length done_)) with (length front + (length done_ + 1)) by lia.
    replace (S (length done_)) with (length done_ + 1) by lia.
    rewrite IH. f_equal; lia.
Qed.

(** ** What a reported match stands for

    The buffer is [front ++ w] and the match loop starts at [length front].
    Every placeholder has at least two bytes after the prefix. *)
Section FindSound.
Variables (front w : Uint8Array) (configs : list PlaceholderConfig).

Local Abbreviation bytes := (front ++ w).
Local Abbreviation cand_inv := (ScannerSpec.cand_inv w configs).

Lemma bytes_after_front j : (front ++ w) !! (length front + j) = w !! j.
Proof. rewrite lookup_app_r by lia. f_equal. lia. Qed.

Lemma gen_step_matched j cd :
  cand_inv j cd ->
  c_matched (step_candidate bytes (length front + j) j cd) = true ->
  S j <= c_length cd /\ take (S j) (c_bytes cd) = take (S j) w.
Proof.
  intros (Hb & Hl & Hin & Hf & Hm). unfold step_candidate. cbn [c_matched].
  destruct (j <? c_length cd) eqn:Hlt.
  - apply Nat.ltb_lt in Hlt. intros [Hm' Heq]%andb_true_iff.
    apply bool_decide_eq_true in Heq. rewrite bytes_after_front in Heq.
    destruct (Hm Hm') as [_ Htake]. split; [lia|].
    destruct (lookup_lt_is_Some_2 (c_bytes cd) j) as [x Hx]; [lia|].
    rewrite Hx in Heq. symmetry in Heq.
    rewrite (take_S_r _ _ _ Hx), (take_S_r _ _ _ Heq). by rewrite Htake.
  - apply Nat.ltb_ge in Hlt. intros Hm'. destruct (Hm Hm'). lia.
Qed.

Lemma gen_step_finished j cd :
  cand_inv j cd ->
  c_finished (step_candidate bytes (length front + j) j cd) = true ->
  c_length cd = S j.
Proof.
  intros (Hb & Hl & Hin & Hf & Hm). unfold step_candidate. cbn [c_finished].
  destruct (Z.eqb_spec (Z.of_nat j) (Z.of_nat (c_length cd) - 1)); [lia|].
  congruence.
Qed.

(** A candidate that completes is a placeholder that follows the prefix. *)
Lemma gen_step_found j cd :
  cand_inv j cd ->
  let cd' := step_candidate bytes (length front + j) j cd in
  c_finished cd' && c_matched cd' = true ->
  In (c_config cd) configs /\ placeholderBytes (c_config cd) `prefix_of` w.
Proof.
  intros Hinv cd' [Hfin Hmat]%andb_true_iff.
  pose proof (gen_step_finished _ _ Hinv Hfin) as Hlen.
  destruct (gen_step_matched _ _ Hinv Hmat) as [_ Htake].
  destruct Hinv as (Hb & Hl & Hin & _). split; [done|].
  rewrite take_ge in Htake by lia. rewrite <- Hb, Htake. apply prefix_take.
Qed.

Lemma gen_step_inv j cd :
  cand_inv j cd ->
  let cd' := step_candidate bytes (length front + j) j cd in
  c_matched cd' = true -> c_finished cd' = false -> cand_inv (S j) cd'.
Proof.
  intros Hinv cd' Hmat Hnf.
  destruct (gen_step_matched _ _ Hinv Hmat) as [Hle Htake].
  assert (c_length cd <> S j) as Hne.
  { intros Heq. revert Hnf. unfold cd', step_candidate. cbn [c_finished].
    destruct (Z.eqb_spec (Z.of_nat j) (Z.of_nat (c_length cd) - 1)); [done|lia]. }
  destruct Hinv as (Hb & Hl & Hin & Hf & Hm).
  assert (c_bytes cd' = c_bytes cd) as Eb by done.
  assert (c_config cd' = c_config cd) as Ec by done.
  assert (c_length cd' = c_length cd) as El by done.
  unfold ScannerSpec.cand_inv. rewrite Eb, Ec, El.
  repeat split; try done. lia.
Qed.

Lemma gen_init_inv :
  suffix_lengths_ok configs ->
  Forall (cand_inv 1) (map (init_candidate bytes (length front)) configs).
Proof.
  intros Hlens.
  assert ((front ++ w) !! length front = w !! 0) as Hat.
  { rewrite <- bytes_after_front. f_equal. lia. }
  apply List.Forall_forall. intros cd (cfg & <- & Hin)%in_map_iff.
  assert (2 <= length (placeholderBytes cfg)) as Hcl.
  { unfold suffix_lengths_ok in Hlens. rewrite List.Forall_forall in Hlens. auto. }
  unfold ScannerSpec.cand_inv.
  cbn [init_candidate c_bytes c_config c_length c_finished c_matched].
  split; [done|]. split; [done|]. split; [done|].
  split; [apply bool_decide_eq_false_2; lia|].
  intros H. split; [lia|].
  apply bool_decide_eq_true in H. rewrite Hat in H.
  destruct (lookup_lt_is_Some_2 (placeholderBytes cfg) 0) as [x Hx]; [lia|].
  rewrite Hx in H. symmetry in H.
  by rewrite (take_S_r _ _ _ Hx), (take_S_r _ _ _ H).
Qed.

Lemma find_loop_sound fuel : forall j cs allFinished i' cs',
  Forall (cand_inv j) cs ->
  find_loop fuel bytes (length front + j) j cs allFinished false = (i', cs', true) ->
  exists cfg, In cfg configs /\ placeholderBytes cfg `prefix_of` w.
Proof.
  induction fuel as [|fuel IH]; intros j cs aF i' cs' Hall; cbn [find_loop]; [done|].
  destruct (_ && _ && _ && _); [|done].
  rewrite for_candidates_spec. cbn [orb].
  destruct (existsb _ _) eqn:Hex.
  - intros _. apply existsb_exists in Hex as (x & Hin & Hx).
    apply in_map_iff in Hin as (cd & <- & Hcd).
    rewrite List.Forall_forall in Hall.
    exists (c_config cd). by apply (gen_step_found j cd); auto.
  - replace (S (length front + j)) with (length front + S j) by lia.
    apply IH. apply List.Forall_forall.
    intros x [(cd & <- & Hcd)%in_map_iff Hmx]%filter_In.
    rewrite List.Forall_forall in Hall.
    apply gen_step_inv; [auto|done|].
    apply not_true_is_false. intros Hfin.
    assert (existsb (fun c => c_finished c && c_matched c)
              (map (step_candidate (front ++ w) (length front + j) j) cs) = true) as Hex';
      [|congruence].
    apply existsb_exists. eexists. split; [apply in_map_iff; eauto|].
    by rewrite Hfin, Hmx.
Qed.

Lemma findMatchingPlaceholder_sound prefixBytes m :
  suffix_lengths_ok configs ->
  findMatchingPlaceholder bytes (length front) prefixBytes configs = Some m ->
  exists cfg, In cfg configs /\ placeholderBytes cfg `prefix_of` w.
Proof.
  intros Hlens. unfold findMatchingPlaceholder.
  destruct (find_loop _ _ _ _ _ _ _) as [[i cs'] fnd] eqn:Hrun.
  destruct fnd; [|done]. intros _.
  replace (S (length front)) with (length front + 1) in Hrun by lia.
  eapply find_loop_sound; [|exact Hrun]. by apply gen_init_inv.
Qed.

End FindSound.

Section FindComplete.
Variables (front tok post : Uint8Array).
Variables (c : PlaceholderConfig) (l1 l2 : list PlaceholderConfig).
Hypothesis Htok : placeholderBytes c = tok.
Hypothesis Hfirst : forall a, In a l1 -> placeholderBytes a <> tok.
Hypothesis Hlens : suffix_lengths_ok (l1 ++ c :: l2).
Hypothesis Hpf : prefix_free_in (l1 ++ c :: l2).

Local Abbreviation bytes := (front ++ tok ++ post).
Local Abbreviation configs := (l1 ++ c :: l2).
Local Abbreviation cand_inv := (ScannerSpec.cand_inv (tok ++ post) (l1 ++ c :: l2)).
Local Abbreviation loop_inv := (ScannerSpec.loop_inv tok post c l1 l2).
Local Abbreviation winner := (ScannerSpec.winner tok c).

Lemma tok_len : 2 <= length tok.
Proof.
  unfold suffix_lengths_ok in Hlens. rewrite Forall_forall in Hlens.
  rewrite <- Htok. apply Hlens. apply list_elem_of_In, in_elt.
Qed.

Lemma bytes_at j : (front ++ tok ++ post) !! (length front + j) = (tok ++ post) !! j.
Proof. rewrite lookup_app_r by lia. f_equal. lia. Qed.

Lemma step_matched j cd :
  cand_inv j cd ->
  c_matched (step_candidate bytes (length front + j) j cd) = true ->
  S j <= c_length cd /\ take (S j) (c_bytes cd) = take (S j) (tok ++ post).
Proof.
  intros (Hb & Hl & Hin & Hf & Hm). unfold step_candidate. cbn [c_matched].
  destruct (j <? c_length cd) eqn:Hlt.
  - apply Nat.ltb_lt in Hlt. intros [Hm' Heq]%andb_true_iff.
    apply bool_decide_eq_true in Heq. rewrite bytes_at in Heq.
    destruct (Hm Hm') as [_ Htake]. split; [lia|].
    destruct (lookup_lt_is_Some_2 (c_bytes cd) j) as [x Hx]; [lia|].
    rewrite Hx in Heq. symmetry in Heq.
    rewrite (take_S_r _ _ _ Hx), (take_S_r _ _ _ Heq). by rewrite Htake.
  - apply Nat.ltb_ge in Hlt. intros Hm'. destruct (Hm Hm'). lia.
Qed.

Lemma step_finished j cd :
  cand_inv j cd ->
  c_finished (step_candidate bytes (length front + j) j cd) = true ->
  c_length cd = S j.
Proof.
  intros (Hb & Hl & Hin & Hf & Hm). unfold step_candidate. cbn [c_finished].
  destruct (Z.eqb_spec (Z.of_nat j) (Z.of_nat (c_length cd) - 1)); [lia|].
  congruence.
Qed.

(** Before the last byte of the token no candidate completes. *)
Lemma step_not_found j cd :
  S j < length tok ->
  cand_inv j cd ->
  let cd' := step_candidate bytes (length front + j) j cd in
  c_finished cd' && c_matched cd' = false.
Proof.
  intros Hj Hinv cd'. apply not_true_is_false. intros [Hfin Hmat]%andb_true_iff.
  pose proof (step_finished _ _ Hinv Hfin) as Hlen.
  destruct (step_matched _ _ Hinv Hmat) as [_ Htake].
  destruct Hinv as (Hb & Hl & Hin & _).
  rewrite take_ge in Htake by lia.
  rewrite take_app_le in Htake by lia.
  assert (placeholderBytes (c_config cd) `prefix_of` placeholderBytes c) as Hpre.
  { rewrite Htok, <- Hb, Htake. apply prefix_take. }
  apply Hpf in Hpre; [|done|apply in_elt].
  rewrite <- Hb, Htok in Hpre. rewrite Hpre in Hl. lia.
Qed.

Lemma step_inv j cd :
  S j < length tok ->
  cand_inv j cd ->
  let cd' := step_candidate bytes (length front + j) j cd in
  c_matched cd' = true -> cand_inv (S j) cd'.
Proof.
  intros Hj Hinv cd' Hmat.
  pose proof (step_not_found _ _ Hj Hinv) as Hnf. cbn zeta in Hnf. fold cd' in Hnf.
  rewrite Hmat, andb_true_r in Hnf.
  destruct (step_matched _ _ Hinv Hmat) as [Hle Htake].
  assert (c_length cd <> S j) as Hne.
  { intros Heq. revert Hnf. unfold cd', step_candidate. cbn [c_finished].
    destruct (Z.eqb_spec (Z.of_nat j) (Z.of_nat (c_length cd) - 1)); [done|lia]. }
  destruct Hinv as (Hb & Hl & Hin & Hf & Hm).
  assert (c_bytes cd' = c_bytes cd) as Eb by done.
  assert (c_config cd' = c_config cd) as Ec by done.
  assert (c_length cd' = c_length cd) as El by done.
  unfold cand_inv. rewrite Eb, Ec, El.
  repeat split; try done. lia.
Qed.

(** A candidate listed before [c] cannot survive the last byte. *)
Lemma step_earlier_dropped j cd :
  S j = length tok ->
  cand_inv j cd ->
  In (c_config cd) l1 ->
  c_matched (step_candidate bytes (length front + j) j cd) = false.
Proof.
  intros Hj Hinv Hin1. apply not_true_is_false. intros Hmat.
  destruct (step_matched _ _ Hinv Hmat) as [Hle Htake].
  destruct Hinv as (Hb & Hl & Hin & _).
  rewrite Hj in Htake. rewrite take_app_le in Htake by lia.
  rewrite (take_ge tok) in Htake by lia.
  assert (placeholderBytes c `prefix_of` placeholderBytes (c_config cd)) as Hpre.
  { rewrite Htok, <- Hb, <- Htake. apply prefix_take. }
  apply Hpf in Hpre; [|apply in_elt|done].
  apply (Hfirst _ Hin1). by rewrite <- Hpre.
Qed.

(** The candidate of [c] keeps matching, and finishes on the last byte. *)
Lemma step_target j cd :
  j < length tok ->
  cand_inv j cd ->
  c_config cd = c -> c_matched cd = true ->
  step_candidate bytes (length front + j) j cd
  = {| c_config := c; c_bytes := tok; c_length := length tok;
       c_matched := true; c_finished := bool_decide (S j = length tok) |}.
Proof.
  intros Hj (Hb & Hl & Hin & Hf & Hm) Hc Hmat.
  rewrite Hc, Htok in Hb. rewrite Hb in Hl.
  unfold step_candidate. rewrite Hc, Hb, Hl, Hmat, Hf. f_equal.
  - rewrite (proj2 (Nat.ltb_lt _ _) Hj), bytes_at.
    rewrite lookup_app_l by lia. by rewrite bool_decide_eq_true_2.
  - destruct (Z.eqb_spec (Z.of_nat j) (Z.of_nat (length tok) - 1)).
    + by rewrite bool_decide_eq_true_2 by lia.
    + by rewrite bool_decide_eq_false_2 by lia.
Qed.

Lemma loop_inv_init :
  loop_inv 1 (map (init_candidate bytes (length front)) configs).
Proof.
  pose proof tok_len as Htl.
  assert ((front ++ tok ++ post) !! length front = (tok ++ post) !! 0) as Hat.
  { rewrite <- bytes_at. f_equal. lia. }
  exists (map (init_candidate bytes (length front)) l1),
         (init_candidate bytes (length front) c),
         (map (init_candidate bytes (length front)) l2).
  split; [by rewrite map_app|].
  split; [apply List.Forall_forall; intros cd (cfg & <- & Hin)%in_map_iff; done|].
  split; [done|]. split.
  - cbn [init_candidate c_matched]. apply bool_decide_eq_true_2.
    rewrite Htok, Hat. by rewrite lookup_app_l by lia.
  - apply List.Forall_forall. intros cd (cfg & <- & Hin)%in_map_iff.
    assert (2 <= length (placeholderBytes cfg)) as Hcl.
    { unfold suffix_lengths_ok in Hlens. rewrite List.Forall_forall in Hlens. auto. }
    unfold cand_inv. cbn [init_candidate c_bytes c_config c_length c_finished c_matched].
    split; [done|]. split; [done|]. split; [done|].
    split; [apply bool_decide_eq_false_2; lia|].
    intros H. split; [lia|].
    apply bool_decide_eq_true in H. rewrite Hat in H.
    destruct (lookup_lt_is_Some_2 (placeholderBytes cfg) 0) as [x Hx]; [lia|].
    rewrite Hx in H. symmetry in H.
    by rewrite (take_S_r _ _ _ Hx), (take_S_r _ _ _ H).
Qed.

Lemma loop_step j cs :
  S j < length tok ->
  loop_inv j cs ->
  exists cs',
    for_candidates bytes (length front + j) j cs true false = (cs', false, false)
    /\ loop_inv (S j) cs'.
Proof.
  intros Hj (cs1 & cdc & cs2 & -> & H1 & Hc & Hm & Hall).
  rewrite for_candidates_spec. eexists. split.
  - f_equal; [f_equal|].
    + cbn [andb]. rewrite map_app, forallb_app. cbn [map forallb].
      assert (In cdc (cs1 ++ cdc :: cs2)) as Hin by apply in_elt.
      rewrite List.Forall_forall in Hall.
      rewrite (step_target j cdc) by (auto; lia).
      cbn [c_finished]. rewrite bool_decide_eq_false_2 by lia.
      cbn [andb]. apply andb_false_r.
    + cbn [orb]. apply not_true_is_false. intros Hex.
      apply existsb_exists in Hex as (x & Hin & Hx).
      apply in_map_iff in Hin as (cd & <- & Hcd).
      rewrite List.Forall_forall in Hall.
      by rewrite (step_not_found j cd Hj (Hall _ Hcd)) in Hx.
  - rewrite map_app, List.filter_app. cbn [map List.filter].
    assert (cand_inv j cdc) as Hcdc.
    { rewrite List.Forall_forall in Hall. apply Hall, in_elt. }
    rewrite (step_target j cdc) by (auto; lia). cbn [c_matched].
    eexists _, _, _. split; [reflexivity|].
    split; [|split; [done|split; [done|]]].
    + apply List.Forall_forall. intros x [(cd & <- & Hcd)%in_map_iff _]%filter_In.
      exact (proj1 (List.Forall_forall _ _) H1 cd Hcd).
    + rewrite <- (step_target j cdc) by (auto; lia).
      assert (forall l, Forall (cand_inv j) l ->
                Forall (cand_inv (S j))
                  (List.filter c_matched
                     (map (step_candidate bytes (length front + j) j) l))) as Hgen.
      { intros l Hl. apply List.Forall_forall.
        intros x [(cd & <- & Hcd)%in_map_iff Hmx]%filter_In.
        rewrite List.Forall_forall in Hl. by apply step_inv; auto. }
      apply Forall_app in Hall as [Ha Hb]. apply Forall_cons in Hb as [Hb1 Hb2].
      apply Forall_app. split; [by apply Hgen|].
      constructor; [|by apply Hgen].
      apply step_inv; auto. rewrite step_target by (auto; lia). done.
Qed.

Lemma loop_last j cs :
  S j = length tok ->
  loop_inv j cs ->
  exists cs2' allFinished,
    for_candidates bytes (length front + j) j cs true false
    = (winner :: cs2', allFinished, true).
Proof.
  intros Hj (cs1 & cdc & cs2 & -> & H1 & Hc & Hm & Hall).
  rewrite for_candidates_spec. rewrite map_app, List.filter_app. cbn [map List.filter].
  assert (cand_inv j cdc) as Hcdc.
  { rewrite List.Forall_forall in Hall. apply Hall, in_elt. }
  rewrite (step_target j cdc) by (auto; lia). cbn [c_matched].
  rewrite bool_decide_eq_true_2 by done. fold winner.
  assert (List.filter c_matched
            (map (step_candidate bytes (length front + j) j) cs1) = []) as ->.
  { apply Forall_app in Hall as [Ha _].
    clear Hcdc. induction cs1 as [|cd cs1 IH]; [done|].
    apply Forall_cons in Ha as [Ha1 Ha2]. apply Forall_cons in H1 as [H11 H12].
    cbn [map List.filter].
    rewrite step_earlier_dropped by done. auto. }
  eexists _, _. f_equal. cbn [orb app].
  apply existsb_exists. exists winner. split; [|done].
  apply in_elt.
Qed.

Lemma loop_inv_nonempty j cs : loop_inv j cs -> nonempty cs = true.
Proof. intros (cs1 & cdc & cs2 & -> & _). by destruct cs1. Qed.

Lemma find_loop_run n : forall j cs fuel,
  S j + n = length tok ->
  loop_inv j cs ->
  n < fuel ->
  exists cs2',
    find_loop fuel bytes (length front + j) j cs false false
    = (length front + length tok, winner :: cs2', true).
Proof.
  induction n as [|n IH]; intros j cs fuel Hj Hinv Hfuel;
    (destruct fuel as [|fuel]; [lia|]); cbn [find_loop];
    rewrite (loop_inv_nonempty _ _ Hinv);
    (assert ((length front + j <? length (front ++ tok ++ post)) = true) as ->
       by (apply Nat.ltb_lt; rewrite !length_app; lia)); cbn [andb negb].
  - destruct (loop_last j cs) as (cs2' & aF & ->); [lia|done|].
    exists cs2'.
    replace (S (length front + j)) with (length front + length tok) by lia.
    destruct fuel; cbn [find_loop]; [done|].
    by rewrite !andb_false_r.
  - destruct (loop_step j cs) as (cs' & -> & Hinv'); [lia|done|].
    replace (S (length front + j)) with (length front + S j) by lia.
    apply IH; [lia|done|lia].
Qed.

(** [findMatchingPlaceholder] called right after the prefix, with the
    whole token in the buffer, reports [c] with the span of the token. *)
Lemma findMatchingPlaceholder_complete prefixBytes :
  exists cs2',
    findMatchingPlaceholder bytes (length front) prefixBytes configs
    = Some {| m_cand := winner;
              m_end := (Z.of_nat (length front + length tok) - 1)%Z;
              m_start := (Z.of_nat (length front + length tok) - 1
                          - Z.of_nat (length tok)
                          - Z.of_nat (length prefixBytes) + 1)%Z |}
    /\ find_loop (length bytes) bytes (S (length front)) 1
         (map (init_candidate bytes (length front)) configs) false false
       = (length front + length tok, winner :: cs2', true).
Proof.
  pose proof tok_len as Htl.
  destruct (find_loop_run (length tok - 2) 1
              (map (init_candidate bytes (length front)) configs)
              (length bytes)) as (cs2' & Hrun).
  - lia.
  - apply loop_inv_init.
  - rewrite !length_app. lia.
  - replace (length front + 1) with (S (length front)) in Hrun by lia.
    exists cs2'. split; [|done].
    unfold findMatchingPlaceholder. rewrite Hrun. done.
Qed.

End FindComplete.

Lemma extract_found_scan bytes prefixBytes configs isFinal :
  found (extractPlaceholderChunk bytes prefixBytes configs isFinal)
  = scan_loop (length bytes) bytes prefixBytes configs 0.
Proof.
  unfold extractPlaceholderChunk.
  destruct (scan_loop _ _ _ _ _); [done|].
  by destruct (negb isFinal), (LAST_BYTES_COUNT <? length bytes).
Qed.

(** ** The prefix loop in general *)

Lemma match_prefix_acc k : forall (bytes prefixBytes : Uint8Array) q i,
  exists d,
    match_prefix k bytes prefixBytes q i = (q + d, i + d) /\ d <= k /\
    forall e, e < d ->
      bytes !! (q + e) = prefixBytes !! (i + e) /\
      i + e < length prefixBytes /\ q + e < length bytes.
Proof.
  induction k as [|k IH]; intros bytes prefixBytes q i; cbn [match_prefix].
  - exists 0. split; [f_equal; lia|]. split; [lia|]. intros e He. lia.
  - destruct (bool_decide _ && _ && _) eqn:Hc.
    + apply andb_true_iff in Hc as [[H1 H2]%andb_true_iff H3].
      apply bool_decide_eq_true in H1. apply Nat.ltb_lt in H2. apply Nat.ltb_lt in H3.
      destruct (IH bytes prefixBytes (S q) (S i)) as (d & -> & Hd & He).
      exists (S d). split; [f_equal; lia|]. split; [lia|].
      intros [|e] Hlt.
      * rewrite !Nat.add_0_r. done.
      * replace (q + S e) with (S q + e) by lia.
        replace (i + S e) with (S i + e) by lia. apply He. lia.
    + exists 0. split; [f_equal; lia|]. split; [lia|]. intros e He. lia.
Qed.

Lemma prefix_of_lookups (bytes needle : Uint8Array) p :
  (forall e, e < length needle -> bytes !! (p + e) = needle !! e) ->
  needle `prefix_of` drop p bytes.
Proof.
  intros H. exists (drop (length needle) (drop p bytes)).
  rewrite <- (take_drop (length needle) (drop p bytes)) at 1. f_equal.
  apply list_eq. intros e.
  destruct (decide (e < length needle)) as [He|He].
  - rewrite lookup_take_lt by done. rewrite lookup_drop. by apply H.
  - rewrite lookup_take_ge by lia. symmetry. apply lookup_ge_None. lia.
Qed.

(** The prefix loop stops after [m] bytes of the prefix; when it advanced
    at all, the byte it started on is the first byte of the prefix, and
    when [m] is the length of the prefix, the prefix stands at [p]. *)
Lemma match_prefix_spec (bytes prefixBytes : Uint8Array) p :
  p <= length bytes ->
  exists m,
    match_prefix (length prefixBytes) bytes prefixBytes p 0 = (p + m, m) /\
    m <= length prefixBytes /\ p + m <= length bytes /\
    (1 <= m -> bytes !! p = prefixBytes !! 0) /\
    (m = length prefixBytes -> prefixBytes `prefix_of` drop p bytes).
Proof.
  intros Hp.
  destruct (match_prefix_acc (length prefixBytes) bytes prefixBytes p 0)
    as (d & Heq & Hd & He).
  exists d. split; [done|]. split; [done|]. split; [|split].
  - destruct d as [|d]; [lia|]. destruct (He d) as (_ & _ & ?); lia.
  - intros Hd1. destruct (He 0) as (H0 & _); [lia|].
    by rewrite !Nat.add_0_r in H0.
  - intros ->. apply prefix_of_lookups. intros e Hlt. by destruct (He e Hlt).
Qed.

(** ** Token positions *)

Lemma tokenAt_true prefixBytes configs hay i :
  tokenAt prefixBytes configs hay i = true <->
  exists cfg, In cfg configs /\
    (prefixBytes ++ placeholderBytes cfg) `prefix_of` drop i hay.
Proof.
  unfold tokenAt. rewrite existsb_exists.
  split; intros (cfg & Hin & H); exists cfg; split; try done.
  - by apply bool_decide_eq_true in H.
  - by apply bool_decide_eq_true.
Qed.

Lemma prefix_of_length (a b : Uint8Array) : a `prefix_of` b -> length a <= length b.
Proof. intros [k ->]. rewrite length_app. lia. Qed.

Lemma tokenPositions_spec prefixBytes configs hay i :
  suffix_lengths_ok configs ->
  In i (tokenPositions prefixBytes configs hay) <->
  tokenAt prefixBytes configs hay i = true.
Proof.
  intros Hlens. unfold tokenPositions. rewrite filter_In, in_seq.
  split; [tauto|]. intros H. split; [|done].
  apply tokenAt_true in H as (cfg & Hin & Hpre).
  unfold suffix_lengths_ok in Hlens. rewrite List.Forall_forall in Hlens.
  specialize (Hlens _ Hin). apply prefix_of_length in Hpre.
  rewrite length_app, length_drop in Hpre. lia.
Qed.

(** A token in a part of a buffer is a token of the buffer. *)
Lemma tokenAt_inside prefixBytes configs (a b c : Uint8Array) i :
  tokenAt prefixBytes configs b i = true ->
  tokenAt prefixBytes configs (a ++ b ++ c) (length a + i) = true.
Proof.
  rewrite !tokenAt_true. intros (cfg & Hin & [k Hk]). exists cfg. split; [done|].
  rewrite drop_app_add'  by done.
  destruct (decide (i <= length b)) as [Hi|Hi].
  - rewrite drop_app_le by done. rewrite Hk.
    exists (k ++ c). by rewrite <- !app_assoc.
  - rewrite drop_ge in Hk by lia.
    destruct prefixBytes, (placeholderBytes cfg); try done.
    exists (drop i (b ++ c)). done.
Qed.

Lemma tokenPositions_inside prefixBytes configs (a b c : Uint8Array) :
  suffix_lengths_ok configs ->
  tokenPositions prefixBytes configs (a ++ b ++ c) = [] ->
  tokenPositions prefixBytes configs b = [].
Proof.
  intros Hlens Hnone.
  destruct (tokenPositions prefixBytes configs b) as [|i l] eqn:Hb; [done|exfalso].
  assert (In i (tokenPositions prefixBytes configs b)) as Hi by (rewrite Hb; by left).
  apply tokenPositions_spec in Hi; [|done].
  apply (tokenAt_inside _ _ a b c) in Hi.
  apply tokenPositions_spec in Hi; [|done]. by rewrite Hnone in Hi.
Qed.

(** ** A reported match is a token of the buffer *)

Lemma find_at_prefix_sound prefixBytes configs (bytes : Uint8Array) p m :
  suffix_lengths_ok configs ->
  prefixBytes `prefix_of` drop p bytes ->
  p + length prefixBytes <= length bytes ->
  findMatchingPlaceholder bytes (p + length prefixBytes) prefixBytes configs = Some m ->
  tokenAt prefixBytes configs bytes p = true.
Proof.
  intros Hlens [t' Ht'] Hlen Hfind. apply tokenAt_true.
  rewrite <- (take_drop (p + length prefixBytes) bytes) in Hfind.
  replace (p + length prefixBytes)
    with (length (take (p + length prefixBytes) bytes)) in Hfind at 3
    by (rewrite length_take; lia).
  apply findMatchingPlaceholder_sound in Hfind as (cfg & Hin & [t Ht]); [|done].
  exists cfg. split; [done|]. exists t.
  assert (drop (length prefixBytes) (drop p bytes) = drop (p + length prefixBytes) bytes)
    as Hdd by (rewrite drop_drop; done).
  rewrite Ht' in Hdd. rewrite drop_app_length in Hdd.
  rewrite Ht', Hdd, Ht. by rewrite <- app_assoc.
Qed.

Lemma scan_loop_sound prefixBytes configs bytes fuel : forall p m,
  suffix_lengths_ok configs ->
  scan_loop fuel bytes prefixBytes configs p = Some m ->
  exists i, tokenAt prefixBytes configs bytes i = true.
Proof.
  induction fuel as [|fuel IH]; intros p m Hlens; cbn [scan_loop]; [done|].
  destruct (Nat.ltb_spec p (length bytes)) as [Hp|Hp]; [|done].
  destruct (match_prefix_spec bytes prefixBytes p) as (k & -> & Hk & Hlen & _ & Hfull);
    [lia|].
  destruct ((k =? length prefixBytes) && (p + k <? length bytes)) eqn:Hc.
  - apply andb_true_iff in Hc as [->%Nat.eqb_eq Hlt%Nat.ltb_lt].
    destruct (findMatchingPlaceholder bytes _ prefixBytes configs) as [m'|] eqn:Hfind.
    + intros _. exists p. eapply find_at_prefix_sound; eauto.
    + by apply IH.
  - by apply IH.
Qed.

(** A buffer without tokens yields no match. *)
Lemma extract_token_free bytes prefixBytes configs isFinal :
  suffix_lengths_ok configs ->
  tokenPositions prefixBytes configs bytes = [] ->
  found (extractPlaceholderChunk bytes prefixBytes configs isFinal) = None.
Proof.
  intros Hlens Hnone. rewrite extract_found_scan.
  destruct (scan_loop _ _ _ _ _) as [m|] eqn:Hscan; [exfalso|done].
  apply scan_loop_sound in Hscan as [i Hi]; [|done].
  apply tokenPositions_spec in Hi; [|done]. by rewrite Hnone in Hi.
Qed.

(** ** Scanning a buffer that holds one whole token

    The buffer is [pre ++ prefixBytes ++ tok ++ post]. No configured token
    starts inside [pre], and none of the last [length prefixBytes] bytes of
    [pre] is the first byte of the prefix: whatever partial prefixes the
    outer loop runs over in [pre], it arrives at the token with
    [prefixIdx = 0]. *)
Section ScanComplete.
Variables (pre prefixBytes tok post : Uint8Array).
Variables (c : PlaceholderConfig) (l1 l2 : list PlaceholderConfig).
Hypothesis Htok : placeholderBytes c = tok.
Hypothesis Hfirst : forall a, In a l1 -> placeholderBytes a <> tok.
Hypothesis Hlens : suffix_lengths_ok (l1 ++ c :: l2).
Hypothesis Hpf : prefix_free_in (l1 ++ c :: l2).
Hypothesis Hprefix : prefixBytes <> [].
Hypothesis Hlast :
  forall b, In b (drop (length pre - length prefixBytes) pre) ->
            prefixBytes !! 0 <> Some b.
Hypothesis Hnone :
  forall i, i < length pre ->
            tokenAt prefixBytes (l1 ++ c :: l2) (pre ++ prefixBytes ++ tok ++ post) i = false.

Local Abbreviation bytes := (pre ++ prefixBytes ++ tok ++ post).
Local Abbreviation configs := (l1 ++ c :: l2).
Local Abbreviation token_match := (ScannerSpec.token_match pre prefixBytes tok c).

(** The outer loop with its pointer on the token. *)
Lemma scan_loop_at_token fuel :
  scan_loop (S fuel) bytes prefixBytes configs (length pre) = Some token_match.
Proof.
  pose proof (tok_len tok c l1 l2 Htok Hlens) as Htl.
  cbn [scan_loop].
  assert ((length pre <? length (pre ++ prefixBytes ++ tok ++ post)) = true) as ->
    by (apply Nat.ltb_lt; rewrite !length_app; lia).
  pose proof (match_prefix_full pre (tok ++ post) (length prefixBytes) []
                prefixBytes eq_refl) as Hmp.
  cbn [app length] in Hmp. rewrite !Nat.add_0_r in Hmp. rewrite Hmp.
  rewrite Nat.eqb_refl.
  assert ((length pre + length prefixBytes
           <? length (pre ++ prefixBytes ++ tok ++ post)) = true) as ->
    by (apply Nat.ltb_lt; rewrite !length_app; lia).
  cbn [andb].
  destruct (findMatchingPlaceholder_complete (pre ++ prefixBytes) tok post
              c l1 l2 Htok Hfirst Hlens Hpf prefixBytes) as (cs2' & Hfind & _).
  rewrite <- !app_assoc, length_app in Hfind. rewrite Hfind.
  f_equal. unfold ScannerSpec.token_match. f_equal; lia.
Qed.

(** A pointer inside [pre] moves on to a position that is still inside
    [pre] or on the token, without a match. *)
Lemma scan_walk n : forall p fuel,
  p <= length pre ->
  length pre - p <= n ->
  n < fuel ->
  scan_loop fuel bytes prefixBytes configs p = Some token_match.
Proof.
  pose proof (tok_len tok c l1 l2 Htok Hlens) as Htl.
  induction n as [|n IH]; intros p fuel Hp Hn Hfuel;
    (destruct fuel as [|fuel]; [lia|]).
  - assert (p = length pre) as -> by lia. apply scan_loop_at_token.
  - destruct (decide (p = length pre)) as [->|Hne]; [apply scan_loop_at_token|].
    assert (p < length pre) as Hlt by lia.
    cbn [scan_loop].
    assert ((p <? length (pre ++ prefixBytes ++ tok ++ post)) = true) as ->
      by (apply Nat.ltb_lt; rewrite !length_app; lia).
    destruct (match_prefix_spec (pre ++ prefixBytes ++ tok ++ post) prefixBytes p)
      as (m & -> & Hm & Hlen & Hhead & Hfull); [rewrite !length_app; lia|].
    assert (S (p + m) <= length pre) as Hnext.
    { destruct m as [|m]; [lia|].
      destruct (Nat.lt_ge_cases p (length pre - length prefixBytes)) as [?|Hge]; [lia|].
      exfalso. destruct (lookup_lt_is_Some_2 pre p Hlt) as [b Hb].
      apply (Hlast b).
      - apply list_elem_of_In, list_elem_of_lookup.
        exists (p - (length pre - length prefixBytes)).
        rewrite lookup_drop. rewrite <- Hb. f_equal. lia.
      - rewrite <- (Hhead ltac:(lia)). by rewrite lookup_app_l, Hb. }
    assert ((if (m =? length prefixBytes)
                && (p + m <? length (pre ++ prefixBytes ++ tok ++ post))
             then findMatchingPlaceholder (pre ++ prefixBytes ++ tok ++ post) (p + m)
                    prefixBytes (l1 ++ c :: l2)
             else None) = None) as ->.
    { destruct ((m =? length prefixBytes) && _) eqn:Hc; [|done].
      apply andb_true_iff in Hc as [->%Nat.eqb_eq Hlt'%Nat.ltb_lt].
      destruct (findMatchingPlaceholder _ _ _ _) as [m'|] eqn:Hfind; [exfalso|done].
      apply find_at_prefix_sound in Hfind; [|done|by apply Hfull|lia].
      by rewrite Hnone in Hfind. }
    apply IH; lia.
Qed.

(** The scanner splits the buffer exactly around the token. *)
Lemma extract_token isFinal :
  extractPlaceholderChunk bytes prefixBytes configs isFinal
  = {| found := Some token_match; before := Some pre;
       after := Some post; leftover := None |}.
Proof.
  pose proof (tok_len tok c l1 l2 Htok Hlens) as Htl.
  unfold extractPlaceholderChunk.
  rewrite (scan_walk (length pre) 0) by (rewrite ?length_app; lia).
  cbn [m_start m_end ScannerSpec.token_match].
  replace (Z.of_nat (length pre + length prefixBytes + length tok) - 1 + 1)%Z
    with (Z.of_nat (length pre + (length prefixBytes + length tok))) by lia.
  rewrite slice_0_nat, sliceFrom_nat by (rewrite !length_app; lia).
  rewrite take_app_length.
  rewrite drop_app_add', drop_app_add', drop_app_length; done.
Qed.

End ScanComplete.

(** The same when no byte of [pre] is the first byte of the prefix. *)
Lemma extract_complete (pre prefixBytes tok post : Uint8Array)
    (c : PlaceholderConfig) (l1 l2 : list PlaceholderConfig) :
  placeholderBytes c = tok ->
  (forall a, In a l1 -> placeholderBytes a <> tok) ->
  suffix_lengths_ok (l1 ++ c :: l2) ->
  prefix_free_in (l1 ++ c :: l2) ->
  prefixBytes <> [] ->
  (forall b, In b pre -> prefixBytes !! 0 <> Some b) ->
  forall isFinal,
    extractPlaceholderChunk (pre ++ prefixBytes ++ tok ++ post) prefixBytes
      (l1 ++ c :: l2) isFinal
    = {| found := Some (token_match pre prefixBytes tok c); before := Some pre;
         after := Some post; leftover := None |}.
Proof.
  intros Htok Hfirst Hlens Hpf Hprefix Hpre isFinal.
  apply extract_token; try done.
  - intros b Hb%list_elem_of_In. apply Hpre, list_elem_of_In.
    by eapply subseteq_drop.
  - intros i Hi. apply not_true_is_false. intros (cfg & Hin & [k Hk])%tokenAt_true.
    destruct (lookup_lt_is_Some_2 pre i Hi) as [b Hb].
    apply (Hpre b); [apply list_elem_of_In; by eapply list_elem_of_lookup_2|].
    destruct prefixBytes as [|p0 ptl]; [done|].
    assert (drop i (pre ++ (p0 :: ptl) ++ tok ++ post) !! 0 = Some b) as H0.
    { rewrite lookup_drop, Nat.add_0_r. by rewrite lookup_app_l. }
    rewrite Hk in H0. cbn in H0. by injection H0 as ->.
Qed.

(** ** The carry-over of a scan that found nothing *)

Lemma extract_not_found bytes prefixBytes configs :
  found (extractPlaceholderChunk bytes prefixBytes configs false) = None ->
  extractPlaceholderChunk bytes prefixBytes configs false
  = {| found := None;
       before := if LAST_BYTES_COUNT <? length bytes
                 then Some (take (length bytes - LAST_BYTES_COUNT) bytes) else None;
       after := None;
       leftover := Some (drop (length bytes - LAST_BYTES_COUNT) bytes) |}.
Proof.
  rewrite extract_found_scan. unfold extractPlaceholderChunk. intros ->.
  cbn [negb]. destruct (Nat.ltb_spec LAST_BYTES_COUNT (length bytes)) as [Hlt|Hge].
  - replace (Z.of_nat (length bytes) - Z.of_nat LAST_BYTES_COUNT)%Z
      with (Z.of_nat (length bytes - LAST_BYTES_COUNT)) by lia.
    by rewrite slice_0_nat, sliceFrom_nat by lia.
  - by replace (length bytes - LAST_BYTES_COUNT) with 0 by lia.
Qed.

Lemma extract_not_found_final bytes prefixBytes configs :
  found (extractPlaceholderChunk bytes prefixBytes configs true) = None ->
  extractPlaceholderChunk bytes prefixBytes configs true
  = {| found := None; before := Some bytes; after := None; leftover := None |}.
Proof.
  rewrite extract_found_scan. unfold extractPlaceholderChunk. by intros ->.
Qed.

(** ** A token split over two chunks *)

Lemma take_token_buffer (pre prefixBytes tok post : Uint8Array) k :
  length pre + length prefixBytes + length tok <= k ->
  take k (pre ++ prefixBytes ++ tok ++ post)
  = pre ++ prefixBytes ++ tok
      ++ take (k - (length pre + length prefixBytes + length tok)) post.
Proof.
  intros Hk.
  rewrite take_app_ge by lia. f_equal.
  rewrite take_app_ge by lia. f_equal.
  rewrite take_app_ge by lia. f_equal. f_equal. lia.
Qed.

(** A token of a buffer is a token of every buffer that extends it, and a
    token of a tail of the buffer is a token of the buffer. *)
Lemma tokenAt_ext prefixBytes configs (hay ext : Uint8Array) i :
  tokenAt prefixBytes configs hay i = true ->
  tokenAt prefixBytes configs (hay ++ ext) i = true.
Proof. intros H. exact (tokenAt_inside prefixBytes configs [] hay ext i H). Qed.

Lemma tokenAt_drop prefixBytes configs (hay : Uint8Array) d i :
  tokenAt prefixBytes configs (drop d hay) i = tokenAt prefixBytes configs hay (d + i).
Proof. unfold tokenAt. by rewrite drop_drop. Qed.

Section SplitScan.
Variables (pre prefixBytes tok post : Uint8Array).
Variables (c : PlaceholderConfig) (l1 l2 : list PlaceholderConfig).
Hypothesis Htok : placeholderBytes c = tok.
Hypothesis Hfirst : forall a, In a l1 -> placeholderBytes a <> tok.
Hypothesis Hlens : suffix_lengths_ok (l1 ++ c :: l2).
Hypothesis Hpf : prefix_free_in (l1 ++ c :: l2).
Hypothesis Hlast :
  forall b, In b (drop (length pre - length prefixBytes) pre) ->
            prefixBytes !! 0 <> Some b.
Hypothesis Hnone :
  forall i, i < length pre ->
            tokenAt prefixBytes (l1 ++ c :: l2) (pre ++ prefixBytes ++ tok ++ post) i = false.

Local Abbreviation whole := (pre ++ prefixBytes ++ tok ++ post).
Local Abbreviation configs := (l1 ++ c :: l2).

(** A first chunk that holds the whole token is matched at once. *)
Lemma first_chunk_open k :
  found (extractPlaceholderChunk (take k whole) prefixBytes configs false) = None ->
  k < length pre + length prefixBytes + length tok.
Proof.
  intros Hfound.
  destruct (Nat.lt_ge_cases k (length pre + length prefixBytes + length tok))
    as [Hlt|Hge]; [done|exfalso].
  rewrite take_token_buffer in Hfound by done.
  rewrite (extract_token pre prefixBytes tok _ c l1 l2) in Hfound; try done.
  intros i Hi. apply not_true_is_false. intros Hat.
  apply (tokenAt_ext _ _ _
           (drop (k - (length pre + length prefixBytes + length tok)) post)) in Hat.
  rewrite <- !app_assoc, take_drop in Hat. by rewrite Hnone in Hat.
Qed.

(** The carry-over starts inside [pre], so the merged buffer is a tail of
    the input that still holds the whole token. *)
Lemma merged_buffer k :
  length prefixBytes + length tok <= LAST_BYTES_COUNT + 1 ->
  k < length pre + length prefixBytes + length tok ->
  let d := length (take k whole) - LAST_BYTES_COUNT in
  drop d (take k whole) ++ drop k whole
  = drop d pre ++ prefixBytes ++ tok ++ post
  /\ take d (take k whole) = take d pre
  /\ d <= length pre.
Proof.
  intros Hmax Hk d.
  assert (length (take k whole) = k) as Hlen
    by (rewrite length_take, !length_app; lia).
  assert (d <= length pre) as Hd by (unfold d; lia).
  assert (d <= k) as Hdk by (unfold d; lia).
  split; [|split; [|done]].
  - rewrite drop_take_drop by done. by rewrite drop_app_le by done.
  - rewrite take_take. replace (d `min` k) with d by lia.
    by rewrite take_app_le by done.
Qed.

(** The scan of a tail of the input that starts inside [pre]. *)
Lemma extract_tail d isFinal :
  d <= length pre ->
  extractPlaceholderChunk (drop d pre ++ prefixBytes ++ tok ++ post) prefixBytes
    configs isFinal
  = {| found := Some (token_match (drop d pre) prefixBytes tok c);
       before := Some (drop d pre); after := Some post; leftover := None |}.
Proof.
  intros Hd. apply extract_token; try done.
  - intros b Hb. apply Hlast. rewrite drop_drop, length_drop in Hb.
    apply list_elem_of_In in Hb. apply list_elem_of_In.
    destruct (Nat.le_ge_cases (length prefixBytes) (length pre - d)) as [Hle|Hge].
    + by replace (d + (length pre - d - length prefixBytes))
        with (length pre - length prefixBytes) in Hb by lia.
    + replace (d + (length pre - d - length prefixBytes)) with d in Hb by lia.
      rewrite <- (take_drop (d - (length pre - length prefixBytes))
                    (drop (length pre - length prefixBytes) pre)).
      apply elem_of_app. right. rewrite drop_drop.
      by replace (length pre - length prefixBytes
                  + (d - (length pre - length prefixBytes))) with d by lia.
  - intros i Hi. rewrite length_drop in Hi.
    rewrite <- (drop_app_le pre _ d) by done.
    rewrite tokenAt_drop. apply Hnone. lia.
Qed.

End SplitScan.

End ScannerFacts.

(** * The scanner against its specification *)

Import Scanner ScannerSpec ScannerFacts.

Lemma prefix_free_to_in configs : prefix_free configs -> prefix_free_in configs.
Proof.
  unfold prefix_free, prefix_free_in. intros H a b Ha Hb.
  rewrite List.Forall_forall in H. specialize (H a Ha).
  rewrite List.Forall_forall in H. by apply H.
Qed.

(** C2 (code_bug): a placeholder with a single byte after the prefix is
    reported one byte too far to the right. In ["a$swxb"] the token ["$swx"]
    spans the positions 1 to 4; the scanner reports 2 to 5, keeps the ["$"]
    of the token in [before] and drops the ["b"] that follows the token, so
    [before], the token and [after] do not make up the buffer. *)
Theorem single_byte_suffix_span_shifted :
  let r := extractPlaceholderChunk (encode "a$swxb") (encode "$sw")
             [Sample.configFor "$swx"] false in
  (m_config <$> found r) = Some (Sample.configFor "$swx") /\
  (m_start <$> found r) = Some 2%Z /\ (m_end <$> found r) = Some 5%Z /\
  before r = Some (encode "a$") /\ after r = Some [] /\
  slice (encode "a$swxb") 2 6 = encode "swxb" /\
  ~ reconstructs (encode "a$swxb") (encode "$sw") [Sample.configFor "$swx"] false.
Proof.
  repeat split; try (vm_compute; reflexivity).
  intros H. specialize (H _ eq_refl). vm_compute in H. discriminate.
Qed.

(** C4 (code_bug): with ["$swabc"] configured before ["$swab"], the scan of
    ["x$swabc"] stops when ["$swab"] is complete but returns the entry of
    ["$swabc"], which is first in the array, with the span 0 to 5 computed
    from its length: [before] is empty and [after] is ["c"]. With the two
    entries swapped the shorter token is the one reported. *)
Theorem earlier_longer_token_reported :
  let longFirst := [Sample.configFor "$swabc"; Sample.configFor "$swab"] in
  let shortFirst := [Sample.configFor "$swab"; Sample.configFor "$swabc"] in
  let r := extractPlaceholderChunk (encode "x$swabc") (encode "$sw") longFirst false in
  let r' := extractPlaceholderChunk (encode "x$swabc") (encode "$sw") shortFirst false in
  ((m_config <$> found r) = Some (Sample.configFor "$swabc") /\
   (m_start <$> found r) = Some 0%Z /\ (m_end <$> found r) = Some 5%Z /\
   before r = Some [] /\ after r = Some (encode "c")) /\
  ((m_config <$> found r') = Some (Sample.configFor "$swab") /\
   (m_start <$> found r') = Some 1%Z /\ (m_end <$> found r') = Some 5%Z /\
   before r' = Some (encode "x") /\ after r' = Some (encode "c")).
Proof. repeat split; vm_compute; reflexivity. Qed.

(** C5 (as stated) fails: twenty bytes without a token are all carried
    over, while the longest configured token has ten bytes. *)
Lemma carry_over_exceeds_longest_token :
  found (extractPlaceholderChunk (encode "aaaaaaaaaaaaaaaaaaaa") (encode "$sw")
           Sample.standardConfigs false) = None /\
  ~ carry_over_within_longest_token (encode "aaaaaaaaaaaaaaaaaaaa") (encode "$sw")
      Sample.standardConfigs.
Proof.
  split; [vm_compute; reflexivity|].
  unfold carry_over_within_longest_token. intros H. vm_compute in H. lia.
Qed.

(** C5 (amended): on a non-final scan in which no match completes, the
    carry-over is the last [LAST_BYTES_COUNT] bytes of the buffer (the whole
    buffer when it is shorter), so its length never exceeds the fixed window
    of [LAST_BYTES_COUNT = 20] bytes, whatever tokens are configured. *)
Theorem carry_over_within_window bytes prefixBytes configs :
  found (extractPlaceholderChunk bytes prefixBytes configs false) = None ->
  exists l,
    leftover (extractPlaceholderChunk bytes prefixBytes configs false) = Some l /\
    l = drop (length bytes - LAST_BYTES_COUNT) bytes /\
    length l = Nat.min (length bytes) LAST_BYTES_COUNT /\
    length l <= LAST_BYTES_COUNT.
Proof.
  intros Hnone. rewrite (extract_not_found _ _ _ Hnone). cbn [leftover].
  eexists. split; [reflexivity|]. split; [reflexivity|].
  rewrite length_drop. lia.
Qed.

Lemma carry_over_within_window_witness :
  exists l,
    leftover (extractPlaceholderChunk (encode "aaaaaaaaaaaaaaaaaaaaaaaaa") (encode "$sw")
                Sample.standardConfigs false) = Some l /\
    l = drop (length (encode "aaaaaaaaaaaaaaaaaaaaaaaaa") - LAST_BYTES_COUNT)
             (encode "aaaaaaaaaaaaaaaaaaaaaaaaa") /\
    length l = Nat.min (length (encode "aaaaaaaaaaaaaaaaaaaaaaaaa")) LAST_BYTES_COUNT /\
    length l <= LAST_BYTES_COUNT.
Proof.
  apply (carry_over_within_window (encode "aaaaaaaaaaaaaaaaaaaaaaaaa") (encode "$sw")
           Sample.standardConfigs).
  vm_compute. reflexivity.
Defined.

(** C3 (as stated) fails: the token ["$swnavigation-sidebar$"] has 22
    bytes; split after its 21st byte, the first scan flushes the ["$"] and
    carries 20 bytes over, and the merged scan finds nothing, while the scan
    of the whole buffer matches the token. *)
Lemma long_token_split_is_missed :
  found (extractPlaceholderChunk (encode "$swnavigation-sidebar") (encode "$sw")
           [Sample.configFor "$swnavigation-sidebar$"] false) = None /\
  ~ split_scan_agrees (encode "$sw") [Sample.configFor "$swnavigation-sidebar$"]
      (encode "$swnavigation-sidebar") (encode "$") true.
Proof.
  split; [vm_compute; reflexivity|].
  unfold split_scan_agrees. cbn zeta. intros [Hcfg _].
  vm_compute in Hcfg. discriminate.
Qed.

(** C3 (amended): let a configured token of at most [LAST_BYTES_COUNT + 1]
    bytes, with at least two bytes after the prefix, in a configuration
    where no placeholder is a strict prefix of another, occur in an input
    in which no configured token starts before it and none of the
    [length prefixBytes] bytes before it is the first byte of the prefix.
    For every split point at which the scan of the first chunk reports no
    match, the scan of the carry-over merged with the second chunk reports
    the same match as the scan of the whole input: the same configuration,
    the same bytes passed through before it, the same bytes after it. *)
Theorem split_scan_same_match
    (pre prefixBytes tok post : Uint8Array)
    (c : PlaceholderConfig) (l1 l2 : list PlaceholderConfig)
    (k : nat) (isFinal : bool) :
  placeholderBytes c = tok ->
  Forall (fun a => placeholderBytes a <> tok) l1 ->
  suffix_lengths_ok (l1 ++ c :: l2) ->
  prefix_free (l1 ++ c :: l2) ->
  Forall (fun b => prefixBytes !! 0 <> Some b)
         (drop (length pre - length prefixBytes) pre) ->
  Forall (fun i => tokenAt prefixBytes (l1 ++ c :: l2)
                     (pre ++ prefixBytes ++ tok ++ post) i = false)
         (seq 0 (length pre)) ->
  length prefixBytes + length tok <= LAST_BYTES_COUNT + 1 ->
  found (extractPlaceholderChunk (take k (pre ++ prefixBytes ++ tok ++ post))
           prefixBytes (l1 ++ c :: l2) false) = None ->
  split_scan_agrees prefixBytes (l1 ++ c :: l2)
    (take k (pre ++ prefixBytes ++ tok ++ post))
    (drop k (pre ++ prefixBytes ++ tok ++ post)) isFinal
  /\ (m_config <$> found (extractPlaceholderChunk (pre ++ prefixBytes ++ tok ++ post)
                            prefixBytes (l1 ++ c :: l2) isFinal)) = Some c.
Proof.
  intros Htok Hfirst Hlens Hpf Hlast Hnone Hmax Hfound.
  apply prefix_free_to_in in Hpf.
  rewrite List.Forall_forall in Hfirst. rewrite List.Forall_forall in Hlast.
  assert (forall i, i < length pre ->
            tokenAt prefixBytes (l1 ++ c :: l2) (pre ++ prefixBytes ++ tok ++ post) i
            = false) as Hnone'.
  { rewrite List.Forall_forall in Hnone. intros i Hi. apply Hnone, in_seq. lia. }
  pose proof (extract_token pre prefixBytes tok post c l1 l2
                Htok Hfirst Hlens Hpf Hlast Hnone') as Hwhole.
  split; [|by rewrite Hwhole].
  unfold split_scan_agrees. cbn zeta.
  pose proof (first_chunk_open pre prefixBytes tok post c l1 l2
                Htok Hfirst Hlens Hpf Hlast Hnone' k Hfound) as Hk.
  rewrite (extract_not_found _ _ _ Hfound).
  cbn [carryOver leftover before default from_option id].
  rewrite take_drop, Hwhole.
  destruct (merged_buffer pre prefixBytes tok post k Hmax Hk) as (Hm & Ht & Hd).
  cbn zeta in Hm, Ht, Hd. rewrite Hm.
  rewrite (extract_tail pre prefixBytes tok post c l1 l2
             Htok Hfirst Hlens Hpf Hlast Hnone' _ isFinal Hd).
  cbn [found before after default from_option id]. split; [done|]. split; [|done].
  destruct (Nat.ltb_spec LAST_BYTES_COUNT (length (take k (pre ++ prefixBytes ++ tok ++ post)))).
  - cbn [default from_option id]. rewrite Ht. by rewrite take_drop.
  - cbn [default from_option id app].
    replace (length (take k (pre ++ prefixBytes ++ tok ++ post)) - LAST_BYTES_COUNT)
      with 0 by lia.
    by rewrite drop_0.
Qed.

Lemma split_scan_same_match_witness :
  let pre := encode "<script>$(function(){});</script><div>" in
  let whole := pre ++ encode "$sw" ++ encode "header$" ++ encode "</div>" in
  let configs := [] ++ Sample.configFor "$swheader$" :: [Sample.configFor "$swfooter$"] in
  carryOver (extractPlaceholderChunk (take 42 whole) (encode "$sw") configs false)
  = encode ");</script><div>$swh" /\
  (split_scan_agrees (encode "$sw") configs (take 42 whole) (drop 42 whole) false
   /\ (m_config <$> found (extractPlaceholderChunk whole (encode "$sw") configs false))
      = Some (Sample.configFor "$swheader$")).
Proof.
  split; [vm_compute; reflexivity|].
  apply (split_scan_same_match (encode "<script>$(function(){});</script><div>")
           (encode "$sw") (encode "header$") (encode "</div>")
           (Sample.configFor "$swheader$") [] [Sample.configFor "$swfooter$"] 42 false).
  - vm_compute. reflexivity.
  - constructor.
  - unfold suffix_lengths_ok. compute_done.
  - unfold prefix_free. compute_done.
  - compute_done.
  - compute_done.
  - vm_compute. lia.
  - vm_compute. reflexivity.
Defined.

(** * Properties of strings, caches and the worker *)

Module WorkerFacts.
Import Platform Stream Worker WorkerSpec.

(** ** [indexOf] finds what is there *)

Lemma append_String x (a b : string) : (String x a ++ b = String x (a ++ b))%string.
Proof. reflexivity. Qed.

Lemma append_Empty (b : string) : ("" ++ b = b)%string.
Proof. reflexivity. Qed.

Lemma string_app_assoc (a b c : string) : ((a ++ b) ++ c = a ++ b ++ c)%string.
Proof.
  induction a as [|x a IH]; [done|].
  rewrite !append_String. f_equal. exact IH.
Qed.

Lemma string_app_empty (a : string) : (a ++ "" = a)%string.
Proof.
  induction a as [|x a IH]; [done|].
  rewrite append_String. f_equal. exact IH.
Qed.

Lemma prefix_append (u b : string) : String.prefix u (u ++ b) = true.
Proof.
  induction u as [|x u IH]; [by destruct b|].
  rewrite append_String. cbn [String.prefix].
  destruct (ascii_dec x x); done.
Qed.

Lemma indexOfNat_unfold (u s : string) :
  Js.indexOfNat u s =
  if String.prefix u s then Some 0
  else match s with
       | EmptyString => None
       | String _ s' => option_map S (Js.indexOfNat u s')
       end.
Proof. by destruct s. Qed.

Lemma indexOfNat_append (a u b : string) :
  is_Some (Js.indexOfNat u (a ++ u ++ b)).
Proof.
  induction a as [|x a [n IH]]; rewrite indexOfNat_unfold.
  - rewrite append_Empty. by rewrite prefix_append.
  - destruct (String.prefix u _); [done|]. rewrite append_String, IH. done.
Qed.

Lemma includes_append (a u b : string) : Js.includes (a ++ u ++ b) u = true.
Proof.
  unfold Js.includes, Js.indexOf.
  destruct (indexOfNat_append a u b) as [n ->].
  apply negb_true_iff. apply Z.eqb_neq. lia.
Qed.

Lemma includes_suffix (a u : string) : Js.includes (a ++ u) u = true.
Proof.
  rewrite <- (string_app_empty u) at 1. apply includes_append.
Qed.

(** A key handed to the cache is the tail of the URL it is stored under. *)
Lemma keyUrl_tail env key : exists a, keyUrl env key = (a ++ key)%string.
Proof.
  unfold keyUrl, resolveUrl.
  destruct (Js.includes key "://"); [by exists ""%string|].
  destruct (String.prefix "/" key); eauto.
Qed.

Lemma keyUrl_includes_suffix env siteId locale s :
  Js.includes (keyUrl env (siteLocaleKey siteId locale s)) ("." ++ s) = true.
Proof.
  destruct (keyUrl_tail env (siteLocaleKey siteId locale s)) as [a ->].
  unfold siteLocaleKey.
  replace (a ++ siteId ++ "." ++ locale ++ "." ++ s)%string
    with ((a ++ siteId ++ "." ++ locale) ++ ("." ++ s))%string.
  - apply includes_suffix.
  - by rewrite !string_app_assoc.
Qed.

(** ** The cache storage *)

Lemma cachesGet_app_r cs name c :
  cachesGet cs name = None -> cachesGet (cs ++ [(name, c)]) name = Some c.
Proof.
  induction cs as [|[n c'] cs IH]; simpl.
  - by rewrite String.eqb_refl.
  - destruct (String.eqb n name); [done|auto].
Qed.

Lemma openedCache_open cs name :
  openedCache (cachesOpen cs name) name = openedCache cs name.
Proof.
  unfold openedCache, cachesOpen.
  destruct (cachesGet cs name) eqn:E; [by rewrite E|].
  by rewrite cachesGet_app_r.
Qed.

Lemma cachesGet_open_is_Some cs name : is_Some (cachesGet (cachesOpen cs name) name).
Proof.
  unfold cachesOpen. destruct (cachesGet cs name) eqn:E; [by rewrite E|].
  by rewrite cachesGet_app_r.
Qed.

Lemma cachesGet_update cs name f name' :
  cachesGet (cachesUpdate cs name f) name'
  = if String.eqb name name' then f <$> cachesGet cs name' else cachesGet cs name'.
Proof.
  induction cs as [|[n c] cs IH]; simpl.
  - by destruct (String.eqb name name').
  - destruct (String.eqb_spec n name) as [->|Hn]; simpl.
    + destruct (String.eqb_spec name name') as [->|Hne]; [done|done].
    + destruct (String.eqb_spec n name') as [->|Hn'].
      * destruct (String.eqb_spec name name') as [->|Hne]; [done|done].
      * apply IH.
Qed.

Lemma openedCache_update cs name f :
  is_Some (cachesGet cs name) ->
  openedCache (cachesUpdate cs name f) name = f (openedCache cs name).
Proof.
  intros [c Hc]. unfold openedCache.
  by rewrite cachesGet_update, String.eqb_refl, Hc.
Qed.

Lemma fold_delete_lookup (ks : list string) : forall (c : Cache) (k : string),
  fold_left (fun c k => delete k c) ks c !! k
  = if bool_decide (k ∈ ks) then None else c !! k.
Proof.
  induction ks as [|k0 ks IH]; intros c k; cbn [fold_left].
  - rewrite bool_decide_eq_false_2; [done|]. apply not_elem_of_nil.
  - rewrite IH. destruct (decide (k ∈ ks)) as [Hin|Hnin].
    + rewrite !bool_decide_eq_true_2; [done| |done]. by apply list_elem_of_further.
    + rewrite (bool_decide_eq_false_2 (k ∈ ks)) by done.
      destruct (decide (k = k0)) as [->|Hne].
      * rewrite bool_decide_eq_true_2 by apply list_elem_of_here.
        apply lookup_delete_eq.
      * rewrite bool_decide_eq_false_2.
        -- by rewrite lookup_delete_ne.
        -- intros [?|?]%elem_of_cons; done.
Qed.

(** ** What [cleanTriggeredCache] leaves in the active generation *)

Lemma cleanTriggeredCache_lookup env w request k :
  generationLookup env (cleanTriggeredCache env w request) k
  = if shouldDelete (triggeredSuffixes env (url request)) k then None
    else generationLookup env w k.
Proof.
  unfold generationLookup, cleanTriggeredCache. cbn [caches].
  rewrite openedCache_update by apply cachesGet_open_is_Some.
  rewrite openedCache_open, fold_delete_lookup.
  set (c := openedCache (caches w) (CACHE_ID env)).
  set (sfx := triggeredSuffixes env (url request)).
  destruct (shouldDelete sfx k) eqn:Hdel.
  - destruct (c !! k) as [r|] eqn:Hk.
    + rewrite bool_decide_eq_true_2; [done|].
      apply list_elem_of_In, filter_In. split; [|done].
      apply in_map_iff. exists (k, r). split; [done|].
      apply list_elem_of_In. by apply elem_of_map_to_list.
    + by destruct (bool_decide _).
  - rewrite bool_decide_eq_false_2; [done|].
    intros [_ Hd]%list_elem_of_In%filter_In. congruence.
Qed.

(** The other caches are left as they are. *)
Lemma cleanTriggeredCache_other env w request name :
  name <> CACHE_ID env ->
  cachesGet (caches (cleanTriggeredCache env w request)) name = cachesGet (caches w) name.
Proof.
  intros Hne. unfold cleanTriggeredCache. cbn [caches].
  rewrite cachesGet_update.
  destruct (String.eqb_spec (CACHE_ID env) name) as [<-|_]; [done|].
  unfold cachesOpen. destruct (cachesGet (caches w) (CACHE_ID env)); [done|].
  induction (caches w) as [|[n c] cs IH]; cbn [cachesGet app].
  - by destruct (String.eqb_spec (CACHE_ID env) name).
  - by destruct (String.eqb n name).
Qed.

(** ** [clearOldCaches] *)

Lemma cachesGet_delete cs name name' :
  cachesGet (cachesDelete cs name) name'
  = if String.eqb name name' then None else cachesGet cs name'.
Proof.
  unfold cachesDelete. induction cs as [|[n c] cs IH]; cbn [List.filter fst cachesGet].
  - by destruct (String.eqb name name').
  - destruct (String.eqb_spec n name) as [->|Hn]; cbn [negb cachesGet].
    + rewrite IH. destruct (String.eqb_spec name name') as [->|Hne]; [done|done].
    + rewrite IH. destruct (String.eqb_spec n name') as [->|Hn'].
      * destruct (String.eqb_spec name name') as [->|Hne]; [done|done].
      * done.
Qed.

Lemma cachesGet_delete_all names : forall cs name',
  cachesGet (fold_left cachesDelete names cs) name'
  = if bool_decide (name' ∈ names) then None else cachesGet cs name'.
Proof.
  induction names as [|n names IH]; intros cs name'; cbn [fold_left].
  - rewrite bool_decide_eq_false_2; [done|]. apply not_elem_of_nil.
  - rewrite IH, cachesGet_delete.
    destruct (decide (name' ∈ names)) as [Hin|Hnin].
    + rewrite !bool_decide_eq_true_2; [done| |done]. by apply list_elem_of_further.
    + rewrite (bool_decide_eq_false_2 (name' ∈ names)) by done.
      destruct (String.eqb_spec n name') as [->|Hne].
      * by rewrite bool_decide_eq_true_2 by apply list_elem_of_here.
      * rewrite bool_decide_eq_false_2; [done|].
        intros [?|?]%elem_of_cons; done.
Qed.

(** [clearOldCaches] deletes every cache but the one of the active
    generation, which it leaves as it is. *)
Lemma clearOldCaches_get env w name :
  cachesGet (caches (clearOldCaches env w)) name
  = if String.eqb name (CACHE_ID env) then cachesGet (caches w) name else None.
Proof.
  unfold clearOldCaches. cbn [caches]. rewrite cachesGet_delete_all.
  destruct (String.eqb_spec name (CACHE_ID env)) as [->|Hne].
  - rewrite bool_decide_eq_false_2; [done|].
    intros [_ H]%list_elem_of_In%filter_In. by rewrite String.eqb_refl in H.
  - destruct (cachesGet (caches w) name) as [c|] eqn:Hget.
    + rewrite bool_decide_eq_true_2; [done|].
      apply list_elem_of_In, filter_In. split.
      * unfold cachesKeys. clear -Hget. induction (caches w) as [|[n c'] cs IH]; [done|].
        cbn [cachesGet] in Hget. cbn [map fst].
        destruct (String.eqb_spec n name) as [->|Hn]; [by left|right; auto].
      * apply negb_true_iff. by apply String.eqb_neq.
    + by destruct (bool_decide _).
Qed.

End WorkerFacts.

(** * The worker against its specification *)

Import Platform Stream Worker WorkerSpec WorkerFacts.

(** Two slips of the scanner, seen on the stream. With the configuration
    of swConfig.js and a resolver that succeeds, a body in which the token
    follows a byte equal to the first byte of the prefix is not rewritten:
    ["$$swheader$"], delivered as one chunk, is emitted unchanged instead
    of ["$HDR"]. When the carry-over
    of the last chunk happens to start at the token, the token is matched
    in the final scan, and the stream is closed before the fragment and the
    bytes after the token are emitted: ["a$$swheader$0123456789"] is emitted
    as ["a$"] instead of ["a$HDR0123456789"]. *)
Theorem rewriter_misses_or_truncates :
  let e := Sample.env Sample.fragmentNet true in
  let run chunks :=
    rw_stream (createStream 20 e Sample.emptyWorld (Sample.htmlResponse chunks)
                 (cachedParts (serverPreparedData e)) (CACHE_ID e)) in
  (exists ctl w,
     run ["$$swheader$"%string] = Some (ctl, w) /\ state ctl = Closed /\
     emitted ctl = encode "$$swheader$" /\ emitted ctl <> encode "$HDR") /\
  (exists ctl w,
     run ["a$$swheader$0123456789"%string] = Some (ctl, w) /\ state ctl = Closed /\
     emitted ctl = encode "a$" /\ emitted ctl <> encode "a$HDR0123456789").
Proof.
  split; eexists _, _; (split; [vm_compute; reflexivity|]);
    repeat split; try (vm_compute; reflexivity); vm_compute; discriminate.
Qed.

(** C6 (as stated) fails in two ways. A request for [Account-Login]
    matches the trigger whose suffixes are [header], [footer] and
    [MiniCartShow]; the check also removes the entry
    [RefArch.en_US.headerBanner], whose suffix is none of them, because its
    URL contains [.header]. And when the URL of a request contains two
    configured triggers, only the first one in key order is used: a request
    for [Account-LoginForm] matches the trigger of the mini cart, but the
    mini cart entry stays, since [Account-Login] is found first. *)
Lemma invalidation_is_not_exact :
  (firstTrigger Sample.bannerEnv (Sample.navigate "Account-Login")
   = Some "/on/demandware.store/Account-Login"%string /\
   mapGet (cacheCleanUrls Sample.bannerEnv) "/on/demandware.store/Account-Login"
   = Some ["header"; "footer"; "MiniCartShow"]%string /\
   ~ invalidation_is_exact Sample.bannerEnv Sample.bannerWorld
       (Sample.navigate "Account-Login") ["header"; "footer"; "MiniCartShow"]%string)
  /\
  (Js.includes (shortUrl (Sample.navigate "Account-LoginForm"))
     "/on/demandware.store/Account-LoginForm" = true /\
   mapGet (cacheCleanUrls Sample.overlapEnv) "/on/demandware.store/Account-LoginForm"
   = Some ["MiniCartShow"]%string /\
   ~ invalidation_is_exact Sample.overlapEnv Sample.overlapWorld
       (Sample.navigate "Account-LoginForm") ["MiniCartShow"]%string).
Proof.
  split.
  - split; [vm_compute; reflexivity|]. split; [vm_compute; reflexivity|].
    intros [_ H].
    specialize (H "RefArch" "en_US" "headerBanner")%string.
    assert (~ In "headerBanner" ["header"; "footer"; "MiniCartShow"])%string as Hnot
      by (intros [?|[?|[?|[]]]]; discriminate).
    specialize (H Hnot). vm_compute in H. discriminate.
  - split; [vm_compute; reflexivity|]. split; [vm_compute; reflexivity|].
    intros [H _].
    specialize (H "RefArch" "en_US" "MiniCartShow" (or_introl eq_refl))%string.
    vm_compute in H. discriminate.
Qed.

(** C6 (amended): after the check for a request whose shortened URL
    contains a configured trigger, the first such trigger in key order
    decides: every entry of the active generation whose URL contains
    ["." ++ s] for one of that trigger's suffixes [s] is absent, which
    covers the key [siteId.locale.s] of every site and locale; every other
    entry of the active generation, and every other cache, is unchanged. *)
Theorem invalidation_by_first_trigger env w request trigger :
  firstTrigger env request = Some trigger ->
  let suffixes := default [] (mapGet (cacheCleanUrls env) trigger) in
  let w' := cleanTriggeredCache env w request in
  (forall k, generationLookup env w' k
             = if shouldDelete suffixes k then None else generationLookup env w k) /\
  (forall siteId locale s, In s suffixes ->
     generationLookup env w' (keyUrl env (siteLocaleKey siteId locale s)) = None) /\
  (forall name, name <> CACHE_ID env ->
     cachesGet (caches w') name = cachesGet (caches w) name).
Proof.
  intros Htrig suffixes w'.
  assert (triggeredSuffixes env (url request) = suffixes) as Hsfx.
  { unfold triggeredSuffixes. unfold firstTrigger, shortUrl in Htrig. by rewrite Htrig. }
  assert (forall k, generationLookup env w' k
                    = if shouldDelete suffixes k then None else generationLookup env w k)
    as Hlook.
  { intros k. unfold w'. by rewrite cleanTriggeredCache_lookup, Hsfx. }
  split; [done|]. split.
  - intros siteId locale s Hs. rewrite Hlook.
    assert (shouldDelete suffixes (keyUrl env (siteLocaleKey siteId locale s)) = true) as ->;
      [|done].
    apply existsb_exists. exists s. split; [done|]. apply keyUrl_includes_suffix.
  - intros name Hne. by apply cleanTriggeredCache_other.
Qed.

Lemma invalidation_by_first_trigger_witness :
  let env := Sample.env Sample.fragmentNet true in
  let request := Sample.navigate "Cart-Show" in
  let suffixes :=
    default [] (mapGet (cacheCleanUrls env) "/on/demandware.store/Cart-Show") in
  let w' := cleanTriggeredCache env Sample.storedWorld request in
  (forall k, generationLookup env w' k
             = if shouldDelete suffixes k then None
               else generationLookup env Sample.storedWorld k) /\
  (forall siteId locale s, In s suffixes ->
     generationLookup env w' (keyUrl env (siteLocaleKey siteId locale s)) = None) /\
  (forall name, name <> CACHE_ID env ->
     cachesGet (caches w') name = cachesGet (caches Sample.storedWorld) name).
Proof.
  apply (invalidation_by_first_trigger (Sample.env Sample.fragmentNet true)
           Sample.storedWorld (Sample.navigate "Cart-Show")
           "/on/demandware.store/Cart-Show").
  vm_compute. reflexivity.
Defined.

(** C7 (code_bug): the page is fetched, its body holds the header token,
    and the fetch of the header fragment fails. The navigation has already
    been answered with the rewritten response; its body delivers ["<html>"]
    and then errors, although the offline page is in the cache: the [try]
    block of [respondToNavigation] ends when [createStream] returns. *)
Theorem fragment_failure_errors_the_body :
  let e := Sample.env Sample.pageOnlyNet true in
  let answer :=
    nav_answer (respondToNavigation 20 e Sample.offlineOnlyWorld
                  (Sample.navigate "Home-Show")) in
  (exists rw ctl w,
     answer = Rewriting rw /\ rw_stream rw = Some (ctl, w) /\
     state ctl = Errored /\ emitted ctl = encode "<html>") /\
  generationLookup e Sample.offlineOnlyWorld (resolveUrl e (OFFLINE_URL e))
  = Some (Sample.textResponse 200 "offline") /\
  ~ no_raw_error answer.
Proof.
  split; [|split].
  - eexists _, _, _. split; [vm_compute; reflexivity|].
    split; [vm_compute; reflexivity|]. split; vm_compute; reflexivity.
  - vm_compute. reflexivity.
  - intros H. vm_compute in H. destruct H as (ctl & w & Heq & Hst).
    injection Heq as <- _. discriminate.
Qed.

(** C8 (code_bug): with [swEnabled = false], the cache of an earlier run in
    the storage and two pages of the shop open, the [install] listener
    deletes the cache and unregisters the worker, but it reloads no view:
    [self.clients.matchAll()] lists the clients whose active worker is
    this worker, and a worker that is being installed is the active worker
    of none. *)
Theorem kill_switch_reloads_no_client :
  let e := Sample.env Sample.fragmentNet false in
  let h := onInstall e Sample.hostAtInstall in
  swEnabled (serverPreparedData e) = false /\
  cachesKeys (caches (world Sample.hostAtInstall)) = [Sample.earlierGeneration] /\
  clients Sample.hostAtInstall
  = ["https://shop.example/on/demandware.store/Sites-RefArch-Site/en_US/Home-Show"%string] /\
  uncontrolled Sample.hostAtInstall
  = ["https://shop.example/on/demandware.store/Sites-RefArch-Site/en_US/Cart-Show"%string] /\
  caches (world h) = [] /\
  registered h = false /\
  navigated h = [] /\
  ~ kill_switch_clears_all e Sample.hostAtInstall.
Proof.
  repeat split; try (vm_compute; reflexivity).
  intros (_ & _ & H). vm_compute in H. discriminate.
Qed.

(** C9 (code_bug): an [XMLHttpRequest] for [Cart-AddProduct], a route that
    swConfig.js lists among those that invalidate the mini cart, has a
    same-origin URL and is not keyed-AJAX, but its mode is [cors]: the
    listener neither answers it nor runs the invalidation check, and the
    mini cart entry that the check would delete stays in the cache. The
    second branch of the listener tests [request.mode], where the first
    one tests the origin of the URL. *)
Theorem same_origin_url_is_not_checked :
  let e := Sample.env Sample.fragmentNet true in
  let request := Sample.xhr "POST" "Cart-AddProduct" Sample.identityHeaders in
  isSameOrigin e (url request) = true /\
  keyedAjax e request = false /\
  In "Cart-AddProduct"%string Sample.minicartCacheInvalidationRoutes /\
  worldAfter (onFetch 20 e Sample.storedWorld request) = Sample.storedWorld /\
  generationLookup e Sample.storedWorld (keyUrl e "RefArch.en_US.MiniCartShow")
  = Some (Sample.textResponse 200 "cart") /\
  generationLookup e (cleanTriggeredCache e Sample.storedWorld request)
    (keyUrl e "RefArch.en_US.MiniCartShow") = None /\
  ~ invalidates_without_override 20 e Sample.storedWorld request.
Proof.
  repeat split; try (vm_compute; reflexivity).
  - vm_compute. tauto.
  - intros [_ H].
    apply (f_equal (fun w => generationLookup (Sample.env Sample.fragmentNet true) w
                               (keyUrl (Sample.env Sample.fragmentNet true)
                                       "RefArch.en_US.MiniCartShow"))) in H.
    vm_compute in H. discriminate.
Qed.

(** C10 (code_bug): the name of the cache carries the time at which the
    script started. A keyed-AJAX request is answered from the network and
    its response is stored; the worker is stopped and started again a
    minute later; a second request with the same site and locale headers
    and the same configuration entry has the same key, but the run that
    serves it looks in a new, empty cache: the request is sent to the
    network again. *)
Theorem keyed_ajax_refetches_after_restart :
  let e1 := Sample.env Sample.cartNet true in
  let e2 := restart e1 (Sample.startedAt + 60000) in
  let r1 := Sample.xhr "GET" "Cart-MiniCartShow" Sample.identityHeaders in
  let r2 := Sample.xhr "GET" "Cart-MiniCartShow?t=2" Sample.identityHeaders in
  let w1 := worldAfter (onFetch 20 e1 Sample.emptyWorld r1) in
  let w2 := worldAfter (onFetch 20 e2 w1 r2) in
  (keyedAjax e1 r1 = true /\ keyedAjax e2 r2 = true /\
   getAjaxCacheConfig e1 r1 = Some Sample.miniCartUrl /\
   getAjaxCacheConfig e2 r2 = Some Sample.miniCartUrl /\
   ajaxKeyUrl e2 r2 Sample.miniCartUrl = ajaxKeyUrl e1 r1 Sample.miniCartUrl) /\
  (respondedWith (onFetch 20 e1 Sample.emptyWorld r1)
   = Some (Whole (Sample.textResponse 200 "cart-1")) /\
   generationLookup e1 w1 (ajaxKeyUrl e1 r1 Sample.miniCartUrl)
   = Some (Sample.textResponse 200 "cart-1") /\
   fetched w1 = [r1]) /\
  (CACHE_ID e1 = "Build-1700000000000_dw4ae791b3"%string /\
   CACHE_ID e2 = "Build-1700000060000_dw4ae791b3"%string) /\
  (respondedWith (onFetch 20 e2 w1 r2)
   = Some (Whole (Sample.textResponse 200 "cart-1")) /\
   fetched w2 = [r1; r2] /\
   cachesKeys (caches w2) = [CACHE_ID e1; CACHE_ID e2]).
Proof. repeat split; vm_compute; reflexivity. Qed.

(** X27: Within one run of the script, two same-origin requests with the
    same site and locale headers that match the same cached-URL
    configuration share one cache key, whatever their URLs. When the first
    one was answered with a response that is stored under that key, the
    second one, handled by the same run right after it, is answered with
    the same response, and the worker sends nothing to the network for
    it. *)
Theorem keyed_ajax_ignores_url fuel env w r1 r2 config resp :
  headerGet (req_headers r1) X_SF_CC_SITEID = headerGet (req_headers r2) X_SF_CC_SITEID ->
  headerGet (req_headers r1) X_SF_CC_REQUESTLOCALE
  = headerGet (req_headers r2) X_SF_CC_REQUESTLOCALE ->
  isSameOrigin env (url r1) = true ->
  isSameOrigin env (url r2) = true ->
  getAjaxCacheConfig env r1 = Some config ->
  getAjaxCacheConfig env r2 = Some config ->
  respondedWith (onFetch fuel env w r1) = Some (Whole resp) ->
  generationLookup env (worldAfter (onFetch fuel env w r1)) (ajaxKeyUrl env r1 config)
  = Some resp ->
  let w1 := worldAfter (onFetch fuel env w r1) in
  ajaxKeyUrl env r2 config = ajaxKeyUrl env r1 config /\
  respondedWith (onFetch fuel env w1 r2) = Some (Whole resp) /\
  fetched (worldAfter (onFetch fuel env w1 r2)) = fetched w1.
Proof.
  intros Hsite Hloc _ Hso2 _ Hcfg2 _ Hcached w1.
  assert (ajaxKeyUrl env r2 config = ajaxKeyUrl env r1 config) as Hkey
    by (unfold ajaxKeyUrl; by rewrite Hsite, Hloc).
  split; [done|].
  unfold onFetch. rewrite Hso2, Hcfg2.
  rewrite bool_decide_eq_true_2 by done. cbn [andb].
  unfold respondToAjax.
  rewrite openedCache_open.
  fold (ajaxKeyUrl env r2 config). rewrite Hkey.
  unfold generationLookup in Hcached. fold w1 in Hcached. rewrite Hcached.
  done.
Qed.

Lemma keyed_ajax_ignores_url_witness :
  let e := Sample.env Sample.cartNet true in
  let r1 := Sample.xhr "GET" "Cart-MiniCartShow" Sample.identityHeaders in
  let r2 := Sample.xhr "GET" "Cart-MiniCartShow?t=2" Sample.identityHeaders in
  let w1 := worldAfter (onFetch 20 e Sample.emptyWorld r1) in
  url r1 <> url r2 /\
  fetched w1 = [r1] /\
  (ajaxKeyUrl e r2 Sample.miniCartUrl = ajaxKeyUrl e r1 Sample.miniCartUrl /\
   respondedWith (onFetch 20 e w1 r2) = Some (Whole (Sample.textResponse 200 "cart-1")) /\
   fetched (worldAfter (onFetch 20 e w1 r2)) = fetched w1).
Proof.
  split; [vm_compute; discriminate|]. split; [vm_compute; reflexivity|].
  apply (keyed_ajax_ignores_url 20 (Sample.env Sample.cartNet true) Sample.emptyWorld
           (Sample.xhr "GET" "Cart-MiniCartShow" Sample.identityHeaders)
           (Sample.xhr "GET" "Cart-MiniCartShow?t=2" Sample.identityHeaders)
           Sample.miniCartUrl (Sample.textResponse 200 "cart-1"));
    vm_compute; reflexivity.
Defined.

(** * Properties of the stream rewriter *)

Module StreamFacts.
Import Scanner ScannerSpec ScannerFacts Platform Stream StreamSpec.

Lemma emitted_enqueue ctl b : emitted (enqueue ctl b) = emitted ctl ++ b.
Proof.
  unfold emitted, enqueue. cbn [chunks]. rewrite concat_app. cbn [concat].
  by rewrite app_nil_r.
Qed.

Lemma emitted_enqueueIf ctl x : emitted (enqueueIf ctl x) = emitted ctl ++ default [] x.
Proof.
  destruct x as [b|]; cbn [enqueueIf default from_option id].
  - apply emitted_enqueue.
  - by rewrite app_nil_r.
Qed.

Lemma emitted_close ctl : emitted (close ctl) = emitted ctl.
Proof. done. Qed.

Section Pulls.
Variables (env : Env) (siteId locale : option string) (cacheId : string).
Variables (pfx : Uint8Array) (cfgs : list PlaceholderConfig).
Hypothesis Hlens : suffix_lengths_ok cfgs.

Local Abbreviation pullOnce := (Stream.pullOnce env siteId locale cacheId).
Local Abbreviation pull := (fun fuel => Stream.pull fuel env siteId locale cacheId).
Local Abbreviation pending := (srcPending pfx cfgs).

(** One [pull] on a carry-over and a chunk in which nothing matches. *)
Lemma pullOnce_pending_chunk l chunk rest ctl w :
  found (extractPlaceholderChunk (l ++ chunk) pfx cfgs false) = None ->
  pullOnce (pending l (chunk :: rest)) ctl w
  = Again (pending (drop (length (l ++ chunk) - LAST_BYTES_COUNT) (l ++ chunk)) rest)
          (enqueueIf ctl
             (if LAST_BYTES_COUNT <? length (l ++ chunk)
              then Some (take (length (l ++ chunk) - LAST_BYTES_COUNT) (l ++ chunk))
              else None))
          w.
Proof.
  intros Hnone. unfold Stream.pullOnce, srcPending.
  cbn -[extractPlaceholderChunk fetchOrCachePart LAST_BYTES_COUNT].
  rewrite app_nil_r. rewrite (extract_not_found _ _ _ Hnone).
  cbn -[LAST_BYTES_COUNT].
  by destruct (LAST_BYTES_COUNT <? length (l ++ chunk)), rest.
Qed.

(** The [pull] that meets the end of the body: the carry-over is scanned
    as final and emitted, and the next [pull] closes the stream. *)
Lemma pull_pending_end l ctl w fuel :
  found (extractPlaceholderChunk l pfx cfgs true) = None ->
  2 <= fuel ->
  exists src',
    pull fuel (pending l []) ctl w = Some (src', close (enqueue ctl l), w).
Proof.
  intros Hnone Hfuel.
  destruct fuel as [|[|fuel]]; [lia|lia|].
  cbn [Stream.pull]. unfold Stream.pullOnce at 1, srcPending.
  cbn -[extractPlaceholderChunk fetchOrCachePart Stream.pullOnce].
  rewrite (extract_not_found_final _ _ _ Hnone).
  cbn -[Stream.pullOnce]. unfold Stream.pullOnce. cbn. eauto.
Qed.

(** Draining a body in which no token is left: everything is emitted. *)
Lemma drain rest : forall l ctl w fuel,
  tokenPositions pfx cfgs (l ++ concat rest) = [] ->
  length rest + 2 <= fuel ->
  exists src' ctl',
    pull fuel (pending l rest) ctl w = Some (src', ctl', w) /\
    state ctl' = Closed /\
    emitted ctl' = emitted ctl ++ l ++ concat rest.
Proof.
  induction rest as [|chunk rest IH]; intros l ctl w fuel Hfree Hfuel.
  - cbn [concat] in *. rewrite app_nil_r in *.
    destruct (pull_pending_end l ctl w fuel) as [src' ->]; [|done|].
    + by apply extract_token_free.
    + eexists _, _. split; [done|]. split; [done|].
      by rewrite emitted_close, emitted_enqueue.
  - cbn [concat length] in *.
    destruct fuel as [|fuel]; [lia|]. cbn [Stream.pull].
    rewrite pullOnce_pending_chunk.
    2:{ apply extract_token_free; [done|].
        apply (tokenPositions_inside _ _ [] (l ++ chunk) (concat rest)); [done|].
        by rewrite <- app_assoc. }
    set (b := l ++ chunk). set (k := length b - LAST_BYTES_COUNT).
    destruct (IH (drop k b) (enqueueIf ctl (if LAST_BYTES_COUNT <? length b
                                             then Some (take k b) else None)) w fuel)
      as (src' & ctl' & -> & Hst & Hem); [|lia|].
    + apply (tokenPositions_inside _ _ (take k b) (drop k b ++ concat rest) []); [done|].
      rewrite app_nil_r, app_assoc, take_drop. unfold b. by rewrite <- app_assoc.
    + eexists _, _. split; [done|]. split; [done|].
      rewrite Hem, emitted_enqueueIf.
      assert (default [] (if LAST_BYTES_COUNT <? length b then Some (take k b) else None)
              = take k b) as ->.
      { destruct (Nat.ltb_spec LAST_BYTES_COUNT (length b)); [done|].
        cbn. replace k with 0 by (unfold k; lia). done. }
      rewrite <- !app_assoc, (app_assoc (take k b)), take_drop. unfold b.
      by rewrite <- app_assoc.
Qed.

(** The [pull] that receives the fragment: it is scanned like a chunk and
    its tail is carried over. *)
Lemma pullOnce_matched_fragment frag post1 rest ctl w :
  found (extractPlaceholderChunk frag pfx cfgs false) = None ->
  pullOnce (srcMatched pfx cfgs frag post1 rest) ctl w
  = Again {| reader := tail rest; prefixBytes := pfx; configs := cfgs;
             queue := [carryItem (drop (length frag - LAST_BYTES_COUNT) frag);
                       afterItem post1; readItem (head rest)];
             s_done := false |}
          (enqueueIf ctl
             (if LAST_BYTES_COUNT <? length frag
              then Some (take (length frag - LAST_BYTES_COUNT) frag) else None))
          w.
Proof.
  intros Hnone. unfold Stream.pullOnce, srcMatched.
  cbn -[extractPlaceholderChunk fetchOrCachePart LAST_BYTES_COUNT].
  rewrite (extract_not_found _ _ _ Hnone).
  cbn -[LAST_BYTES_COUNT].
  by destruct (LAST_BYTES_COUNT <? length frag).
Qed.

(** The [pull] that merges the tail of the fragment with the bytes after
    the token. *)
Lemma pullOnce_fragment_tail l post1 rest ctl w :
  found (extractPlaceholderChunk (l ++ post1) pfx cfgs false) = None ->
  pullOnce {| reader := tail rest; prefixBytes := pfx; configs := cfgs;
              queue := [carryItem l; afterItem post1; readItem (head rest)];
              s_done := false |} ctl w
  = Again (pending (drop (length (l ++ post1) - LAST_BYTES_COUNT) (l ++ post1)) rest)
          (enqueueIf ctl
             (if LAST_BYTES_COUNT <? length (l ++ post1)
              then Some (take (length (l ++ post1) - LAST_BYTES_COUNT) (l ++ post1))
              else None))
          w.
Proof.
  intros Hnone. unfold Stream.pullOnce, srcPending.
  cbn -[extractPlaceholderChunk fetchOrCachePart LAST_BYTES_COUNT].
  rewrite app_nil_r. rewrite (extract_not_found _ _ _ Hnone).
  cbn -[LAST_BYTES_COUNT].
  by destruct (LAST_BYTES_COUNT <? length (l ++ post1)).
Qed.

Lemma default_window (b : Uint8Array) :
  default [] (if LAST_BYTES_COUNT <? length b
              then Some (take (length b - LAST_BYTES_COUNT) b) else None)
  = take (length b - LAST_BYTES_COUNT) b.
Proof.
  destruct (Nat.ltb_spec LAST_BYTES_COUNT (length b)); [done|].
  cbn. by replace (length b - LAST_BYTES_COUNT) with 0 by lia.
Qed.

(** After the match: the fragment, the bytes after the token and the rest
    of the body are emitted in this order. *)
Lemma after_match frag post1 rest ctl w fuel :
  tokenPositions pfx cfgs (frag ++ post1 ++ concat rest) = [] ->
  length rest + 4 <= fuel ->
  exists src' ctl',
    pull fuel (srcMatched pfx cfgs frag post1 rest) ctl w
    = Some (src', ctl', w) /\
    state ctl' = Closed /\
    emitted ctl' = emitted ctl ++ frag ++ post1 ++ concat rest.
Proof.
  intros Hfree Hfuel.
  destruct fuel as [|[|fuel]]; [lia|lia|]. cbn [Stream.pull].
  rewrite pullOnce_matched_fragment.
  2:{ apply extract_token_free; [done|].
      by apply (tokenPositions_inside _ _ [] frag (post1 ++ concat rest)). }
  set (k1 := length frag - LAST_BYTES_COUNT).
  rewrite pullOnce_fragment_tail.
  2:{ apply extract_token_free; [done|].
      apply (tokenPositions_inside _ _ (take k1 frag) (drop k1 frag ++ post1) (concat rest));
        [done|].
      by rewrite <- !app_assoc, (app_assoc (take k1 frag)), take_drop. }
  set (b := drop k1 frag ++ post1). set (k2 := length b - LAST_BYTES_COUNT).
  match goal with |- context [Stream.pull fuel _ _ _ _ _ ?c _] => set (ctl2 := c) end.
  destruct (drain rest (drop k2 b) ctl2 w fuel) as (src' & ctl' & -> & Hst & Hem); [|lia|].
  - apply (tokenPositions_inside _ _ (take k1 frag ++ take k2 b)
             (drop k2 b ++ concat rest) []); [done|].
    rewrite app_nil_r. rewrite <- (app_assoc (take k1 frag)), (app_assoc (take k2 b)), take_drop.
    unfold b. by rewrite <- !app_assoc, (app_assoc (take k1 frag)), take_drop.
  - eexists _, _. split; [done|]. split; [done|].
    rewrite Hem. unfold ctl2. rewrite !emitted_enqueueIf, !default_window.
    fold k1 b k2.
    rewrite <- !app_assoc, (app_assoc (take k2 b)), take_drop. unfold b.
    by rewrite <- !app_assoc, (app_assoc (take k1 frag)), take_drop.
Qed.

(** The [pull] in which the token is matched: the bytes before it are
    emitted, and the fragment, the bytes after it and the next read are
    queued in this order. *)
Lemma pullOnce_pending_match l chunk rest ctl w m b a frag w' :
  extractPlaceholderChunk (l ++ chunk) pfx cfgs false
  = {| found := Some m; before := Some b; after := Some a; leftover := None |} ->
  fetchOrCachePart env w (part (m_config m)) siteId locale cacheId
  = (fragmentItem frag, w') ->
  pullOnce (pending l (chunk :: rest)) ctl w
  = Again (srcMatched pfx cfgs frag a rest) (enqueue ctl b) w'.
Proof.
  intros Hex Hfetch. unfold Stream.pullOnce, srcPending.
  cbn -[extractPlaceholderChunk fetchOrCachePart].
  rewrite app_nil_r, Hex. cbn -[fetchOrCachePart]. rewrite Hfetch.
  by destruct rest.
Qed.

(** The first [pull] finds the first read alone in the queue, which is the
    same as a read merged with an empty carry-over. *)
Lemma pullOnce_initial chunk rest ctl w :
  pullOnce {| reader := rest; prefixBytes := pfx; configs := cfgs;
              queue := [readItem (Some chunk)]; s_done := false |} ctl w
  = pullOnce (pending [] (chunk :: rest)) ctl w.
Proof.
  unfold Stream.pullOnce, srcPending.
  cbn -[extractPlaceholderChunk fetchOrCachePart].
  by rewrite app_nil_r.
Qed.

End Pulls.

(** ** A body with one token *)

Section SingleToken.
Variables (env : Env) (siteId locale : option string) (cacheId : string).
Variables (pre pfx tok post frag : Uint8Array).
Variables (c : PlaceholderConfig) (l1 l2 : list PlaceholderConfig).
Variables (w w' : World).
Hypothesis Htok : placeholderBytes c = tok.
Hypothesis Hfirst : forall a, In a l1 -> placeholderBytes a <> tok.
Hypothesis Hlens : suffix_lengths_ok (l1 ++ c :: l2).
Hypothesis Hpf : prefix_free_in (l1 ++ c :: l2).
Hypothesis Hprefix : pfx <> [].
Hypothesis Hmax : length pfx + length tok <= LAST_BYTES_COUNT + 1.
Hypothesis Hunique :
  tokenPositions pfx (l1 ++ c :: l2) (pre ++ pfx ++ tok ++ post) = [length pre].
Hypothesis Hlast :
  forall b, In b (drop (length pre - length pfx) pre) -> pfx !! 0 <> Some b.
Hypothesis Hout : tokenPositions pfx (l1 ++ c :: l2) (frag ++ post) = [].
Hypothesis Hfetch :
  fetchOrCachePart env w (part c) siteId locale cacheId = (fragmentItem frag, w').

Local Abbreviation cfgs := (l1 ++ c :: l2).
Local Abbreviation body := (pre ++ pfx ++ tok ++ post).
Local Abbreviation pull := (fun fuel => Stream.pull fuel env siteId locale cacheId).
Local Abbreviation pending := (srcPending pfx cfgs).

Lemma unique_position i :
  tokenAt pfx cfgs body i = true -> i = length pre.
Proof.
  intros Hi. apply tokenPositions_spec in Hi; [|done].
  rewrite Hunique in Hi. destruct Hi as [<-|[]]. done.
Qed.

(** A buffer that ends before the token does holds no token. *)
Lemma open_buffer_free n (b r : Uint8Array) :
  n <= length pre ->
  b ++ r = drop n pre ++ pfx ++ tok ++ post ->
  length b < length pre - n + length pfx + length tok ->
  tokenPositions pfx cfgs b = [].
Proof.
  intros Hn Heq Hlen.
  destruct (tokenPositions pfx cfgs b) as [|i l] eqn:Hb; [done|exfalso].
  assert (In i (tokenPositions pfx cfgs b)) as Hi by (rewrite Hb; by left).
  apply tokenPositions_spec in Hi; [|done].
  pose proof Hi as (cfg & Hin & [k Hk])%tokenAt_true.
  assert (i <= length b) as Hib.
  { destruct (Nat.le_gt_cases i (length b)); [done|].
    rewrite drop_ge in Hk by lia. by destruct pfx. }
  apply (tokenAt_inside _ _ (take n pre) b r) in Hi.
  rewrite Heq, (app_assoc (take n pre)), take_drop in Hi.
  apply unique_position in Hi. rewrite length_take in Hi.
  assert (i = length pre - n) as -> by lia.
  assert (length (pfx ++ placeholderBytes cfg) <= length b - (length pre - n)) as Hcl.
  { rewrite <- length_drop, Hk, !length_app. lia. }
  rewrite length_app in Hcl.
  assert (drop (length pre - n) (b ++ r) = pfx ++ tok ++ post) as Hd.
  { rewrite Heq. rewrite <- length_drop. by rewrite drop_app_length. }
  rewrite drop_app_le, Hk in Hd by done.
  rewrite <- !app_assoc in Hd. apply app_inv_head in Hd.
  assert (placeholderBytes cfg = take (length (placeholderBytes cfg)) tok) as Hpre.
  { apply (f_equal (take (length (placeholderBytes cfg)))) in Hd.
    rewrite take_app_length in Hd. by rewrite take_app_le in Hd by lia. }
  assert (placeholderBytes cfg `prefix_of` placeholderBytes c) as Hp.
  { rewrite Htok, Hpre. apply prefix_take. }
  apply Hpf in Hp; [|done|apply in_elt]. rewrite Htok in Hp. rewrite Hp in Hcl. lia.
Qed.

(** A buffer that reaches the end of the token is split around it. *)
Lemma closed_buffer_split n (b r : Uint8Array) isFinal :
  n <= length pre ->
  b ++ r = drop n pre ++ pfx ++ tok ++ post ->
  length pre - n + length pfx + length tok <= length b ->
  exists post1,
    post1 ++ r = post /\
    extractPlaceholderChunk b pfx cfgs isFinal
    = {| found := Some (token_match (drop n pre) pfx tok c);
         before := Some (drop n pre); after := Some post1; leftover := None |}.
Proof.
  intros Hn Heq Hlen.
  set (k := length b - (length (drop n pre) + length pfx + length tok)).
  assert (b = drop n pre ++ pfx ++ tok ++ take k post) as Hb.
  { rewrite <- (take_app_length b r), Heq.
    rewrite take_token_buffer by (rewrite length_drop; lia). done. }
  exists (take k post). split.
  - rewrite Hb in Heq. rewrite <- !app_assoc in Heq.
    by do 3 apply app_inv_head in Heq.
  - rewrite Hb. apply extract_token; try done.
    + intros x Hx. apply Hlast.
      rewrite drop_drop in Hx. rewrite length_drop in Hx.
      apply list_elem_of_In. apply list_elem_of_In in Hx.
      destruct (Nat.le_gt_cases (length pfx) (length pre - n)).
      * by replace (length pre - length pfx) with (n + (length pre - n - length pfx)) by lia.
      * replace (n + (length pre - n - length pfx)) with n in Hx by lia.
        replace n with ((length pre - length pfx) + (n - (length pre - length pfx))) in Hx
          by lia.
        rewrite <- drop_drop in Hx. by eapply subseteq_drop.
    + intros i Hi. apply not_true_is_false. intros Ht.
      apply (tokenAt_inside _ _ (take n pre) _ r) in Ht.
      rewrite <- Hb, Heq, (app_assoc (take n pre)), take_drop in Ht.
      apply unique_position in Ht. rewrite length_take, length_drop in *. lia.
Qed.

(** From a carry-over inside [pre] to the end of the stream. *)
Lemma before_match rest : forall l n ctl fuel,
  n <= length pre ->
  emitted ctl = take n pre ->
  l ++ concat rest = drop n pre ++ pfx ++ tok ++ post ->
  length l < length pre - n + length pfx + length tok ->
  length rest + 5 <= fuel ->
  exists src' ctl',
    pull fuel (pending l rest) ctl w = Some (src', ctl', w') /\
    state ctl' = Closed /\
    emitted ctl' = pre ++ frag ++ post.
Proof.
  induction rest as [|chunk rest IH]; intros l n ctl fuel Hn Hem Heq Hl Hfuel.
  - cbn [concat] in Heq. rewrite app_nil_r in Heq.
    apply (f_equal length) in Heq. rewrite !length_app, length_drop in Heq. lia.
  - cbn [concat length] in *. rewrite app_assoc in Heq.
    destruct fuel as [|fuel]; [lia|]. cbn [Stream.pull].
    destruct (Nat.lt_ge_cases (length (l ++ chunk))
                (length pre - n + length pfx + length tok)) as [Hopen|Hclosed].
    + pose proof (open_buffer_free n _ _ Hn Heq Hopen) as Hfree.
      rewrite pullOnce_pending_chunk by (by apply extract_token_free).
      set (b := l ++ chunk) in *. set (k := length b - LAST_BYTES_COUNT).
      assert (k <= length pre - n) as Hk by (unfold k; lia).
      assert (take k b = take k (drop n pre)) as Htk.
      { rewrite <- (take_app_le b (concat rest)) by (unfold k; lia).
        rewrite Heq. by rewrite take_app_le by (rewrite length_drop; lia). }
      apply (IH (drop k b) (n + k)); [lia| | | |lia].
      * rewrite emitted_enqueueIf, default_window, Hem. fold k.
        by rewrite Htk, take_take_drop.
      * rewrite <- (drop_app_le b (concat rest)) by (unfold k; lia).
        rewrite Heq. rewrite drop_app_le by (rewrite length_drop; lia).
        by rewrite drop_drop.
      * rewrite length_drop. unfold k. lia.
    + destruct (closed_buffer_split n _ _ false Hn Heq Hclosed) as (post1 & Hpost & Hex).
      erewrite pullOnce_pending_match; [|exact Hex|exact Hfetch].
      destruct (after_match env siteId locale cacheId pfx cfgs Hlens frag post1 rest
                  (enqueue ctl (drop n pre)) w' fuel)
        as (src' & ctl' & -> & Hst & Hem'); [by rewrite Hpost|lia|].
      eexists _, _. split; [done|]. split; [done|].
      by rewrite Hem', emitted_enqueue, Hem, take_drop, Hpost.
Qed.

(** The whole run of the stream on a body that holds the token once. *)
Lemma pull_single_token chunk rest fuel ctl :
  chunk ++ concat rest = pre ++ pfx ++ tok ++ post ->
  emitted ctl = [] ->
  length rest + 6 <= fuel ->
  exists src' ctl',
    pull fuel {| reader := rest; prefixBytes := pfx; configs := cfgs;
                 queue := [readItem (Some chunk)]; s_done := false |} ctl w
    = Some (src', ctl', w') /\
    state ctl' = Closed /\
    emitted ctl' = pre ++ frag ++ post.
Proof.
  intros Heq Hem Hfuel.
  pose proof (tok_len tok c l1 l2 Htok Hlens) as Htl.
  assert (pull fuel {| reader := rest; prefixBytes := pfx; configs := cfgs;
                       queue := [readItem (Some chunk)]; s_done := false |} ctl w
          = pull fuel (pending [] (chunk :: rest)) ctl w) as Hinit.
  { destruct fuel as [|fuel]; [done|]. cbn [Stream.pull]. by rewrite pullOnce_initial. }
  destruct (before_match (chunk :: rest) [] 0 ctl fuel) as (src' & ctl' & Hrun & Hrest);
    cbn [length concat app]; try lia.
  - by rewrite take_0.
  - by rewrite drop_0.
  - exists src', ctl'. by rewrite Hinit.
Qed.

End SingleToken.

End StreamFacts.

Import StreamSpec.

(** * The stream rewriter on a body with one token *)

(** C1 (as stated) fails for a token that is longer than the window the
    scanner carries from one chunk to the next. The token
    ["$swnavigation-sidebar$"] has 22 bytes and occurs once in the body,
    which arrives as ["<nav>$swnavigation-sidebar"] and ["$</nav>"]; its
    fragment resolves to ["INC"]. After the first chunk the last
    [LAST_BYTES_COUNT] bytes are kept, which no longer hold the first byte
    of the token, and the body is emitted unchanged. *)
Lemma long_token_across_chunks_is_not_replaced :
  let e := Sample.env Sample.includeNet true in
  let parts := [Sample.partFor "$swnavigation-sidebar$"] in
  let c := Sample.configFor "$swnavigation-sidebar$" in
  let page := Sample.htmlResponse ["<nav>$swnavigation-sidebar"; "$</nav>"]%string in
  let pre := encode "<nav>" in
  let post := encode "</nav>" in
  let siteId := headerGet (init_headers (buildInitHeaders page)) X_SF_CC_SITEID in
  let locale := headerGet (init_headers (buildInitHeaders page)) X_SF_CC_REQUESTLOCALE in
  encodePlaceholderConfigs parts = Some (encode "$sw", [c]) /\
  concat (body page) = pre ++ encode "$sw" ++ placeholderBytes c ++ post /\
  tokenPositions (encode "$sw") [c] (concat (body page)) = [length pre] /\
  LAST_BYTES_COUNT + 1 < length (encode "$sw") + length (placeholderBytes c) /\
  fst (fetchOrCachePart e Sample.emptyWorld (part c) siteId locale (CACHE_ID e))
  = fragmentItem (encode "INC") /\
  exists ctl w',
    rw_stream (createStream 10 e Sample.emptyWorld page parts (CACHE_ID e))
    = Some (ctl, w') /\
    state ctl = Closed /\
    emitted ctl = concat (body page) /\
    emitted ctl <> pre ++ encode "INC" ++ post.
Proof.
  cbn zeta. split; [vm_compute; reflexivity|].
  split; [vm_compute; reflexivity|].
  split; [vm_compute; reflexivity|].
  split; [vm_compute; lia|].
  split; [vm_compute; reflexivity|].
  eexists _, _. split; [vm_compute; reflexivity|].
  split; [vm_compute; reflexivity|].
  split; [vm_compute; reflexivity|].
  vm_compute. discriminate.
Qed.

(** C1 (amended): let the body of the upstream response be
    [pre ++ prefixBytes ++ tok ++ post], delivered in any chunks, where
    [prefixBytes ++ tok] is the token of the configured entry [c], of at
    most [LAST_BYTES_COUNT + 1] bytes; no configured suffix is a proper
    prefix of another one, and each has at least two bytes. If the token
    of [c] at [length pre] is the only occurrence of a configured token in
    the body, none of the [length prefixBytes] bytes before it equals the
    first byte of the prefix, no configured token occurs in the fragment
    followed by [post], and the fragment of [c] resolves to [frag], then
    the stream of [createStream] closes after emitting exactly
    [pre ++ frag ++ post]. *)
Theorem single_token_is_replaced
    (fuel : nat) (env : Env) (w w' : World) (baseResponse : Response)
    (parts : list CachedPart) (cacheId : string)
    (prefixBytes pre tok post frag : Uint8Array)
    (c : PlaceholderConfig) (l1 l2 : list PlaceholderConfig) :
  encodePlaceholderConfigs parts = Some (prefixBytes, l1 ++ c :: l2) ->
  placeholderBytes c = tok ->
  Forall (fun a => placeholderBytes a <> tok) l1 ->
  suffix_lengths_ok (l1 ++ c :: l2) ->
  prefix_free (l1 ++ c :: l2) ->
  length prefixBytes + length tok <= LAST_BYTES_COUNT + 1 ->
  concat (body baseResponse) = pre ++ prefixBytes ++ tok ++ post ->
  tokenPositions prefixBytes (l1 ++ c :: l2) (pre ++ prefixBytes ++ tok ++ post)
  = [length pre] ->
  Forall (fun b => prefixBytes !! 0 <> Some b)
         (drop (length pre - length prefixBytes) pre) ->
  tokenPositions prefixBytes (l1 ++ c :: l2) (frag ++ post) = [] ->
  fetchOrCachePart env w (part c)
    (headerGet (init_headers (buildInitHeaders baseResponse)) X_SF_CC_SITEID)
    (headerGet (init_headers (buildInitHeaders baseResponse)) X_SF_CC_REQUESTLOCALE)
    cacheId
  = (fragmentItem frag, w') ->
  length (body baseResponse) + 5 <= fuel ->
  exists ctl,
    rw_stream (createStream fuel env w baseResponse parts cacheId) = Some (ctl, w') /\
    state ctl = Closed /\
    emitted ctl = pre ++ frag ++ post.
Proof.
  intros Henc Htok Hfirst Hlens Hpf Hmax Hbody Hunique Hlast Hout Hfetch Hfuel.
  assert (prefixBytes <> []) as Hprefix.
  { unfold encodePlaceholderConfigs in Henc.
    destruct (encodeConfigs parts); [|done]. by injection Henc as <- _. }
  apply prefix_free_to_in in Hpf.
  rewrite List.Forall_forall in Hfirst. rewrite List.Forall_forall in Hlast.
  unfold createStream, runStream. cbn [rw_stream]. rewrite Henc.
  destruct (body baseResponse) as [|chunk rest] eqn:Hchunks.
  { cbn in Hbody. destruct pre, prefixBytes; done. }
  unfold readChunk. cbn [reader setQueue Stream.prefixBytes configs queue s_done length] in *.
  destruct (StreamFacts.pull_single_token env _ _ cacheId pre prefixBytes tok post frag
              c l1 l2 w w' Htok Hfirst Hlens Hpf Hprefix Hmax Hunique Hlast Hout Hfetch
              chunk rest fuel {| chunks := []; state := Readable |})
    as (src' & ctl' & Hrun & Hst & Hem); [done|done|lia|].
  change (readItem (Some chunk)) with
    (Resolved {| value := Some chunk; done := false; merge := false; isBase := true |})
    in Hrun.
  unfold setQueue. cbn [reader Stream.prefixBytes configs queue s_done].
  rewrite Hrun. by exists ctl'.
Qed.

Lemma single_token_is_replaced_witness :
  let e := Sample.env Sample.fragmentNet true in
  let page := Sample.htmlResponse ["<html>$swhe"; "ader$</html>"]%string in
  exists ctl w',
    rw_stream (createStream 7 e Sample.emptyWorld page
                 (cachedParts (serverPreparedData e)) (CACHE_ID e))
    = Some (ctl, w') /\
    state ctl = Closed /\
    emitted ctl = encode "<html>HDR</html>".
Proof.
  cbn zeta.
  destruct (single_token_is_replaced 7 (Sample.env Sample.fragmentNet true)
              Sample.emptyWorld
              (snd (fetchOrCachePart (Sample.env Sample.fragmentNet true)
                      Sample.emptyWorld Sample.headerPart (Some "RefArch"%string)
                      (Some "en_US"%string)
                      (CACHE_ID (Sample.env Sample.fragmentNet true))))
              (Sample.htmlResponse ["<html>$swhe"; "ader$</html>"]%string)
              (cachedParts (serverPreparedData (Sample.env Sample.fragmentNet true)))
              (CACHE_ID (Sample.env Sample.fragmentNet true))
              (encode "$sw") (encode "<html>") (encode "header$") (encode "</html>")
              (encode "HDR")
              {| part := Sample.headerPart; placeholderBytes := encode "header$" |}
              []
              [{| part := Sample.footerPart; placeholderBytes := encode "footer$" |}])
    as (ctl & Hrun & Hst & Hem).
  - vm_compute. reflexivity.
  - vm_compute. reflexivity.
  - constructor.
  - unfold suffix_lengths_ok. compute_done.
  - unfold prefix_free. compute_done.
  - vm_compute. lia.
  - vm_compute. reflexivity.
  - vm_compute. reflexivity.
  - compute_done.
  - vm_compute. reflexivity.
  - vm_compute. reflexivity.
  - vm_compute. lia.
  - exists ctl. eexists. split; [exact Hrun|]. split; [exact Hst|]. exact Hem.
Defined.

Import WorkerLists StreamViews Storefront Client Segments.

(** * Further properties of the scanner *)

Module StringFacts.

Lemma encode_app (a b : string) : encode (a ++ b) = encode a ++ encode b.
Proof.
  induction a as [|x a IH]; [done|].
  rewrite append_String. unfold encode, list_byte_of_string in *.
  cbn [list_ascii_of_string map]. by rewrite IH.
Qed.

Lemma substring_all (s : string) : String.substring 0 (String.length s) s = s.
Proof. induction s as [|x s IH]; [done|]. cbn. by rewrite IH. Qed.

Lemma dropStr_0 (s : string) : Js.dropStr 0 s = s.
Proof. unfold Js.dropStr. rewrite Nat.sub_0_r. apply substring_all. Qed.

Lemma dropStr_S k x (s : string) : Js.dropStr (S k) (String x s) = Js.dropStr k s.
Proof. reflexivity. Qed.

Lemma dropStr_empty k : Js.dropStr k "" = ""%string.
Proof. by destruct k. Qed.

Lemma dropStr_append (a b : string) : Js.dropStr (String.length a) (a ++ b) = b.
Proof.
  induction a as [|x a IH]; [apply dropStr_0|].
  rewrite append_String. cbn [String.length]. by rewrite dropStr_S.
Qed.

(** A string that starts with [p] is [p] followed by its tail. *)
Lemma prefix_split (p s : string) :
  String.prefix p s = true -> s = (p ++ Js.dropStr (String.length p) s)%string.
Proof.
  revert s. induction p as [|a p IH]; intros s.
  - intros _. by rewrite dropStr_0.
  - destruct s as [|b s]; [done|]. cbn [String.prefix].
    destruct (ascii_dec a b) as [->|]; [|done]. intros H.
    cbn [String.length]. rewrite dropStr_S, append_String. f_equal. by apply IH.
Qed.

End StringFacts.

(** ** Every reported match is a token of the buffer

    The buffer is [front ++ w] and the match loop starts at [length front].
    Every placeholder has at least two bytes after the prefix, and none is
    a strict prefix of another one. *)
Module ScanSoundness.

Lemma find_loop_found fuel bytes i idx cs allFinished :
  find_loop fuel bytes i idx cs allFinished true = (i, cs, true).
Proof.
  destruct fuel; cbn [find_loop]; [done|].
  by rewrite andb_false_r.
Qed.

Section Exact.
Variables (front w : Uint8Array) (configs : list PlaceholderConfig).
Hypothesis Hpf : prefix_free_in configs.

Local Abbreviation bytes := (front ++ w).
Local Abbreviation cand_inv := (ScannerSpec.cand_inv w configs).

(** When the loop raises [found], every candidate left in the array is a
    placeholder that stands right after the prefix, and [i] is one past
    its last byte. *)
Lemma find_loop_exact fuel : forall j cs allFinished i' cs',
  Forall (cand_inv j) cs ->
  find_loop fuel bytes (length front + j) j cs allFinished false = (i', cs', true) ->
  exists cd rest,
    cs' = cd :: rest /\
    In (c_config cd) configs /\
    c_length cd = length (placeholderBytes (c_config cd)) /\
    placeholderBytes (c_config cd) `prefix_of` w /\
    i' = length front + c_length cd.
Proof.
  induction fuel as [|fuel IH]; intros j cs aF i' cs' Hall; cbn [find_loop]; [done|].
  destruct (_ && _ && _ && _); [|done].
  rewrite for_candidates_spec. cbn [orb].
  rewrite List.Forall_forall in Hall.
  destruct (existsb _ _) eqn:Hex.
  - rewrite find_loop_found. intros [= <- <-].
    apply existsb_exists in Hex as (x & Hin & [Hfin Hmat]%andb_true_iff).
    apply in_map_iff in Hin as (cdw & <- & Hcdw).
    pose proof (gen_step_finished front w configs j cdw (Hall _ Hcdw) Hfin) as Hlw.
    destruct (gen_step_matched front w configs j cdw (Hall _ Hcdw) Hmat) as [_ Htw].
    destruct (Hall _ Hcdw) as (Hbw & Hlw' & Hinw & _).
    rewrite take_ge in Htw by lia.
    destruct (List.filter c_matched (map (step_candidate bytes (length front + j) j) cs))
      as [|x rest] eqn:Hf.
    { assert (In (step_candidate bytes (length front + j) j cdw) []) as [].
      rewrite <- Hf. apply filter_In. split; [|done]. apply in_map_iff. eauto. }
    assert (In x (x :: rest)) as Hx by (by left).
    rewrite <- Hf in Hx. apply filter_In in Hx as [Hx Hmx].
    apply in_map_iff in Hx as (cd & <- & Hcd).
    destruct (gen_step_matched front w configs j cd (Hall _ Hcd) Hmx) as [Hle Htake].
    destruct (Hall _ Hcd) as (Hb & Hl & Hin & _).
    assert (placeholderBytes (c_config cdw) = placeholderBytes (c_config cd)) as Heq.
    { apply Hpf; [done|done|]. rewrite <- Hbw, <- Hb, Htw, <- Htake. apply prefix_take. }
    assert (c_length cd = S j) as Hlen.
    { rewrite Hl, Hb, <- Heq, <- Hbw, <- Hlw'. done. }
    exists (step_candidate bytes (length front + j) j cd), rest.
    split; [done|]. cbn [step_candidate c_config c_length].
    split; [done|]. split; [by rewrite Hl, Hb|]. split; [|lia].
    rewrite <- Heq, <- Hbw, Htw. apply prefix_take.
  - replace (S (length front + j)) with (length front + S j) by lia.
    apply IH. apply List.Forall_forall.
    intros x [(cd & <- & Hcd)%in_map_iff Hmx]%filter_In.
    apply gen_step_inv; [auto|done|].
    apply not_true_is_false. intros Hfin.
    assert (existsb (fun c => c_finished c && c_matched c)
              (map (step_candidate (front ++ w) (length front + j) j) cs) = true) as Hex';
      [|congruence].
    apply existsb_exists. eexists. split; [apply in_map_iff; eauto|].
    by rewrite Hfin, Hmx.
Qed.

Lemma findMatchingPlaceholder_exact prefixBytes m :
  suffix_lengths_ok configs ->
  findMatchingPlaceholder bytes (length front) prefixBytes configs = Some m ->
  In (m_config m) configs /\
  placeholderBytes (m_config m) `prefix_of` w /\
  m_start m = (Z.of_nat (length front) - Z.of_nat (length prefixBytes))%Z /\
  m_end m = (Z.of_nat (length front + length (placeholderBytes (m_config m))) - 1)%Z.
Proof.
  intros Hlens. unfold findMatchingPlaceholder.
  destruct (find_loop _ _ _ _ _ _ _) as [[i cs'] fnd] eqn:Hrun.
  destruct fnd; [|done].
  replace (S (length front)) with (length front + 1) in Hrun by lia.
  apply find_loop_exact in Hrun as (cd & rest & -> & Hin & Hl & Hp & ->);
    [|by apply gen_init_inv].
  intros [= <-]. unfold m_config. cbn [m_cand m_start m_end].
  split; [done|]. split; [done|]. rewrite <- Hl. lia.
Qed.

End Exact.

Lemma scan_loop_exact prefixBytes configs (bytes : Uint8Array) fuel : forall p m,
  suffix_lengths_ok configs ->
  prefix_free_in configs ->
  scan_loop fuel bytes prefixBytes configs p = Some m ->
  exists q k,
    In (m_config m) configs /\
    drop q bytes = prefixBytes ++ placeholderBytes (m_config m) ++ k /\
    p <= q /\ q <= length bytes /\
    m_start m = Z.of_nat q /\
    m_end m = (Z.of_nat (q + length prefixBytes
                           + length (placeholderBytes (m_config m))) - 1)%Z.
Proof.
  induction fuel as [|fuel IH]; intros p m Hlens Hpf; cbn [scan_loop]; [done|].
  destruct (Nat.ltb_spec p (length bytes)) as [Hp|Hp]; [|done].
  destruct (match_prefix_spec bytes prefixBytes p) as (n & -> & Hn & Hlen & _ & Hfull);
    [lia|].
  destruct ((n =? length prefixBytes) && (p + n <? length bytes)) eqn:Hc.
  - apply andb_true_iff in Hc as [->%Nat.eqb_eq Hlt%Nat.ltb_lt].
    destruct (findMatchingPlaceholder bytes _ prefixBytes configs) as [m'|] eqn:Hfind.
    + intros [= ->]. destruct (Hfull eq_refl) as [t' Ht'].
      rewrite <- (take_drop (p + length prefixBytes) bytes) in Hfind.
      replace (p + length prefixBytes)
        with (length (take (p + length prefixBytes) bytes)) in Hfind at 3
        by (rewrite length_take; lia).
      apply findMatchingPlaceholder_exact in Hfind as (Hin & [t Ht] & Hs & He);
        [|done|done].
      rewrite length_take in Hs, He.
      assert (drop (length prefixBytes) (drop p bytes) = drop (p + length prefixBytes) bytes)
        as Hdd by (rewrite drop_drop; done).
      rewrite Ht' in Hdd. rewrite drop_app_length in Hdd.
      exists p, t. split; [done|]. split; [by rewrite Ht', Hdd, Ht|].
      split; [lia|]. split; [lia|]. split; [lia|]. rewrite He. f_equal. lia.
    + intros Hs. apply IH in Hs as (q & k & ? & ? & ? & ?); [|done|done].
      exists q, k. split; [done|]. split; [done|]. split; [lia|done].
  - intros Hs. apply IH in Hs as (q & k & ? & ? & ? & ?); [|done|done].
    exists q, k. split; [done|]. split; [done|]. split; [lia|done].
Qed.

End ScanSoundness.

(** ** What a scan reports *)

(** X1: Whenever the scanner reports a match in a configuration whose
    placeholders have at least two bytes after the prefix and of which none
    is a strict prefix of another, the reported entry is configured, and
    [before], the bytes of its token and [after] make up the buffer. *)
Theorem reported_match_reconstructs bytes prefixBytes configs isFinal :
  suffix_lengths_ok configs ->
  prefix_free configs ->
  (forall m,
     found (extractPlaceholderChunk bytes prefixBytes configs isFinal) = Some m ->
     In (m_config m) configs) /\
  reconstructs bytes prefixBytes configs isFinal.
Proof.
  intros Hlens Hpf%prefix_free_to_in.
  assert (forall m,
            found (extractPlaceholderChunk bytes prefixBytes configs isFinal) = Some m ->
            In (m_config m) configs /\
            default [] (before (extractPlaceholderChunk bytes prefixBytes configs isFinal))
            ++ (prefixBytes ++ placeholderBytes (m_config m))
            ++ default [] (after (extractPlaceholderChunk bytes prefixBytes configs isFinal))
            = bytes) as H.
  { intros m. rewrite extract_found_scan. unfold extractPlaceholderChunk.
    intros Hscan. rewrite Hscan. cbn [before after default from_option id].
    apply ScanSoundness.scan_loop_exact in Hscan
      as (q & k & Hin & Hdrop & _ & Hq & -> & ->); [|done|done].
    split; [done|].
    assert (q + length prefixBytes + length (placeholderBytes (m_config m))
            <= length bytes) as Hlen.
    { apply (f_equal length) in Hdrop. rewrite length_drop, !length_app in Hdrop. lia. }
    replace (Z.of_nat (q + length prefixBytes + length (placeholderBytes (m_config m)))
             - 1 + 1)%Z
      with (Z.of_nat (q + length prefixBytes + length (placeholderBytes (m_config m))))
      by lia.
    rewrite slice_0_nat, sliceFrom_nat by lia.
    rewrite <- (take_drop q bytes) at 3. f_equal.
    rewrite <- Nat.add_assoc, <- drop_drop, Hdrop.
    by rewrite (app_assoc prefixBytes), <- length_app, drop_app_length. }
  split; [intros m Hm; by apply H|].
  unfold reconstructs. cbn zeta. intros m Hm. by apply H.
Qed.

Lemma reported_match_reconstructs_witness :
  (forall m,
     found (extractPlaceholderChunk (encode "<p>$swfooter$</p>$swheader$") (encode "$sw")
              Sample.standardConfigs false) = Some m ->
     In (m_config m) Sample.standardConfigs) /\
  reconstructs (encode "<p>$swfooter$</p>$swheader$") (encode "$sw")
    Sample.standardConfigs false.
Proof.
  apply (reported_match_reconstructs (encode "<p>$swfooter$</p>$swheader$") (encode "$sw")
           Sample.standardConfigs false).
  - unfold suffix_lengths_ok. compute_done.
  - unfold prefix_free. compute_done.
Defined.

(** X4: A scan that reports no match loses no byte and repeats none: what it
    passes on and what it carries over make up the buffer; a final scan
    passes the whole buffer on and carries nothing over. *)
Theorem scan_without_match_keeps_every_byte bytes prefixBytes configs isFinal :
  let r := extractPlaceholderChunk bytes prefixBytes configs isFinal in
  found r = None ->
  default [] (before r) ++ default [] (leftover r) = bytes /\
  after r = None /\
  (if isFinal then before r = Some bytes /\ leftover r = None
   else is_Some (leftover r)).
Proof.
  cbn zeta. intros Hnone. destruct isFinal.
  - rewrite (extract_not_found_final _ _ _ Hnone).
    cbn [before leftover after default from_option id].
    by rewrite app_nil_r.
  - rewrite (extract_not_found _ _ _ Hnone).
    cbn [before leftover after default from_option id].
    split; [|done].
    destruct (Nat.ltb_spec LAST_BYTES_COUNT (length bytes)) as [Hlt|Hge];
      cbn [default from_option id].
    + by rewrite take_drop.
    + replace (length bytes - LAST_BYTES_COUNT) with 0 by lia. by rewrite drop_0.
Qed.

Lemma scan_without_match_keeps_every_byte_witness :
  let r := extractPlaceholderChunk (encode "<html><head><title>$swhead")
             (encode "$sw") Sample.standardConfigs false in
  before r = Some (encode "<html>") /\
  leftover r = Some (encode "<head><title>$swhead") /\
  (default [] (before r) ++ default [] (leftover r) = encode "<html><head><title>$swhead" /\
   after r = None /\
   is_Some (leftover r)).
Proof.
  split; [vm_compute; reflexivity|]. split; [vm_compute; reflexivity|].
  apply (scan_without_match_keeps_every_byte (encode "<html><head><title>$swhead")
           (encode "$sw") Sample.standardConfigs false).
  vm_compute. reflexivity.
Defined.

(** X2: In a configuration whose placeholders have at least two bytes after
    the prefix and of which none is a strict prefix of another, the first
    token of a buffer is the one reported, whatever follows it: when a
    configured token stands at [length pre], no configured token starts
    before it and none of the [length prefixBytes] bytes before it is the
    first byte of the prefix, the scanner reports this token, with the
    first entry of the configuration that has its bytes, passes [pre] on
    and leaves everything after the token, further tokens included, for
    the next scan. *)
Theorem first_token_is_reported (pre prefixBytes tok post : Uint8Array)
    (c : PlaceholderConfig) (l1 l2 : list PlaceholderConfig) (isFinal : bool) :
  placeholderBytes c = tok ->
  Forall (fun a => placeholderBytes a <> tok) l1 ->
  suffix_lengths_ok (l1 ++ c :: l2) ->
  prefix_free (l1 ++ c :: l2) ->
  Forall (fun b => prefixBytes !! 0 <> Some b)
         (drop (length pre - length prefixBytes) pre) ->
  Forall (fun i => tokenAt prefixBytes (l1 ++ c :: l2)
                     (pre ++ prefixBytes ++ tok ++ post) i = false)
         (seq 0 (length pre)) ->
  extractPlaceholderChunk (pre ++ prefixBytes ++ tok ++ post) prefixBytes
    (l1 ++ c :: l2) isFinal
  = {| found := Some (token_match pre prefixBytes tok c); before := Some pre;
       after := Some post; leftover := None |}.
Proof.
  intros Htok Hfirst Hlens Hpf%prefix_free_to_in Hlast Hnone.
  rewrite List.Forall_forall in Hfirst. rewrite List.Forall_forall in Hlast.
  rewrite List.Forall_forall in Hnone.
  apply extract_token; try done.
  intros i Hi. apply Hnone, in_seq. lia.
Qed.

Lemma first_token_is_reported_witness :
  extractPlaceholderChunk (encode "<p>$s</p>$swfooter$<hr>$swheader$") (encode "$sw")
    Sample.standardConfigs false
  = {| found := Some (token_match (encode "<p>$s</p>") (encode "$sw") (encode "footer$")
                        {| part := Sample.footerPart;
                           placeholderBytes := encode "footer$" |});
       before := Some (encode "<p>$s</p>");
       after := Some (encode "<hr>$swheader$");
       leftover := None |}.
Proof.
  apply (first_token_is_reported (encode "<p>$s</p>") (encode "$sw") (encode "footer$")
           (encode "<hr>$swheader$")
           {| part := Sample.footerPart; placeholderBytes := encode "footer$" |}
           [{| part := Sample.headerPart; placeholderBytes := encode "header$" |}] []
           false).
  - reflexivity.
  - repeat constructor. vm_compute. discriminate.
  - unfold suffix_lengths_ok. compute_done.
  - unfold prefix_free. compute_done.
  - compute_done.
  - compute_done.
Defined.

(** * Further properties of the stream rewriter *)

Module EncodeFacts.
Import StringFacts.

Lemma stripPrefix_Some p s t :
  stripPrefix p s = Some t -> s = (p ++ t)%string.
Proof.
  unfold stripPrefix. destruct (String.prefix p s) eqn:Hp; [|done].
  intros [= <-]. by apply prefix_split.
Qed.

Lemma encodeConfigs_Some parts : forall configs,
  encodeConfigs parts = Some configs ->
  map part configs = parts /\
  Forall (fun cfg => encode PLACEHOLDER_PREFIX ++ placeholderBytes cfg
                     = encode (placeholder (part cfg))) configs.
Proof.
  induction parts as [|c parts IH]; intros configs; cbn [encodeConfigs].
  - intros [= <-]. by split.
  - destruct (stripPrefix PLACEHOLDER_PREFIX (placeholder c)) as [t|] eqn:Ht; [|done].
    destruct (encodeConfigs parts) as [cs|]; [|done]. intros [= <-].
    destruct (IH cs eq_refl) as [Hm Hf]. cbn [map part]. split; [by rewrite Hm|].
    constructor; [|done]. cbn [part placeholderBytes].
    apply stripPrefix_Some in Ht. by rewrite Ht, encode_app.
Qed.

Lemma encodeConfigs_None parts :
  encodeConfigs parts = None <->
  Exists (fun c => String.prefix PLACEHOLDER_PREFIX (placeholder c) = false) parts.
Proof.
  induction parts as [|c parts IH]; cbn [encodeConfigs].
  - split; [done|]. by intros ?%Exists_nil.
  - rewrite Exists_cons. unfold stripPrefix. split.
    + destruct (String.prefix PLACEHOLDER_PREFIX (placeholder c)); [|by left].
      destruct (encodeConfigs parts); [done|]. intros _. right. by apply IH.
    + intros [->|H]; [done|]. apply IH in H. rewrite H.
      by destruct (String.prefix PLACEHOLDER_PREFIX (placeholder c)).
Qed.

End EncodeFacts.

(** X5: What [encodePlaceholderConfigs] returns keeps the parts in their order,
    and the prefix followed by the bytes stored for an entry are the bytes
    of its placeholder. *)
Theorem encoded_entries_spell_the_placeholders parts prefixBytes configs :
  encodePlaceholderConfigs parts = Some (prefixBytes, configs) ->
  prefixBytes = encode PLACEHOLDER_PREFIX /\
  map part configs = parts /\
  Forall (fun cfg => prefixBytes ++ placeholderBytes cfg
                     = encode (placeholder (part cfg))) configs.
Proof.
  unfold encodePlaceholderConfigs.
  destruct (encodeConfigs parts) as [cs|] eqn:Hcs; [|done].
  intros [= <- <-]. split; [done|]. by apply EncodeFacts.encodeConfigs_Some.
Qed.

Lemma encoded_entries_spell_the_placeholders_witness :
  encode PLACEHOLDER_PREFIX = encode PLACEHOLDER_PREFIX /\
  map part Sample.standardConfigs = [Sample.headerPart; Sample.footerPart] /\
  Forall (fun cfg => encode PLACEHOLDER_PREFIX ++ placeholderBytes cfg
                     = encode (placeholder (part cfg))) Sample.standardConfigs.
Proof.
  apply (encoded_entries_spell_the_placeholders [Sample.headerPart; Sample.footerPart]
           (encode PLACEHOLDER_PREFIX) Sample.standardConfigs).
  vm_compute. reflexivity.
Defined.

(** X6: A configuration in which one placeholder does not start with the
    prefix is rejected, and the stream of [createStream] is then errored
    before it reads the body, emits a byte or resolves a fragment, whatever
    the body holds. *)
Theorem foreign_placeholder_errors_the_stream fuel env w baseResponse parts cacheId :
  Exists (fun c => String.prefix PLACEHOLDER_PREFIX (placeholder c) = false) parts ->
  encodePlaceholderConfigs parts = None /\
  rw_stream (createStream fuel env w baseResponse parts cacheId)
  = Some ({| chunks := []; state := Errored |}, w).
Proof.
  intros Hbad%EncodeFacts.encodeConfigs_None.
  assert (encodePlaceholderConfigs parts = None) as Hnone
    by (unfold encodePlaceholderConfigs; by rewrite Hbad).
  split; [done|].
  unfold createStream, runStream. cbn [rw_stream]. by rewrite Hnone.
Qed.

Lemma foreign_placeholder_errors_the_stream_witness :
  let e := Sample.env Sample.fragmentNet true in
  let parts := [Sample.headerPart; Sample.partFor "{{footer}}"] in
  encodePlaceholderConfigs parts = None /\
  rw_stream (createStream 20 e Sample.emptyWorld
               (Sample.htmlResponse ["<html>$swheader$</html>"]%string) parts (CACHE_ID e))
  = Some ({| chunks := []; state := Errored |}, Sample.emptyWorld).
Proof.
  apply (foreign_placeholder_errors_the_stream 20 (Sample.env Sample.fragmentNet true)
           Sample.emptyWorld (Sample.htmlResponse ["<html>$swheader$</html>"]%string)
           [Sample.headerPart; Sample.partFor "{{footer}}"]
           (CACHE_ID (Sample.env Sample.fragmentNet true))).
  apply Exists_cons_tl, Exists_cons_hd. vm_compute. reflexivity.
Defined.

(** X10: A body in which no configured token occurs is passed through as it
    is, however it is split into chunks and also when it is empty: the
    stream emits the bytes of the body, closes, and leaves the caches and
    the network alone. *)
Theorem token_free_body_passes_through fuel env w baseResponse parts cacheId
    prefixBytes configs :
  encodePlaceholderConfigs parts = Some (prefixBytes, configs) ->
  suffix_lengths_ok configs ->
  tokenPositions prefixBytes configs (concat (body baseResponse)) = [] ->
  length (body baseResponse) + 2 <= fuel ->
  exists ctl,
    rw_stream (createStream fuel env w baseResponse parts cacheId) = Some (ctl, w) /\
    state ctl = Closed /\
    emitted ctl = concat (body baseResponse).
Proof.
  intros Henc Hlens Hfree Hfuel.
  unfold createStream, runStream. cbn [rw_stream]. rewrite Henc.
  destruct (body baseResponse) as [|chunk rest] eqn:Hchunks.
  - destruct fuel as [|fuel]; [cbn in Hfuel; lia|].
    eexists. cbn. split; [reflexivity|]. done.
  - unfold readChunk. cbn [reader]. unfold setQueue.
    cbn [reader Stream.prefixBytes Stream.configs queue s_done].
    set (siteId := headerGet _ X_SF_CC_SITEID).
    set (locale := headerGet _ X_SF_CC_REQUESTLOCALE).
    destruct (StreamFacts.drain env siteId locale cacheId prefixBytes configs Hlens
                (chunk :: rest) [] {| chunks := []; state := Readable |} w fuel)
      as (src' & ctl' & Hrun & Hst & Hem); [done|done|].
    assert (pull fuel env siteId locale cacheId
              {| reader := rest; Stream.prefixBytes := prefixBytes;
                 Stream.configs := configs;
                 queue := [readItem (Some chunk)]; s_done := false |}
              {| chunks := []; state := Readable |} w
            = Some (src', ctl', w)) as Hinit.
    { rewrite <- Hrun. destruct fuel as [|fuel']; [done|]. cbn [pull].
      by rewrite StreamFacts.pullOnce_initial. }
    change (readItem (Some chunk)) with
      (Resolved {| value := Some chunk; done := false; merge := false; isBase := true |})
      in Hinit.
    rewrite Hinit. by exists ctl'.
Qed.

Lemma token_free_body_passes_through_witness :
  let e := Sample.env Sample.fragmentNet true in
  let page := Sample.htmlResponse ["<html><body>$swhea"; "der</body>"; ""; "</html>"]%string in
  exists ctl,
    rw_stream (createStream 6 e Sample.emptyWorld page
                 (cachedParts (serverPreparedData e)) (CACHE_ID e))
    = Some (ctl, Sample.emptyWorld) /\
    state ctl = Closed /\
    emitted ctl = concat (body page).
Proof.
  apply (token_free_body_passes_through 6 (Sample.env Sample.fragmentNet true)
           Sample.emptyWorld
           (Sample.htmlResponse ["<html><body>$swhea"; "der</body>"; ""; "</html>"]%string)
           (cachedParts (serverPreparedData (Sample.env Sample.fragmentNet true)))
           (CACHE_ID (Sample.env Sample.fragmentNet true))
           (encode "$sw") Sample.standardConfigs).
  - vm_compute. reflexivity.
  - unfold suffix_lengths_ok. compute_done.
  - vm_compute. reflexivity.
  - vm_compute. lia.
Defined.

(** ** A fragment that holds its own placeholder *)

Module LoopFacts.

Lemma extract_found_shape bytes prefixBytes configs isFinal m :
  found (extractPlaceholderChunk bytes prefixBytes configs isFinal) = Some m ->
  extractPlaceholderChunk bytes prefixBytes configs isFinal
  = {| found := Some m;
       before := Some (slice bytes 0 (m_start m));
       after := Some (sliceFrom bytes (m_end m + 1));
       leftover := None |}.
Proof.
  rewrite extract_found_scan. unfold extractPlaceholderChunk. by intros ->.
Qed.

Lemma mergeLoop_no_merge item q : merge item = false -> mergeLoop item q = Some (item, q).
Proof. intros H. destruct q; cbn [mergeLoop]; by rewrite H. Qed.

(** The [pull] that receives such a fragment puts the same fragment back
    at the head of the queue. *)
Lemma pullOnce_same_fragment env siteId locale cacheId rd pfx cfgs frag m q ctl w :
  found (extractPlaceholderChunk frag pfx cfgs false) = Some m ->
  fetchOrCachePart env w (part (m_config m)) siteId locale cacheId
  = (fragmentItem frag, w) ->
  pullOnce env siteId locale cacheId
    {| reader := rd; prefixBytes := pfx; configs := cfgs;
       queue := fragmentItem frag :: q; s_done := false |} ctl w
  = Again {| reader := rd; prefixBytes := pfx; configs := cfgs;
             queue := fragmentItem frag
                      :: afterItem (sliceFrom frag (m_end m + 1)) :: q;
             s_done := false |}
          (enqueue ctl (slice frag 0 (m_start m))) w.
Proof.
  intros Hfound Hhit. unfold pullOnce, fragmentItem.
  cbn [queue s_done nonempty negb orb nextFromQueue].
  rewrite mergeLoop_no_merge by done.
  cbn -[extractPlaceholderChunk fetchOrCachePart].
  rewrite (extract_found_shape _ _ _ _ _ Hfound).
  cbn -[fetchOrCachePart]. by rewrite Hhit.
Qed.

End LoopFacts.

(** X12: A fragment in which the scanner finds the placeholder that resolves to
    this very fragment is never done with: every [pull] emits the bytes
    before the placeholder and queues the fragment again, so the stream
    neither closes nor errors, however long it runs. *)
Theorem self_including_fragment_never_closes env siteId locale cacheId
    rd pfx cfgs frag m w :
  found (extractPlaceholderChunk frag pfx cfgs false) = Some m ->
  fetchOrCachePart env w (part (m_config m)) siteId locale cacheId
  = (fragmentItem frag, w) ->
  forall fuel q ctl,
    pull fuel env siteId locale cacheId
      {| reader := rd; prefixBytes := pfx; configs := cfgs;
         queue := fragmentItem frag :: q; s_done := false |} ctl w
    = None.
Proof.
  intros Hfound Hhit fuel.
  induction fuel as [|fuel IH]; intros q ctl; [done|].
  cbn [pull]. rewrite (LoopFacts.pullOnce_same_fragment _ _ _ _ _ _ _ _ _ _ _ _ Hfound Hhit).
  apply IH.
Qed.

Lemma self_including_fragment_never_closes_witness :
  let e := Sample.env Sample.fragmentNet true in
  let w := Sample.worldWith e
             [("RefArch.en_US.header"%string,
               Sample.textResponse 200 "<b>$swheader$</b>")] in
  rw_stream (createStream 40 e w (Sample.htmlResponse ["<html>$swheader$</html>"]%string)
               (cachedParts (serverPreparedData e)) (CACHE_ID e)) = None /\
  pull 1000 e (Some "RefArch"%string) (Some "en_US"%string) (CACHE_ID e)
    {| reader := []; prefixBytes := encode "$sw"; configs := Sample.standardConfigs;
       queue := [fragmentItem (encode "<b>$swheader$</b>")]; s_done := false |}
    {| chunks := []; state := Readable |} w
  = None.
Proof.
  split; [vm_compute; reflexivity|].
  eapply (self_including_fragment_never_closes (Sample.env Sample.fragmentNet true)
            (Some "RefArch"%string) (Some "en_US"%string)
            (CACHE_ID (Sample.env Sample.fragmentNet true)) [] (encode "$sw")
            Sample.standardConfigs (encode "<b>$swheader$</b>")).
  - vm_compute. reflexivity.
  - vm_compute. reflexivity.
Defined.

(** ** [buildInitHeaders] *)

Module HeaderFacts.

Lemma headerGet_objSet o k v k' :
  headerGet (objSet o k v) k' = if String.eqb k k' then Some v else headerGet o k'.
Proof.
  induction o as [|[k0 v0] o IH]; cbn [objSet headerGet].
  - done.
  - destruct (String.eqb_spec k0 k) as [->|Hne]; cbn [headerGet].
    + by destruct (String.eqb_spec k k').
    + rewrite IH. destruct (String.eqb_spec k0 k') as [->|]; [|done].
      by destruct (String.eqb_spec k k').
Qed.

Lemma headerGet_None h k : ~ In k (map fst h) -> headerGet h k = None.
Proof.
  induction h as [|[k0 v0] h IH]; cbn [headerGet map fst]; [done|].
  intros Hnot. destruct (String.eqb_spec k0 k) as [->|].
  - exfalso. apply Hnot. by left.
  - apply IH. intros ?. apply Hnot. by right.
Qed.

Lemma headerGet_fold h : forall o k,
  List.NoDup (map fst h) ->
  headerGet (fold_left (fun o kv => objSet o (fst kv) (snd kv)) h o) k
  = match headerGet h k with
    | Some v => Some v
    | None => headerGet o k
    end.
Proof.
  induction h as [|[k0 v0] h IH]; intros o k Hnd; cbn [fold_left headerGet fst snd]; [done|].
  cbn [map fst] in Hnd. apply List.NoDup_cons_iff in Hnd as [Hnot Hnd].
  rewrite IH by done. rewrite headerGet_objSet.
  destruct (String.eqb_spec k0 k) as [->|]; [|done].
  by rewrite headerGet_None.
Qed.

End HeaderFacts.

(** X7: The [init] of the rewritten response keeps the status, the status
    text and every header of the upstream response, and adds the marker
    [X-ServedByServiceWorker: true]; the site and the locale that
    [createStream] builds the cache keys from are the two headers of the
    upstream response. *)
Theorem init_keeps_the_upstream_headers (fromResponse : Response) (name : string) :
  List.NoDup (map fst (resp_headers fromResponse)) ->
  let init := buildInitHeaders fromResponse in
  init_status init = status fromResponse /\
  init_statusText init = statusText fromResponse /\
  headerGet (init_headers init) name
  = match headerGet (resp_headers fromResponse) name with
    | Some v => Some v
    | None => if String.eqb name "X-ServedByServiceWorker" then Some "true"%string else None
    end.
Proof.
  intros Hnd. cbn zeta. unfold buildInitHeaders.
  cbn [init_status init_statusText init_headers].
  split; [done|]. split; [done|].
  rewrite HeaderFacts.headerGet_fold by done.
  destruct (headerGet (resp_headers fromResponse) name); [done|].
  cbn [headerGet]. by rewrite String.eqb_sym.
Qed.

Lemma init_keeps_the_upstream_headers_witness :
  let init := buildInitHeaders (Sample.htmlResponse ["<html></html>"]%string) in
  init_status init = 200 /\
  init_statusText init = "OK"%string /\
  headerGet (init_headers init) X_SF_CC_SITEID
  = match headerGet (resp_headers (Sample.htmlResponse ["<html></html>"]%string))
            X_SF_CC_SITEID with
    | Some v => Some v
    | None => if String.eqb X_SF_CC_SITEID "X-ServedByServiceWorker"
              then Some "true"%string else None
    end.
Proof.
  apply (init_keeps_the_upstream_headers (Sample.htmlResponse ["<html></html>"]%string)
           X_SF_CC_SITEID).
  cbn. repeat constructor; cbn; intros H; decompose [or] H; done.
Defined.

(** ** [fetchOrCachePart] *)

Module PartFacts.

Lemma cachesMatch_update_hit cs name key r :
  cachesMatch cs key = None ->
  is_Some (cachesGet cs name) ->
  cachesMatch (cachesUpdate cs name (fun c => <[key := r]> c)) key = Some r.
Proof.
  induction cs as [|[n c] cs IH]; cbn [cachesMatch cachesGet cachesUpdate].
  - by intros _ [? ?].
  - destruct (c !! key) eqn:Hc; [done|]. intros Hrest Hsome.
    destruct (String.eqb_spec n name) as [->|Hne]; cbn [cachesMatch].
    + by rewrite lookup_insert_eq.
    + rewrite Hc. by apply IH.
Qed.

Lemma cachesMatch_open cs name key :
  cachesMatch (cachesOpen cs name) key = cachesMatch cs key.
Proof.
  unfold cachesOpen. destruct (cachesGet cs name); [done|].
  induction cs as [|[n c] cs IH]; cbn [cachesMatch app].
  - by rewrite lookup_empty.
  - by destruct (c !! key).
Qed.

Lemma cachesOpen_update_open cs name f :
  cachesOpen (cachesUpdate (cachesOpen cs name) name f) name
  = cachesUpdate (cachesOpen cs name) name f.
Proof.
  unfold cachesOpen at 1. rewrite cachesGet_update, String.eqb_refl.
  by destruct (cachesGet_open_is_Some cs name) as [c ->].
Qed.

(** The first cache, in creation order, that holds the key decides. *)
Lemma cachesMatch_first cs1 name c cs2 key r :
  Forall (fun e => snd e !! key = None) cs1 ->
  c !! key = Some r ->
  cachesMatch (cs1 ++ (name, c) :: cs2) key = Some r.
Proof.
  intros Hall Hc. induction Hall as [|[n c1] cs1 Hn _ IH]; cbn [cachesMatch app].
  - by rewrite Hc.
  - cbn [snd] in Hn. by rewrite Hn.
Qed.

End PartFacts.

(** X8: A part that no cache holds is fetched from its localized URL, and its
    body is the fragment whatever the status of the response. A response
    with an [ok] status is stored, so that the next resolution of the part
    is answered from the cache without a request; any other response is
    not stored. *)
Theorem fetched_part_is_cached_when_ok env w partConfig siteId locale cacheId resp :
  let key := keyUrl env (partKey siteId locale (part_cacheSuffix partConfig)) in
  let request :=
    newRequest (resolveUrl env (localizedUrl env (part_url partConfig)
                                  (Js.template siteId) (Js.template locale))) in
  let w1 := snd (fetchOrCachePart env w partConfig siteId locale cacheId) in
  cachesMatch (caches w) key = None ->
  net env request = Some resp ->
  fst (fetchOrCachePart env w partConfig siteId locale cacheId)
  = fragmentItem (arrayBuffer resp) /\
  fetched w1 = fetched w ++ [request] /\
  (if ok resp
   then fetchOrCachePart env w1 partConfig siteId locale cacheId
        = (fragmentItem (arrayBuffer resp), w1)
   else caches w1 = caches w).
Proof.
  cbn zeta. intros Hmiss Hnet.
  set (key := keyUrl env (partKey siteId locale (part_cacheSuffix partConfig))) in *.
  set (request := newRequest _) in *.
  set (w0 := {| caches := caches w; fetched := fetched w ++ [request] |}).
  assert (fetchOrCachePart env w partConfig siteId locale cacheId
          = (fragmentItem (arrayBuffer resp),
             if ok resp
             then {| caches := cachePut (cachesOpen (caches w0) cacheId) cacheId key resp;
                     fetched := fetched w0 |}
             else w0)) as ->.
  { unfold fetchOrCachePart. fold key. rewrite Hmiss. fold request.
    unfold fetch. by rewrite Hnet. }
  cbn [fst snd]. split; [done|].
  destruct (ok resp) eqn:Hok; cbn [fetched caches w0]; [|done].
  split; [done|].
  unfold fetchOrCachePart. fold key. cbn [caches]. unfold cachePut.
  rewrite PartFacts.cachesMatch_update_hit; [done| |apply cachesGet_open_is_Some].
  by rewrite PartFacts.cachesMatch_open.
Qed.

Lemma fetched_part_is_cached_when_ok_witness :
  let e := Sample.env Sample.fragmentNet true in
  let w1 := snd (fetchOrCachePart e Sample.emptyWorld Sample.headerPart
                   (Some "RefArch"%string) (Some "en_US"%string) (CACHE_ID e)) in
  fst (fetchOrCachePart e Sample.emptyWorld Sample.headerPart
         (Some "RefArch"%string) (Some "en_US"%string) (CACHE_ID e))
  = fragmentItem (encode "HDR") /\
  fetched w1
  = [newRequest "https://shop.example/on/demandware.store/Sites-RefArch-Site/en_US/Page-IncludeHeaderMenu?sw=true"] /\
  fetchOrCachePart e w1 Sample.headerPart (Some "RefArch"%string) (Some "en_US"%string)
    (CACHE_ID e)
  = (fragmentItem (encode "HDR"), w1).
Proof.
  apply (fetched_part_is_cached_when_ok (Sample.env Sample.fragmentNet true)
           Sample.emptyWorld Sample.headerPart (Some "RefArch"%string)
           (Some "en_US"%string) (CACHE_ID (Sample.env Sample.fragmentNet true))
           (Sample.htmlResponse ["HDR"]%string)).
  - reflexivity.
  - vm_compute. reflexivity.
Defined.

(** X9: A part is resolved from the first cache, in creation order, that holds
    its key, whatever the name of that cache: an entry that an earlier
    generation stored is used without a request, and the world is left as
    it is. *)
Theorem part_is_served_from_the_first_cache env w partConfig siteId locale cacheId
    cs1 name c cs2 r :
  let key := keyUrl env (partKey siteId locale (part_cacheSuffix partConfig)) in
  caches w = cs1 ++ (name, c) :: cs2 ->
  Forall (fun e => snd e !! key = None) cs1 ->
  c !! key = Some r ->
  fetchOrCachePart env w partConfig siteId locale cacheId
  = (fragmentItem (arrayBuffer r), w).
Proof.
  cbn zeta. intros Hcs Hall Hc. unfold fetchOrCachePart.
  by rewrite Hcs, (PartFacts.cachesMatch_first _ _ _ _ _ _ Hall Hc).
Qed.

Lemma part_is_served_from_the_first_cache_witness :
  let e := Sample.env Sample.fragmentNet true in
  fetchOrCachePart e (world Sample.hostWithTwoGenerations) Sample.headerPart
    (Some "RefArch"%string) (Some "en_US"%string) (CACHE_ID e)
  = (fragmentItem (encode "old"), world Sample.hostWithTwoGenerations).
Proof.
  apply (part_is_served_from_the_first_cache (Sample.env Sample.fragmentNet true)
           (world Sample.hostWithTwoGenerations) Sample.headerPart
           (Some "RefArch"%string) (Some "en_US"%string)
           (CACHE_ID (Sample.env Sample.fragmentNet true))
           [] Sample.earlierGeneration
           {[ keyUrl (Sample.env Sample.fragmentNet false) "RefArch.en_US.header"
              := Sample.textResponse 200 "old" ]}
           [(Sample.generation,
             {[ keyUrl (Sample.env Sample.fragmentNet false) "RefArch.en_US.header"
                := Sample.textResponse 200 "HDR" ]})]
           (Sample.textResponse 200 "old")).
  - reflexivity.
  - constructor.
  - vm_compute. reflexivity.
Defined.

(** * Further properties of the worker *)

(** ** The invalidation map *)

Module MapFacts.

Lemma mapGet_mapPush m u s u' :
  mapGet (mapPush m u s) u'
  = if String.eqb u u' then Some (default [] (mapGet m u') ++ [s]) else mapGet m u'.
Proof.
  induction m as [|[k v] m IH]; cbn [mapPush mapGet].
  - by destruct (String.eqb u u').
  - destruct (String.eqb_spec k u) as [->|Hne]; cbn [mapGet].
    + by destruct (String.eqb_spec u u').
    + rewrite IH. destruct (String.eqb_spec k u') as [->|]; [|done].
      by destruct (String.eqb_spec u u').
Qed.

Lemma keys_mapPush m u s k :
  In k (map fst (mapPush m u s)) <-> k = u \/ In k (map fst m).
Proof.
  induction m as [|[k0 v] m IH]; cbn [mapPush map fst In].
  - intuition congruence.
  - destruct (String.eqb_spec k0 u) as [->|Hne]; cbn [map fst In]; [intuition congruence|].
    rewrite IH. intuition congruence.
Qed.

Lemma NoDup_mapPush m u s :
  List.NoDup (map fst m) -> List.NoDup (map fst (mapPush m u s)).
Proof.
  induction m as [|[k0 v] m IH]; cbn [mapPush map fst].
  - intros _. repeat constructor. by intros [].
  - intros [Hnot Hnd]%List.NoDup_cons_iff.
    destruct (String.eqb_spec k0 u) as [->|Hne]; cbn [map fst].
    + by constructor.
    + constructor; [|by apply IH]. rewrite keys_mapPush. intuition congruence.
Qed.

Lemma filled_mapPush m u s : filled m -> filled (mapPush m u s).
Proof.
  intros Hm u'. rewrite mapGet_mapPush.
  destruct (String.eqb u u'); [|apply Hm].
  intros [= H]. by destruct (default [] (mapGet m u')).
Qed.

Lemma pushTriggers_spec triggers s : forall m u,
  let m' := fold_left (fun m t => mapPush m t s) triggers m in
  default [] (mapGet m' u) = default [] (mapGet m u) ++ pushes u s triggers /\
  (filled m -> filled m') /\
  (List.NoDup (map fst m) -> List.NoDup (map fst m')).
Proof.
  induction triggers as [|t triggers IH]; intros m u; cbn [fold_left pushes flat_map].
  - by rewrite app_nil_r.
  - destruct (IH (mapPush m t s) u) as (Hget & Hfill & Hnd). fold (pushes u s triggers).
    split; [|split].
    + rewrite Hget, mapGet_mapPush.
      destruct (String.eqb t u); cbn [default from_option id]; [|done].
      by rewrite <- app_assoc.
    + intros ?. by apply Hfill, filled_mapPush.
    + intros ?. by apply Hnd, NoDup_mapPush.
Qed.

Lemma pushAll_spec {A} (suffix : A -> string) (triggers : A -> list string) entries :
  forall m u,
  let m' := fold_left (fun m e =>
                         fold_left (fun m t => mapPush m t (suffix e)) (triggers e) m)
                      entries m in
  default [] (mapGet m' u)
  = default [] (mapGet m u) ++ flat_map (fun e => pushes u (suffix e) (triggers e)) entries /\
  (filled m -> filled m') /\
  (List.NoDup (map fst m) -> List.NoDup (map fst m')).
Proof.
  induction entries as [|e entries IH]; intros m u; cbn [fold_left flat_map].
  - by rewrite app_nil_r.
  - destruct (pushTriggers_spec (triggers e) (suffix e) m u) as (Hget1 & Hfill1 & Hnd1).
    destruct (IH (fold_left (fun m t => mapPush m t (suffix e)) (triggers e) m) u)
      as (Hget & Hfill & Hnd).
    split; [|split].
    + by rewrite Hget, Hget1, <- app_assoc.
    + auto.
    + auto.
Qed.

End MapFacts.

(** X14: The invalidation map holds, for a trigger URL, the cache suffixes of
    the entries that list it: the parts first, then the cached URLs, each
    in the order of the configuration and once for every time it lists the
    URL. A URL that no entry lists is no key of the map, and no URL is a
    key twice. *)
Theorem invalidation_map_lists_the_suffixes (d : ServerPreparedData) (u : string) :
  let listed :=
    flat_map (fun p => pushes u (part_cacheSuffix p) (part_cacheCleanTriggerUrls p))
             (cachedParts d)
    ++ flat_map (fun cfg => pushes u (cu_cacheSuffix cfg)
                              (cu_cacheCleanTriggerUrls cfg))
                (cachedUrls d) in
  mapGet (generateCacheInvalidationMap d) u
  = match listed with [] => None | _ => Some listed end /\
  List.NoDup (map fst (generateCacheInvalidationMap d)).
Proof.
  cbn zeta. unfold generateCacheInvalidationMap.
  set (m1 := fold_left _ (cachedParts d) []).
  destruct (MapFacts.pushAll_spec part_cacheSuffix part_cacheCleanTriggerUrls
              (cachedParts d) [] u) as (Hget1 & Hfill1 & Hnd1).
  fold m1 in Hget1, Hfill1, Hnd1.
  destruct (MapFacts.pushAll_spec cu_cacheSuffix cu_cacheCleanTriggerUrls
              (cachedUrls d) m1 u) as (Hget & Hfill & Hnd).
  cbn zeta in *. set (m2 := fold_left _ (cachedUrls d) m1) in *. split.
  - rewrite Hget1 in Hget. cbn [mapGet default from_option id app] in Hget.
    rewrite <- Hget.
    assert (filled [] ) as H0 by (intros ?; done).
    specialize (Hfill (Hfill1 H0) u).
    destruct (mapGet m2 u) as [[|s l]|]; done.
  - apply Hnd, Hnd1. constructor.
Qed.

(** ** The strategies and the cache of the active generation *)

Module StrategyFacts.

Lemma openedCache_put cs name key r :
  openedCache (cachePut (cachesOpen cs name) name key r) name
  = <[key := r]> (openedCache cs name).
Proof.
  unfold cachePut. rewrite openedCache_update by apply cachesGet_open_is_Some.
  by rewrite openedCache_open.
Qed.

Lemma cachesOpen_put cs name key r :
  cachesOpen (cachePut (cachesOpen cs name) name key r) name
  = cachePut (cachesOpen cs name) name key r.
Proof. apply PartFacts.cachesOpen_update_open. Qed.

Lemma cachesOpen_idemp cs name : cachesOpen (cachesOpen cs name) name = cachesOpen cs name.
Proof.
  unfold cachesOpen at 1. by destruct (cachesGet_open_is_Some cs name) as [c ->].
Qed.

Lemma cachesGet_open_other cs name name' :
  name' <> name -> cachesGet (cachesOpen cs name) name' = cachesGet cs name'.
Proof.
  intros Hne. unfold cachesOpen. destruct (cachesGet cs name); [done|].
  induction cs as [|[n c] cs IH]; cbn [app cachesGet].
  - by destruct (String.eqb_spec name name').
  - by destruct (String.eqb n name').
Qed.

Lemma cachesGet_put_other cs name key r name' :
  name' <> name -> cachesGet (cachePut cs name key r) name' = cachesGet cs name'.
Proof.
  intros Hne. unfold cachePut. rewrite cachesGet_update.
  by destruct (String.eqb_spec name name').
Qed.

End StrategyFacts.

(** X19: A [GET] request for a static resource that the cache of this run
    of the script does not hold is fetched and handed on whatever its
    status. A response with an [ok] status is stored under the URL of the
    request, and the same request, served by the same run, is then
    answered from the cache without a request to the network; any other
    response is not stored. *)
Theorem static_response_is_cached_when_ok env w request network :
  let w1 := snd (respondToStatic env w request) in
  method request = "GET"%string ->
  generationLookup env w (url request) = None ->
  net env request = Some network ->
  fst (respondToStatic env w request) = Whole network /\
  fetched w1 = fetched w ++ [request] /\
  (if ok network
   then respondToStatic env w1 request = (Whole network, w1)
   else generationLookup env w1 (url request) = None).
Proof.
  cbn zeta. unfold generationLookup. intros Hget Hmiss Hnet.
  set (cs := cachesOpen (caches w) (CACHE_ID env)).
  set (w0 := {| caches := cs; fetched := fetched w ++ [request] |}).
  assert (respondToStatic env w request
          = (Whole network,
             if ok network
             then {| caches := cachePut cs (CACHE_ID env) (url request) network;
                     fetched := fetched w0 |}
             else w0)) as ->.
  { unfold respondToStatic, cacheMatchRequest, cachePutRequest.
    rewrite Hget, String.eqb_refl, openedCache_open, Hmiss.
    unfold fetch. rewrite Hnet. cbn [caches fetched]. by destruct (ok network). }
  cbn [fst snd]. split; [done|].
  destruct (ok network) eqn:Hok; cbn [fetched caches w0].
  - split; [done|]. unfold respondToStatic, cacheMatchRequest. cbn [caches fetched].
    unfold cs. rewrite Hget, String.eqb_refl.
    rewrite StrategyFacts.cachesOpen_put, StrategyFacts.openedCache_put.
    by rewrite lookup_insert_eq.
  - split; [done|]. unfold cs. by rewrite openedCache_open.
Qed.

Lemma static_response_is_cached_when_ok_witness :
  let e := {| net := fun r => Some (Sample.textResponse 200 "body{}");
              location := Sample.origin ++ "/service-worker.js";
              startTime := Sample.startedAt;
              serverPreparedData := Sample.getInitConfig true |} in
  let request :=
    {| url := Sample.origin ++ "/on/demandware.static/Sites-RefArch-Site/-/en_US/v1/css/global.css";
       method := "GET"; mode := ModeNoCors; destination := "style";
       req_headers := []; redirect := "follow" |} in
  let w1 := snd (respondToStatic e Sample.emptyWorld request) in
  isCacheableStatic request = true /\
  (fst (respondToStatic e Sample.emptyWorld request)
   = Whole (Sample.textResponse 200 "body{}") /\
   fetched w1 = [request] /\
   respondToStatic e w1 request = (Whole (Sample.textResponse 200 "body{}"), w1)).
Proof.
  split; [vm_compute; reflexivity|].
  apply (static_response_is_cached_when_ok
           {| net := fun r => Some (Sample.textResponse 200 "body{}");
              location := Sample.origin ++ "/service-worker.js";
              startTime := Sample.startedAt;
              serverPreparedData := Sample.getInitConfig true |}
           Sample.emptyWorld
           {| url := Sample.origin ++ "/on/demandware.static/Sites-RefArch-Site/-/en_US/v1/css/global.css";
              method := "GET"; mode := ModeNoCors; destination := "style";
              req_headers := []; redirect := "follow" |}
           (Sample.textResponse 200 "body{}")).
  - reflexivity.
  - vm_compute. reflexivity.
  - reflexivity.
Defined.

(** X29: A request for a static resource whose method is not [GET] is sent
    to the network whatever the cache holds, also when it holds an entry
    for the same URL, and its response is not stored: the caches are the
    ones the request found, but for the cache of this run, which is
    opened. *)
Theorem static_request_other_than_get_is_not_cached env w request :
  method request <> "GET"%string ->
  fst (respondToStatic env w request)
  = match net env request with Some network => Whole network | None => Failed end /\
  fetched (snd (respondToStatic env w request)) = fetched w ++ [request] /\
  caches (snd (respondToStatic env w request)) = cachesOpen (caches w) (CACHE_ID env).
Proof.
  intros Hm%String.eqb_neq.
  unfold respondToStatic, cacheMatchRequest, cachePutRequest, fetch. rewrite Hm.
  cbn [caches fetched].
  destruct (net env request) as [network|]; [|done].
  by destruct (ok network).
Qed.

Lemma static_request_other_than_get_is_not_cached_witness :
  let e := Sample.env (fun r => Some (Sample.textResponse 200 "posted")) true in
  let request :=
    {| url := Sample.origin ++ "/on/demandware.static/Sites-RefArch-Site/-/en_US/v1/js/main.js";
       method := "POST"; mode := ModeCors; destination := "";
       req_headers := []; redirect := "follow" |} in
  let w := Sample.worldWith e [(url request, Sample.textResponse 200 "cached")] in
  isCacheableStatic request = true /\
  generationLookup e w (url request) = Some (Sample.textResponse 200 "cached") /\
  (fst (respondToStatic e w request) = Whole (Sample.textResponse 200 "posted") /\
   fetched (snd (respondToStatic e w request)) = [request] /\
   caches (snd (respondToStatic e w request)) = caches w).
Proof.
  split; [vm_compute; reflexivity|]. split; [vm_compute; reflexivity|].
  apply (static_request_other_than_get_is_not_cached
           (Sample.env (fun r => Some (Sample.textResponse 200 "posted")) true)
           (Sample.worldWith
              (Sample.env (fun r => Some (Sample.textResponse 200 "posted")) true)
              [((Sample.origin ++ "/on/demandware.static/Sites-RefArch-Site/-/en_US/v1/js/main.js")%string,
                Sample.textResponse 200 "cached")])
           {| url := Sample.origin ++ "/on/demandware.static/Sites-RefArch-Site/-/en_US/v1/js/main.js";
              method := "POST"; mode := ModeCors; destination := "";
              req_headers := []; redirect := "follow" |}).
  vm_compute. discriminate.
Defined.

(** X18: A keyed-AJAX request whose key the active generation does not hold is
    sent to the network and answered with the response it gets, whatever
    its status; the response is stored under the key exactly when its
    status is [ok]. *)
Theorem ajax_response_is_cached_when_ok env w request config resp :
  let w1 := snd (respondToAjax env w request (Some config)) in
  generationLookup env w (ajaxKeyUrl env request config) = None ->
  net env request = Some resp ->
  fst (respondToAjax env w request (Some config)) = Whole resp /\
  fetched w1 = fetched w ++ [request] /\
  generationLookup env w1 (ajaxKeyUrl env request config)
  = (if ok resp then Some resp else None).
Proof.
  cbn zeta. unfold generationLookup, ajaxKeyUrl. intros Hmiss Hnet.
  unfold respondToAjax. rewrite openedCache_open, Hmiss.
  unfold fetch. rewrite Hnet. cbn [caches fetched].
  destruct (ok resp) eqn:Hok; cbn [fst snd caches fetched].
  - split; [done|]. split; [done|].
    by rewrite StrategyFacts.openedCache_put, lookup_insert_eq.
  - split; [done|]. split; [done|]. by rewrite openedCache_open.
Qed.

Lemma ajax_response_is_cached_when_ok_witness :
  let e := Sample.env Sample.cartNet true in
  let request := Sample.xhr "GET" "Cart-MiniCartShow" Sample.identityHeaders in
  let w1 := snd (respondToAjax e Sample.emptyWorld request (Some Sample.miniCartUrl)) in
  getAjaxCacheConfig e request = Some Sample.miniCartUrl /\
  (fst (respondToAjax e Sample.emptyWorld request (Some Sample.miniCartUrl))
   = Whole (Sample.textResponse 200 "cart-1") /\
   fetched w1 = [request] /\
   generationLookup e w1 (ajaxKeyUrl e request Sample.miniCartUrl)
   = Some (Sample.textResponse 200 "cart-1")).
Proof.
  split; [vm_compute; reflexivity|].
  apply (ajax_response_is_cached_when_ok (Sample.env Sample.cartNet true)
           Sample.emptyWorld
           (Sample.xhr "GET" "Cart-MiniCartShow" Sample.identityHeaders)
           Sample.miniCartUrl (Sample.textResponse 200 "cart-1")).
  - vm_compute. reflexivity.
  - vm_compute. reflexivity.
Defined.

(** ** Only the cache of the active generation is written *)

Module IsolationFacts.
Import StrategyFacts.

Section Other.
Variables (env : Env) (name : string).
Hypothesis Hname : name <> CACHE_ID env.

Local Abbreviation same w' w := (cachesGet (caches w') name = cachesGet (caches w) name).

Lemma fetchOrCachePart_other w partConfig siteId locale :
  same (snd (fetchOrCachePart env w partConfig siteId locale (CACHE_ID env))) w.
Proof.
  unfold fetchOrCachePart. destruct (cachesMatch _ _); [done|].
  unfold fetch. destruct (net env _) as [resp|]; [|done].
  destruct (ok resp); [|done]. cbn [snd caches].
  by rewrite cachesGet_put_other, cachesGet_open_other.
Qed.

Lemma pullOnce_other siteId locale src ctl w :
  same (resultWorld (pullOnce env siteId locale (CACHE_ID env) src ctl w)) w.
Proof.
  unfold pullOnce. destruct (negb (nonempty (queue src)) || s_done src); [done|].
  destruct (nextFromQueue (queue src)) as [[item q]|]; [|done].
  destruct (value item) as [v|]; [|by destruct (s_done _)].
  destruct (found _) as [m|].
  - pose proof (fetchOrCachePart_other w (part (m_config m)) siteId locale) as H.
    destruct (fetchOrCachePart env w (part (m_config m)) siteId locale (CACHE_ID env))
      as [p w'].
    cbn [snd] in H. cbn [resultWorld]. exact H.
  - cbn [resultWorld]. done.
Qed.

Lemma pull_other siteId locale fuel : forall src ctl w src' ctl' w',
  pull fuel env siteId locale (CACHE_ID env) src ctl w = Some (src', ctl', w') ->
  same w' w.
Proof.
  induction fuel as [|fuel IH]; intros src ctl w src' ctl' w'; cbn [pull]; [done|].
  pose proof (pullOnce_other siteId locale src ctl w) as H.
  destruct (pullOnce env siteId locale (CACHE_ID env) src ctl w) as [s c w0|s c w0];
    cbn [resultWorld] in H.
  - by intros [= _ _ <-].
  - intros Hrun. apply IH in Hrun. by rewrite Hrun.
Qed.

Lemma runStream_other fuel w r parts siteId locale ctl w' :
  runStream fuel env w r parts (CACHE_ID env) siteId locale = Some (ctl, w') ->
  same w' w.
Proof.
  unfold runStream. destruct (encodePlaceholderConfigs parts) as [[pb cfgs]|].
  - destruct (readChunk _) as [p src1].
    destruct (pull _ _ _ _ _ _ _ _) as [[[s c] w0]|] eqn:Hrun; [|done].
    intros [= _ <-]. by apply pull_other in Hrun.
  - by intros [= _ <-].
Qed.

Lemma respondToAjax_other w request config :
  same (snd (respondToAjax env w request config)) w.
Proof.
  unfold respondToAjax. destruct config as [config|].
  - destruct (_ !! _); cbn [snd caches]; [by rewrite cachesGet_open_other|].
    unfold fetch. destruct (net env request) as [r|]; cbn [caches fetched snd];
      [|by rewrite cachesGet_open_other].
    destruct (ok r); cbn [snd caches].
    + by rewrite cachesGet_put_other, cachesGet_open_other.
    + by rewrite cachesGet_open_other.
  - unfold fetch. by destruct (net env request).
Qed.

Lemma respondToStatic_other w request :
  same (snd (respondToStatic env w request)) w.
Proof.
  unfold respondToStatic.
  destruct (cacheMatchRequest _ _); cbn [snd caches]; [by rewrite cachesGet_open_other|].
  unfold fetch. destruct (net env request) as [r|]; cbn [caches fetched snd];
    [|by rewrite cachesGet_open_other].
  destruct (ok r); cbn [snd caches]; [|by rewrite cachesGet_open_other].
  unfold cachePutRequest. destruct (String.eqb _ _).
  - by rewrite cachesGet_put_other, cachesGet_open_other.
  - by rewrite cachesGet_open_other.
Qed.

Lemma offlineAnswer_other w :
  same (snd (offlineAnswer env w)) w /\
  forall rw, fst (offlineAnswer env w) <> Rewriting rw.
Proof.
  unfold offlineAnswer. cbn [fst snd caches]. split; [by rewrite cachesGet_open_other|].
  intros rw. by destruct (_ !! _).
Qed.

Lemma respondToNavigation_other fuel w request :
  same (nav_world (respondToNavigation fuel env w request)) w /\
  (forall rw ctl w',
     nav_answer (respondToNavigation fuel env w request) = Rewriting rw ->
     rw_stream rw = Some (ctl, w') -> same w' w) /\
  (forall rw ctl w',
     nav_abandoned (respondToNavigation fuel env w request) = Some rw ->
     rw_stream rw = Some (ctl, w') -> same w' w).
Proof.
  unfold respondToNavigation, fetch.
  pose proof (cleanTriggeredCache_other env w request name Hname) as Hclean.
  set (w2 := {| caches := caches (cleanTriggeredCache env w request);
                fetched := fetched (cleanTriggeredCache env w request)
                           ++ [addSkipParamsToRequest env request] |}).
  destruct (offlineAnswer_other w2) as [Hoff Hnot].
  destruct (offlineAnswer env w2) as [a w3] eqn:Ha. cbn [fst snd] in Hoff, Hnot.
  assert (same w3 w) as Hw3 by (by rewrite Hoff).
  destruct (net env _) as [r|]; cbn [caches fetched];
    [|cbn [nav_answer nav_world nav_abandoned]; split; [done|]; split; [|done];
      intros rw ctl w' ->; by destruct (Hnot rw)].
  destruct (status r =? 401); [by repeat split|].
  destruct (_ || _); [by repeat split|].
  destruct (constructorThrows _); cbn [nav_answer nav_world nav_abandoned].
  - split; [done|]. split; [intros rw ctl w' ->; by destruct (Hnot rw)|].
    intros rw ctl w'. destruct (nullBodyStatus _); [done|].
    intros [= <-]. unfold createStream. cbn [rw_stream].
    intros Hrun%runStream_other. by rewrite Hrun.
  - split; [done|]. split; [|done].
    intros rw ctl w' [= <-]. unfold createStream. cbn [rw_stream].
    intros Hrun%runStream_other. by rewrite Hrun.
Qed.

End Other.

End IsolationFacts.

(** X22: Whatever the request, the [fetch] listener and the stream of the
    response it answers a navigation with leave every cache but the one of
    the active generation as it is; so does a stream that [createStream]
    built for a response whose constructor threw. *)
Theorem fetch_writes_only_the_active_generation fuel env w request name :
  name <> CACHE_ID env ->
  cachesGet (caches (worldAfter (onFetch fuel env w request))) name
  = cachesGet (caches w) name /\
  (forall rw ctl w',
     respondedWith (onFetch fuel env w request) = Some (Rewriting rw) ->
     rw_stream rw = Some (ctl, w') ->
     cachesGet (caches w') name = cachesGet (caches w) name) /\
  (forall rw ctl w',
     abandoned (onFetch fuel env w request) = Some rw ->
     rw_stream rw = Some (ctl, w') ->
     cachesGet (caches w') name = cachesGet (caches w) name).
Proof.
  intros Hname. unfold onFetch.
  destruct (isSameOrigin env (url request) && _).
  { pose proof (IsolationFacts.respondToAjax_other env name Hname w request
                  (getAjaxCacheConfig env request)) as H.
    destruct (respondToAjax env w request (getAjaxCacheConfig env request)) as [a w1] eqn:E.
    cbn [snd worldAfter respondedWith abandoned] in *. split; [done|]. split; [|done].
    intros rw ctl w' [= ->]. exfalso. revert E. unfold respondToAjax.
    destruct (getAjaxCacheConfig env request).
    - destruct (_ !! _); [done|]. unfold fetch.
      destruct (net env request) as [r|]; [by destruct (ok r)|done].
    - unfold fetch. by destruct (net env request). }
  destruct (bool_decide (mode request = ModeSameOrigin)).
  { cbn [worldAfter respondedWith abandoned]. split; [|done].
    by apply cleanTriggeredCache_other. }
  destruct (bool_decide (mode request = ModeNavigate)).
  { destruct (IsolationFacts.respondToNavigation_other env name Hname fuel w request)
      as (H1 & H2 & H3).
    cbn [worldAfter respondedWith abandoned]. split; [done|]. split; [|done].
    intros rw ctl w' [= Heq]. by apply H2. }
  destruct (isCacheableStatic request); [|by split].
  pose proof (IsolationFacts.respondToStatic_other env name Hname w request) as H.
  destruct (respondToStatic env w request) as [a w1] eqn:E.
  cbn [snd worldAfter respondedWith abandoned] in *. split; [done|]. split; [|done].
  intros rw ctl w' [= ->]. exfalso. revert E. unfold respondToStatic.
  destruct (cacheMatchRequest _ _); [done|]. unfold fetch.
  destruct (net env request) as [r|]; [by destruct (ok r)|done].
Qed.

Lemma fetch_writes_only_the_active_generation_witness :
  let e := Sample.env Sample.fragmentNet true in
  let w := world Sample.hostWithTwoGenerations in
  let request := Sample.navigate "Account-Login" in
  let name := Sample.earlierGeneration in
  cachesGet (caches (worldAfter (onFetch 20 e w request))) name
  = cachesGet (caches w) name /\
  (forall rw ctl w',
     respondedWith (onFetch 20 e w request) = Some (Rewriting rw) ->
     rw_stream rw = Some (ctl, w') ->
     cachesGet (caches w') name = cachesGet (caches w) name) /\
  (forall rw ctl w',
     abandoned (onFetch 20 e w request) = Some rw ->
     rw_stream rw = Some (ctl, w') ->
     cachesGet (caches w') name = cachesGet (caches w) name).
Proof.
  apply (fetch_writes_only_the_active_generation 20 (Sample.env Sample.fragmentNet true)
           (world Sample.hostWithTwoGenerations) (Sample.navigate "Account-Login")
           Sample.earlierGeneration).
  vm_compute. discriminate.
Defined.

(** ** [clearOldCaches] and the [activate] listener *)

Module GenerationFacts.

Lemma cachesDelete_all_filter names : forall cs,
  fold_left cachesDelete names cs
  = List.filter (fun e => negb (existsb (String.eqb (fst e)) names)) cs.
Proof.
  induction names as [|n names IH]; intros cs; cbn [fold_left existsb].
  - induction cs as [|e cs IHcs]; [done|]. simpl. by f_equal.
  - rewrite IH. unfold cachesDelete. clear IH.
    induction cs as [|e cs IHcs]; [done|]. cbn [List.filter].
    destruct (String.eqb (fst e) n); cbn [negb orb List.filter]; [done|].
    destruct (existsb _ names); cbn [negb]; by rewrite IHcs.
Qed.

Lemma clearOldCaches_filter env w :
  caches (clearOldCaches env w)
  = List.filter (fun e => String.eqb (fst e) (CACHE_ID env)) (caches w).
Proof.
  unfold clearOldCaches. cbn [caches]. rewrite cachesDelete_all_filter.
  apply filter_ext_in. intros e He.
  destruct (String.eqb_spec (fst e) (CACHE_ID env)) as [Heq|Hne].
  - apply negb_true_iff, not_true_is_false.
    intros (n & [_ Hn]%filter_In & Hen%String.eqb_eq)%existsb_exists.
    rewrite <- Hen, Heq, String.eqb_refl in Hn. done.
  - apply negb_false_iff, existsb_exists. exists (fst e). split.
    + apply filter_In. split; [by apply in_map|].
      apply negb_true_iff. by apply String.eqb_neq.
    + apply String.eqb_refl.
Qed.

Lemma filter_filter_same {A} (f : A -> bool) (l : list A) :
  List.filter f (List.filter f l) = List.filter f l.
Proof.
  induction l as [|x l IH]; [done|]. cbn [List.filter].
  destruct (f x) eqn:Hx; [|done]. cbn [List.filter]. by rewrite Hx, IH.
Qed.

Lemma world_eq (w1 w2 : World) :
  caches w1 = caches w2 -> fetched w1 = fetched w2 -> w1 = w2.
Proof. destruct w1, w2. cbn. by intros -> ->. Qed.

Lemma clearOldCaches_idemp env w :
  clearOldCaches env (clearOldCaches env w) = clearOldCaches env w.
Proof.
  apply world_eq; [|done].
  rewrite !clearOldCaches_filter. apply filter_filter_same.
Qed.

End GenerationFacts.

(** X23: The [activate] listener keeps exactly the caches that are named
    [CACHE_ID], unchanged and in their order, and deletes every other one;
    it posts [CACHE_ID] to every client that [clients.matchAll()] lists,
    claims the clients, and sends nothing to the network. Run a second
    time it deletes nothing more. *)
Theorem activate_keeps_the_active_generation_only env h :
  let h' := onActivate env h in
  caches (world h')
  = List.filter (fun e => String.eqb (fst e) (CACHE_ID env)) (caches (world h)) /\
  fetched (world h') = fetched (world h) /\
  posted h' = posted h ++ map (fun cl => (cl, CACHE_ID env)) (clients h) /\
  claimed h' = true /\
  registered h' = registered h /\
  world (onActivate env h') = world h'.
Proof.
  cbn zeta. unfold onActivate. cbn [world posted claimed registered clients].
  split; [apply GenerationFacts.clearOldCaches_filter|]. repeat split.
  apply GenerationFacts.clearOldCaches_idemp.
Qed.

(** ** The offline page *)

Module OfflineFacts.

(** The [catch] block answers with the entry of the offline page in the
    cache of this run. *)
Lemma offlineAnswer_lookup env w :
  fst (offlineAnswer env w)
  = match generationLookup env w (resolveUrl env (OFFLINE_URL env)) with
    | Some page => Whole page
    | None => Undefined
    end.
Proof.
  unfold offlineAnswer, generationLookup. cbn [fst]. by rewrite openedCache_open.
Qed.

(** A navigation whose request fails is answered with the entry of the
    offline page, when the invalidation check keeps it. *)
Lemma failed_navigation_lookup fuel env w request page :
  net env (addSkipParamsToRequest env request) = None ->
  generationLookup env w (resolveUrl env (OFFLINE_URL env)) = Some page ->
  shouldDelete (triggeredSuffixes env (url request)) (resolveUrl env (OFFLINE_URL env))
  = false ->
  nav_answer (respondToNavigation fuel env w request) = Whole page.
Proof.
  intros Hoff Hpage Hkeep. unfold respondToNavigation, fetch. rewrite Hoff.
  pose proof (offlineAnswer_lookup env
                {| caches := caches (cleanTriggeredCache env w request);
                   fetched := fetched (cleanTriggeredCache env w request)
                              ++ [addSkipParamsToRequest env request] |}) as Hans.
  destruct (offlineAnswer env _) as [a w3]. cbn [fst nav_answer] in *. rewrite Hans.
  unfold generationLookup. cbn [caches].
  fold (generationLookup env (cleanTriggeredCache env w request)
          (resolveUrl env (OFFLINE_URL env))).
  by rewrite cleanTriggeredCache_lookup, Hkeep, Hpage.
Qed.

(** What [install] stores when the offline page is served. *)
Lemma installed_offline_page env h page :
  swEnabled (serverPreparedData env) = true ->
  net env (newRequest (resolveUrl env (OFFLINE_URL env))) = Some page ->
  ok page = true ->
  generationLookup env (world (onInstall env h)) (resolveUrl env (OFFLINE_URL env))
  = Some page.
Proof.
  intros Hon Hnet Hok. unfold onInstall. rewrite Hon. cbn [negb world].
  unfold precacheOfflinePage, fetch. rewrite Hnet, Hok.
  cbn [snd caches fetched url newRequest]. unfold generationLookup. cbn [caches].
  by rewrite StrategyFacts.openedCache_put, lookup_insert_eq.
Qed.

End OfflineFacts.

(** X24: Once the [install] listener has stored the offline page, a
    navigation that the same run of the script handles and whose request
    the network fails is answered with that page, provided the
    invalidation check that runs first does not delete it. The run is the
    one that was installed: it has the same start time, and with it the
    same [CACHE_ID], the same script URL and configuration; the network
    may have changed. *)
Theorem offline_page_answers_a_failed_navigation fuel env offline h request page :
  let later := {| net := offline; location := location env;
                  startTime := startTime env;
                  serverPreparedData := serverPreparedData env |} in
  swEnabled (serverPreparedData env) = true ->
  net env (newRequest (resolveUrl env (OFFLINE_URL env))) = Some page ->
  ok page = true ->
  offline (addSkipParamsToRequest later request) = None ->
  shouldDelete (triggeredSuffixes later (url request)) (resolveUrl env (OFFLINE_URL env))
  = false ->
  nav_answer (respondToNavigation fuel later (world (onInstall env h)) request)
  = Whole page.
Proof.
  cbn zeta. intros Hon Hnet Hok Hoff Hkeep.
  apply OfflineFacts.failed_navigation_lookup; [exact Hoff| |exact Hkeep].
  exact (OfflineFacts.installed_offline_page env h page Hon Hnet Hok).
Qed.

Lemma offline_page_answers_a_failed_navigation_witness :
  let e := {| net := fun r => Some (Sample.textResponse 200 "offline");
              location := Sample.origin ++ "/service-worker.js";
              startTime := Sample.startedAt;
              serverPreparedData := Sample.getInitConfig true |} in
  let later := {| net := fun r => None; location := location e;
                  startTime := startTime e;
                  serverPreparedData := serverPreparedData e |} in
  nav_answer (respondToNavigation 20 later (world (onInstall e Sample.hostAtInstall))
                (Sample.navigate "Account-Login"))
  = Whole (Sample.textResponse 200 "offline").
Proof.
  apply (offline_page_answers_a_failed_navigation 20
           {| net := fun r => Some (Sample.textResponse 200 "offline");
              location := Sample.origin ++ "/service-worker.js";
              startTime := Sample.startedAt;
              serverPreparedData := Sample.getInitConfig true |}
           (fun r => None) Sample.hostAtInstall
           (Sample.navigate "Account-Login") (Sample.textResponse 200 "offline")).
  - reflexivity.
  - reflexivity.
  - reflexivity.
  - reflexivity.
  - vm_compute. reflexivity.
Defined.

(** ** The answers of a navigation *)

(** X28: A top-level navigation is answered with exactly one of: the
    auth-recovery page when the fetched status is 401; the fetched
    response itself when its status is 301 or 302 or its type is an opaque
    redirect; the entry of the offline page in the cache of this run
    ([undefined] when there is none) when the fetch of the page fails, and
    also when the page has a null body status or a status outside 200 to
    599, for which the constructor of the rewritten response throws; the
    rewritten response otherwise. *)
Theorem navigation_answer fuel env w request :
  let w1 := cleanTriggeredCache env w request in
  let modifiedRequest := addSkipParamsToRequest env request in
  let w2 := {| caches := caches w1; fetched := fetched w1 ++ [modifiedRequest] |} in
  let answer := nav_answer (respondToNavigation fuel env w request) in
  let offline :=
    match generationLookup env w1 (resolveUrl env (OFFLINE_URL env)) with
    | Some page => Whole page
    | None => Undefined
    end in
  match net env modifiedRequest with
  | Some r =>
      if status r =? 401 then answer = Whole getBasicAuthFallbackResponse
      else if existsb (Nat.eqb (status r)) [301; 302]
              || bool_decide (rtype r = TypeOpaqueRedirect)
      then answer = Whole r
      else if negb ((200 <=? status r) && (status r <=? 599))
              || existsb (Nat.eqb (status r)) [101; 103; 204; 205; 304]
      then answer = offline
      else answer = Rewriting (createStream fuel env w2 r
                                 (cachedParts (serverPreparedData env)) (CACHE_ID env))
  | None => answer = offline
  end.
Proof.
  cbn zeta. unfold respondToNavigation, fetch.
  pose proof (OfflineFacts.offlineAnswer_lookup env
                {| caches := caches (cleanTriggeredCache env w request);
                   fetched := fetched (cleanTriggeredCache env w request)
                              ++ [addSkipParamsToRequest env request] |}) as Hans.
  unfold generationLookup in Hans. cbn [caches] in Hans.
  fold (generationLookup env (cleanTriggeredCache env w request)
          (resolveUrl env (OFFLINE_URL env))) in Hans.
  destruct (offlineAnswer env _) as [a w3]. cbn [fst] in Hans.
  destruct (net env (addSkipParamsToRequest env request)) as [r|]; [|done].
  destruct (status r =? 401); [done|].
  destruct (existsb (Nat.eqb (status r)) [301; 302]
            || bool_decide (rtype r = TypeOpaqueRedirect)); [done|].
  unfold constructorThrows, nullBodyStatus, buildInitHeaders. cbn [init_status].
  by destruct (negb _ || _).
Qed.

(** ** Requests that match no trigger *)

(** X15: When the URL of a request contains none of the configured triggers,
    the invalidation check looks the suffixes up under the key
    ["undefined"]: the entries of the active generation whose URL contains
    ["." ++ s] for such a suffix [s] are deleted, and when no entry of the
    configuration lists a trigger of that name, no entry is deleted. The
    other caches and the network are left alone. *)
Theorem unmatched_request_deletes_nothing env w request :
  firstTrigger env request = None ->
  let stray := default [] (mapGet (cacheCleanUrls env) "undefined") in
  let w' := cleanTriggeredCache env w request in
  (forall k, generationLookup env w' k
             = if shouldDelete stray k then None else generationLookup env w k) /\
  (mapGet (cacheCleanUrls env) "undefined" = None ->
   forall k, generationLookup env w' k = generationLookup env w k) /\
  (forall name, name <> CACHE_ID env ->
     cachesGet (caches w') name = cachesGet (caches w) name) /\
  fetched w' = fetched w.
Proof.
  intros Hnone. cbn zeta.
  assert (triggeredSuffixes env (url request)
          = default [] (mapGet (cacheCleanUrls env) "undefined")) as Hsfx.
  { unfold triggeredSuffixes. unfold firstTrigger, shortUrl in Hnone. by rewrite Hnone. }
  split; [|split; [|split]].
  - intros k. by rewrite cleanTriggeredCache_lookup, Hsfx.
  - intros Hno k. by rewrite cleanTriggeredCache_lookup, Hsfx, Hno.
  - intros name Hne. by apply cleanTriggeredCache_other.
  - done.
Qed.

Lemma unmatched_request_deletes_nothing_witness :
  let e := Sample.env Sample.fragmentNet true in
  let request := Sample.navigate "Home-Show" in
  let stray := default [] (mapGet (cacheCleanUrls e) "undefined") in
  let w' := cleanTriggeredCache e Sample.storedWorld request in
  (forall k, generationLookup e w' k
             = if shouldDelete stray k then None
               else generationLookup e Sample.storedWorld k) /\
  (mapGet (cacheCleanUrls e) "undefined" = None ->
   forall k, generationLookup e w' k = generationLookup e Sample.storedWorld k) /\
  (forall name, name <> CACHE_ID e ->
     cachesGet (caches w') name = cachesGet (caches Sample.storedWorld) name) /\
  fetched w' = fetched Sample.storedWorld.
Proof.
  apply (unmatched_request_deletes_nothing (Sample.env Sample.fragmentNet true)
           Sample.storedWorld (Sample.navigate "Home-Show")).
  vm_compute. reflexivity.
Defined.

(** * Properties of the string tests and of the regular expressions *)

Module RegexFacts.
Import StringFacts.

Lemma indexOfNat_Some u s : forall n,
  Js.indexOfNat u s = Some n ->
  exists a b, s = (a ++ u ++ b)%string /\ String.length a = n.
Proof.
  induction s as [|x s IH]; intros n; rewrite indexOfNat_unfold.
  - destruct (String.prefix u "") eqn:Hp; [|done]. intros [= <-].
    exists ""%string, (Js.dropStr (String.length u) ""). split; [|done].
    rewrite append_Empty. by apply prefix_split.
  - destruct (String.prefix u (String x s)) eqn:Hp.
    + intros [= <-]. exists ""%string, (Js.dropStr (String.length u) (String x s)).
      split; [|done]. rewrite append_Empty. by apply prefix_split.
    + destruct (Js.indexOfNat u s) as [n'|]; cbn [option_map]; [|done].
      intros [= <-]. destruct (IH n' eq_refl) as (a & b & -> & Hl).
      exists (String x a), b. rewrite append_String. cbn [String.length].
      by rewrite Hl.
Qed.

Lemma includes_is_Some s u : Js.includes s u = true <-> is_Some (Js.indexOfNat u s).
Proof.
  unfold Js.includes, Js.indexOf. destruct (Js.indexOfNat u s) as [n|].
  - split; [by eauto|]. intros _. apply negb_true_iff, Z.eqb_neq. lia.
  - split; [done|]. by intros [? ?].
Qed.

(** [s.indexOf(u) !== -1] says that [u] occurs in [s]. *)
Lemma includes_iff s u :
  Js.includes s u = true <-> exists a b, s = (a ++ u ++ b)%string.
Proof.
  split.
  - intros [n Hn]%includes_is_Some.
    destruct (indexOfNat_Some _ _ _ Hn) as (a & b & -> & _). eauto.
  - intros (a & b & ->). apply includes_append.
Qed.

(** What [dropStr] returns is a tail of the string. *)
Lemma dropStr_tail k : forall s, exists a, s = (a ++ Js.dropStr k s)%string.
Proof.
  induction k as [|k IH]; intros s.
  - exists ""%string. by rewrite dropStr_0.
  - destruct s as [|x s]; [by exists ""%string|].
    destruct (IH s) as [a Ha]. exists (String x a).
    rewrite dropStr_S, append_String. by f_equal.
Qed.

Lemma dropStr_add (a b : string) j :
  Js.dropStr (String.length a + j) (a ++ b) = Js.dropStr j b.
Proof.
  induction a as [|x a IH]; [done|].
  rewrite append_String. cbn [String.length Nat.add]. by rewrite dropStr_S.
Qed.

(** ** Backtracking *)

Lemma tryDown_unfold k min f :
  Js.tryDown k min f =
  match f k with
  | Some r => if min <=? k then Some r else None
  | None =>
      match k with
      | 0 => None
      | S k' => if min <=? k' then Js.tryDown k' min f else None
      end
  end.
Proof. by destruct k. Qed.

Lemma tryDown_Some k min f r :
  Js.tryDown k min f = Some r -> exists k', k' <= k /\ min <= k' /\ f k' = Some r.
Proof.
  induction k as [|k IH]; rewrite tryDown_unfold.
  - destruct (f 0) eqn:Hf; [|done]. destruct (Nat.leb_spec min 0); [|done].
    intros [= <-]. exists 0. auto.
  - destruct (f (S k)) eqn:Hf.
    + destruct (Nat.leb_spec min (S k)); [|done]. intros [= <-]. exists (S k). auto.
    + destruct (Nat.leb_spec min k); [|done].
      intros (k' & ? & ? & ?)%IH. exists k'. auto.
Qed.

(** The longest repetition after which the rest of the pattern matches is
    the one taken. *)
Lemma tryDown_first k0 min f r : forall k,
  min <= k0 -> k0 <= k ->
  f k0 = Some r ->
  (forall j, k0 < j -> j <= k -> f j = None) ->
  Js.tryDown k min f = Some r.
Proof.
  induction k as [|k IH]; intros Hmin Hk Hf Hnone; rewrite tryDown_unfold.
  - assert (k0 = 0) as -> by lia. rewrite Hf.
    by destruct (Nat.leb_spec min 0); [|lia].
  - destruct (decide (k0 = S k)) as [->|Hne].
    + rewrite Hf. by destruct (Nat.leb_spec min (S k)); [|lia].
    + rewrite (Hnone (S k)) by lia.
      destruct (Nat.leb_spec min k); [|lia].
      apply IH; [done|lia|done|]. intros j ? ?. apply Hnone; lia.
Qed.

Lemma tryDown_zero f r : f 0 = Some r -> forall k, is_Some (Js.tryDown k 0 f).
Proof.
  intros Hf k. induction k as [|k IH]; rewrite tryDown_unfold.
  - rewrite Hf. by eexists.
  - destruct (f (S k)); [by eexists|]. exact IH.
Qed.

(** ** The leftmost match *)

Lemma exec_unfold p s :
  Js.exec p s =
  match Js.matchHere p s with
  | Some rest => Some (EmptyString, rest)
  | None =>
      match s with
      | EmptyString => None
      | String c s' =>
          match Js.exec p s' with
          | Some (pre, rest) => Some (String c pre, rest)
          | None => None
          end
      end
  end.
Proof. by destruct s. Qed.

Lemma exec_Some p s : forall pre rest,
  Js.exec p s = Some (pre, rest) ->
  exists t, s = (pre ++ t)%string /\ Js.matchHere p t = Some rest.
Proof.
  induction s as [|c s IH]; intros pre rest; rewrite exec_unfold.
  - destruct (Js.matchHere p "") eqn:Hm; [|intros [=]]. intros [= <- <-].
    by exists ""%string.
  - destruct (Js.matchHere p (String c s)) eqn:Hm.
    + intros [= <- <-]. by exists (String c s).
    + destruct (Js.exec p s) as [[pre' rest']|]; [|done]. intros [= <- <-].
      destruct (IH pre' rest' eq_refl) as (t & -> & Ht). exists t.
      by rewrite append_String.
Qed.

Lemma exec_is_Some p t rest : forall a,
  Js.matchHere p t = Some rest -> is_Some (Js.exec p (a ++ t)).
Proof.
  intros a Hm. induction a as [|c a IH]; rewrite exec_unfold.
  - rewrite append_Empty, Hm. by eexists.
  - rewrite append_String.
    destruct (Js.matchHere p (String c (a ++ t))); [by eexists|].
    destruct IH as [[pre r] ->]. by eexists.
Qed.

(** A match at [t] is the one found when the pattern matches at none of
    the positions before it. *)
Lemma exec_at p t rest : forall a,
  (forall a1 c a2, a = (a1 ++ String c a2)%string ->
     Js.matchHere p (String c a2 ++ t) = None) ->
  Js.matchHere p t = Some rest ->
  Js.exec p (a ++ t) = Some (a, rest).
Proof.
  induction a as [|c a IH]; intros Hnone Hm; rewrite exec_unfold.
  - by rewrite append_Empty, Hm.
  - rewrite (Hnone ""%string c a) by done. rewrite append_String, IH; [done| |done].
    intros a1 c' a2 ->. apply (Hnone (String c a1)). by rewrite append_String.
Qed.

(** ** [/.*lit/]: a test for a substring *)

Lemma test_any_then_literal l s :
  Js.test [Js.Rep Js.dot 0 None; Js.Lit l] s = Js.includes s l.
Proof.
  apply eq_true_iff_eq. rewrite includes_iff. unfold Js.test. split.
  - destruct (Js.exec _ s) as [[pre rest]|] eqn:He; [|done]. intros _.
    apply exec_Some in He as (t & -> & Hm). cbn [Js.matchHere] in Hm.
    destruct (_ <? 0); [done|].
    apply tryDown_Some in Hm as (k & _ & _ & Hk).
    destruct (String.prefix l (Js.dropStr k t)) eqn:Hp; [|done].
    apply prefix_split in Hp. destruct (dropStr_tail k t) as [a Ha].
    exists (pre ++ a)%string, (Js.dropStr (String.length l) (Js.dropStr k t)).
    rewrite string_app_assoc, <- Hp, <- Ha. done.
  - intros (a & b & ->).
    assert (is_Some (Js.matchHere [Js.Rep Js.dot 0 None; Js.Lit l] (l ++ b))) as [r Hm].
    { cbn [Js.matchHere]. destruct (_ <? 0) eqn:Hlt; [by apply Nat.ltb_lt in Hlt; lia|].
      eapply tryDown_zero. by rewrite dropStr_0, prefix_append. }
    by destruct (exec_is_Some _ _ _ a Hm) as [[pre r'] ->].
Qed.

End RegexFacts.

(** X20: [isAllowedExtension] is a test for a substring: a URL passes when
    [".js"] or [".css"] occurs anywhere in it, as in [".json"] or in a
    query string, and not only when its path ends with one of them. *)
Theorem allowed_extension_is_a_substring_test (u : string) :
  isAllowedExtension u = Js.includes u ".js" || Js.includes u ".css".
Proof.
  unfold isAllowedExtension, Js.jsExtension, Js.cssExtension.
  by rewrite !RegexFacts.test_any_then_literal.
Qed.

(** ** The site and locale segment of a URL *)

Module SegmentFacts.
Import StringFacts RegexFacts.

Lemma matchHere_Rep cls min max p s :
  Js.matchHere (Js.Rep cls min max :: p) s =
  let avail := Js.run cls s in
  let top := match max with Some m => Nat.min m avail | None => avail end in
  if top <? min then None
  else Js.tryDown top min (fun k => Js.matchHere p (Js.dropStr k s)).
Proof. reflexivity. Qed.

Lemma matchHere_Lit l p (b : string) :
  Js.matchHere (Js.Lit l :: p) (l ++ b) = Js.matchHere p b.
Proof. cbn [Js.matchHere]. by rewrite prefix_append, dropStr_append. Qed.

Lemma run_all cls (a b : string) :
  allChars cls a = true -> Js.run cls (a ++ b) = String.length a + Js.run cls b.
Proof.
  induction a as [|x a IH]; [done|]. cbn [allChars].
  intros [Hx Ha]%andb_true_iff. rewrite append_String. cbn [Js.run String.length].
  rewrite Hx, IH by done. done.
Qed.

Lemma allChars_app cls (a b : string) :
  allChars cls (a ++ b) = allChars cls a && allChars cls b.
Proof.
  induction a as [|x a IH]; [done|]. rewrite append_String. cbn [allChars].
  by rewrite IH, andb_assoc.
Qed.

Local Abbreviation localeTail :=
  [Js.Lit "-Site/"; Js.Rep Js.wordChar 2 (Some 7); Js.Lit "/"].

Lemma locale_matchHere locale rest :
  isLocale locale = true ->
  Js.matchHere [Js.Rep Js.wordChar 2 (Some 7); Js.Lit "/"] (locale ++ "/" ++ rest)
  = Some rest.
Proof.
  intros [[Hmin%Nat.leb_le Hmax%Nat.leb_le]%andb_true_iff Hall]%andb_true_iff.
  rewrite matchHere_Rep. cbn zeta. rewrite run_all by done.
  change (Js.run Js.wordChar ("/" ++ rest)) with 0.
  replace (Nat.min 7 (String.length locale + 0)) with (String.length locale) by lia.
  destruct (Nat.ltb_spec (String.length locale) 2); [lia|].
  apply (tryDown_first (String.length locale)); [done|done| |intros; lia].
  rewrite dropStr_append. apply (matchHere_Lit "/" [] rest).
Qed.

Lemma site_matchHere site locale rest :
  isSiteId site = true -> isLocale locale = true ->
  Js.matchHere (Js.Rep Js.wordOrDash 1 None :: localeTail)
    (site ++ "-Site/" ++ locale ++ "/" ++ rest)
  = Some rest.
Proof.
  intros [Hmin%Nat.leb_le Hall]%andb_true_iff Hloc.
  rewrite matchHere_Rep. cbn zeta. rewrite run_all by done.
  change (Js.run Js.wordOrDash ("-Site/" ++ locale ++ "/" ++ rest)) with 5.
  destruct (Nat.ltb_spec (String.length site + 5) 1); [lia|].
  apply (tryDown_first (String.length site)); [done|lia| |].
  - rewrite dropStr_append, matchHere_Lit.
    by apply locale_matchHere.
  - intros j Hlt Hle.
    replace j with (String.length site + (j - String.length site)) by lia.
    rewrite dropStr_add.
    destruct (j - String.length site) as [|[|[|[|[|[|n]]]]]] eqn:Hj; try lia; reflexivity.
Qed.

Lemma segment_matchHere site locale rest :
  isSiteId site = true -> isLocale locale = true ->
  Js.matchHere Js.siteLocaleSegment
    ("Sites-" ++ site ++ "-Site/" ++ locale ++ "/" ++ rest)
  = Some rest.
Proof.
  intros Hsite Hloc. unfold Js.siteLocaleSegment. rewrite matchHere_Lit.
  by apply site_matchHere.
Qed.

(** The segment is removed where it stands when no [S] comes before it. *)
Lemma segment_removed pre site locale rest :
  allChars (fun c => negb (Ascii.eqb c "S")) pre = true ->
  isSiteId site = true -> isLocale locale = true ->
  Js.removeFirst Js.siteLocaleSegment
    (pre ++ "Sites-" ++ site ++ "-Site/" ++ locale ++ "/" ++ rest)
  = (pre ++ rest)%string.
Proof.
  intros Hpre Hsite Hloc. unfold Js.removeFirst.
  rewrite (exec_at _ _ rest); [done| |by apply segment_matchHere].
  intros a1 c a2 ->. rewrite allChars_app in Hpre.
  apply andb_true_iff in Hpre as [_ Hc]. cbn [allChars] in Hc.
  apply andb_true_iff in Hc as [Hc _]. apply negb_true_iff, Ascii.eqb_neq in Hc.
  rewrite append_String. unfold Js.siteLocaleSegment. cbn [Js.matchHere String.prefix].
  destruct (ascii_dec "S" c) as [<-|]; done.
Qed.

End SegmentFacts.

(** X16: The trigger URLs that [buildRelativeUrls] renders do not depend on the
    site and the locale they are rendered for, and the URL that
    [cleanTriggeredCache] compares them with does not depend on the site
    and the locale of the request: a request for a listed action of any
    site and locale contains the trigger of that action. *)
Theorem triggers_match_every_site_and_locale
    (origin site locale site' locale' action : string) (actions : list string)
    (request : Request) :
  isSiteId site = true -> isLocale locale = true ->
  isSiteId site' = true -> isLocale locale' = true ->
  allChars (fun c => negb (Ascii.eqb c "S")) origin = true ->
  In action actions ->
  url request = (origin ++ storeUrlFor site' locale' action)%string ->
  buildRelativeUrlsFor site locale actions
  = map (fun a => "/on/demandware.store/" ++ a)%string actions /\
  shortUrl request = (origin ++ "/on/demandware.store/" ++ action)%string /\
  Js.includes (shortUrl request) ("/on/demandware.store/" ++ action) = true.
Proof.
  intros Hsite Hloc Hsite' Hloc' Horigin Hin Hurl.
  assert (forall s l a, isSiteId s = true -> isLocale l = true ->
            Js.removeFirst Js.siteLocaleSegment (storeUrlFor s l a)
            = ("/on/demandware.store/" ++ a)%string) as Hrel.
  { intros s l a Hs Hl. unfold storeUrlFor.
    change ("/on/demandware.store/Sites-" ++ s ++ "-Site/" ++ l ++ "/" ++ a)%string
      with ("/on/demandware.store/" ++ "Sites-" ++ s ++ "-Site/" ++ l ++ "/" ++ a)%string.
    by apply SegmentFacts.segment_removed. }
  assert (shortUrl request = (origin ++ "/on/demandware.store/" ++ action)%string) as Hshort.
  { unfold shortUrl. rewrite Hurl. unfold storeUrlFor.
    change (origin ++ "/on/demandware.store/Sites-" ++ site' ++ "-Site/"
                   ++ locale' ++ "/" ++ action)%string
      with (origin ++ "/on/demandware.store/" ++ "Sites-" ++ site' ++ "-Site/"
                   ++ locale' ++ "/" ++ action)%string.
    rewrite <- (string_app_assoc origin).
    rewrite SegmentFacts.segment_removed; [by rewrite string_app_assoc| |done|done].
    rewrite SegmentFacts.allChars_app, Horigin. reflexivity. }
  split; [|split; [done|]].
  - unfold buildRelativeUrlsFor. apply map_ext_in. intros a _. by apply Hrel.
  - rewrite Hshort. apply includes_suffix.
Qed.

Lemma triggers_match_every_site_and_locale_witness :
  let request :=
    {| url := "https://shop.example/on/demandware.store/Sites-Outlet-Site/fr_FR/Cart-AddProduct";
       method := "POST"; mode := ModeSameOrigin; destination := "";
       req_headers := []; redirect := "follow" |} in
  buildRelativeUrlsFor "RefArch" "en_US" ["Cart-Show"; "Cart-AddProduct"]
  = ["/on/demandware.store/Cart-Show"; "/on/demandware.store/Cart-AddProduct"]%string /\
  shortUrl request = "https://shop.example/on/demandware.store/Cart-AddProduct"%string /\
  Js.includes (shortUrl request) "/on/demandware.store/Cart-AddProduct" = true.
Proof.
  apply (triggers_match_every_site_and_locale "https://shop.example" "RefArch" "en_US"
           "Outlet" "fr_FR" "Cart-AddProduct" ["Cart-Show"; "Cart-AddProduct"]%string
           {| url := "https://shop.example/on/demandware.store/Sites-Outlet-Site/fr_FR/Cart-AddProduct";
              method := "POST"; mode := ModeSameOrigin; destination := "";
              req_headers := []; redirect := "follow" |});
    try (vm_compute; reflexivity).
  right. by left.
Defined.

(** ** Replacing a string by itself *)

Module ReplaceFacts.
Import StringFacts RegexFacts.

Lemma substring_prefix (a b : string) : String.substring 0 (String.length a) (a ++ b) = a.
Proof.
  induction a as [|x a IH]; [by destruct b|].
  rewrite append_String. cbn [String.length String.substring]. by rewrite IH.
Qed.

Lemma length_append (a b : string) :
  String.length (a ++ b) = String.length a + String.length b.
Proof.
  induction a as [|x a IH]; [done|]. rewrite append_String. cbn [String.length].
  by rewrite IH.
Qed.

Lemma replaceFirst_same s pat : Js.replaceFirst s pat pat = s.
Proof.
  unfold Js.replaceFirst. destruct (Js.indexOfNat pat s) as [n|] eqn:Hn; [|done].
  apply indexOfNat_Some in Hn as (a & b & -> & <-).
  rewrite substring_prefix.
  rewrite <- Nat.sub_add_distr. fold (Js.dropStr (String.length a + String.length pat)
                                          (a ++ pat ++ b)).
  by rewrite dropStr_add, dropStr_append.
Qed.

Lemma find_ext {A} (f g : A -> bool) (l : list A) :
  (forall x, f x = g x) -> List.find f l = List.find g l.
Proof.
  intros H. induction l as [|x l IH]; [done|]. cbn [List.find]. by rewrite H, IH.
Qed.

End ReplaceFacts.

(** X17: For the site and the locale the configuration was rendered for, the
    URLs of the configuration are used as they are: a request that names
    them in its headers is a keyed-AJAX request of the first cached URL
    that its URL contains. *)
Theorem own_site_and_locale_keep_the_configured_urls env request :
  let d := serverPreparedData env in
  headerGet (req_headers request) X_SF_CC_SITEID = Some (urlSiteId d) ->
  headerGet (req_headers request) X_SF_CC_REQUESTLOCALE = Some (urlLocale d) ->
  urlSiteId d <> ""%string -> urlLocale d <> ""%string ->
  (forall u, localizedUrl env u (urlSiteId d) (urlLocale d) = u) /\
  getAjaxCacheConfig env request
  = List.find (fun cfg => Js.includes (url request) (cu_url cfg)) (cachedUrls d).
Proof.
  cbn zeta. intros Hsite Hloc Hs Hl.
  assert (forall u, localizedUrl env u (urlSiteId (serverPreparedData env))
                      (urlLocale (serverPreparedData env)) = u) as Hid.
  { intros u. unfold localizedUrl. by rewrite !ReplaceFacts.replaceFirst_same. }
  split; [done|].
  unfold getAjaxCacheConfig. rewrite Hsite, Hloc. cbn [Js.template default from_option id].
  destruct (urlSiteId (serverPreparedData env)) as [|c1 s1] eqn:E1; [done|].
  destruct (urlLocale (serverPreparedData env)) as [|c2 s2] eqn:E2; [done|].
  cbn [Js.truthy negb orb].
  apply ReplaceFacts.find_ext. intros cfg. by rewrite Hid.
Qed.

Lemma own_site_and_locale_keep_the_configured_urls_witness :
  let e := Sample.env Sample.cartNet true in
  let request := Sample.xhr "GET" "Cart-MiniCartShow?t=1" Sample.identityHeaders in
  (forall u, localizedUrl e u "RefArch" "en_US" = u) /\
  getAjaxCacheConfig e request
  = List.find (fun cfg => Js.includes (url request) (cu_url cfg))
              [Sample.miniCartUrl; Sample.wishlistUrl].
Proof.
  apply (own_site_and_locale_keep_the_configured_urls (Sample.env Sample.cartNet true)
           (Sample.xhr "GET" "Cart-MiniCartShow?t=1" Sample.identityHeaders));
    try (vm_compute; reflexivity); vm_compute; discriminate.
Defined.

(** * Properties of the registration script *)

Module ClientFacts.
Import StringFacts RegexFacts SegmentFacts ReplaceFacts.

Lemma sandbox_matchHere site tail :
  1 <= String.length site ->
  allChars Js.notSlash site = true ->
  Js.run Js.notSlash tail = 0 ->
  Js.matchHere sandboxGroup ("/s/" ++ site ++ tail) = Some tail.
Proof.
  intros Hlen Hall Hrun. unfold sandboxGroup. rewrite matchHere_Lit, matchHere_Rep.
  cbn zeta. rewrite run_all, Hrun, Nat.add_0_r by done.
  destruct (Nat.ltb_spec (String.length site) 1); [lia|].
  apply (tryDown_first (String.length site)); [done|done| |intros; lia].
  by rewrite dropStr_append.
Qed.

Lemma sandboxMatch_at site tail :
  1 <= String.length site ->
  allChars Js.notSlash site = true ->
  Js.run Js.notSlash tail = 0 ->
  sandboxMatch ("/s/" ++ site ++ tail) = Some ("/s/" ++ site)%string.
Proof.
  intros Hlen Hall Hrun. unfold sandboxMatch.
  rewrite exec_unfold, sandbox_matchHere by done.
  cbn [String.length]. rewrite Nat.sub_0_r. f_equal.
  rewrite <- (string_app_assoc "/s/" site tail), length_append.
  replace (String.length ("/s/" ++ site) + String.length tail - String.length tail)
    with (String.length ("/s/" ++ site)) by lia.
  apply substring_prefix.
Qed.

Lemma sandboxMatch_none pathname :
  Js.includes pathname "/s/" = false -> sandboxMatch pathname = None.
Proof.
  intros Hnot. unfold sandboxMatch.
  destruct (Js.exec sandboxGroup pathname) as [[pre rest]|] eqn:He; [exfalso|done].
  apply exec_Some in He as (t & -> & Hm). unfold sandboxGroup in Hm.
  cbn [Js.matchHere] in Hm.
  destruct (String.prefix "/s/" t) eqn:Hp; [|done].
  apply prefix_split in Hp. rewrite Hp in Hnot.
  by rewrite includes_append in Hnot.
Qed.

Lemma tail_run tail :
  tail = ""%string \/ String.prefix "/" tail = true -> Js.run Js.notSlash tail = 0.
Proof.
  intros [->|Hp]; [done|]. apply prefix_split in Hp. by rewrite Hp.
Qed.

Lemma not_system_url pathname :
  Js.includes pathname "on/demandware.store" = false ->
  (-1 <? Js.indexOf pathname "on/demandware.store")%Z = false.
Proof.
  unfold Js.includes. intros H%negb_false_iff%Z.eqb_eq. rewrite H. done.
Qed.

End ClientFacts.

(** X25: On a page whose path starts with [/s/] and a site segment, the path of
    the worker script is the relative path after [/s/] and that segment,
    whatever follows the segment; with the worker supported, a
    [data-swenabled] value other than ["false"] and a page that is no
    system URL, the script is registered under that path. *)
Theorem sandbox_prefix_is_kept (site tail relativePath value : string) :
  (1 <=? String.length site) && allChars Js.notSlash site = true ->
  tail = ""%string \/ String.prefix "/" tail = true ->
  value <> ""%string -> value <> "false"%string ->
  Js.includes ("/s/" ++ site ++ tail) "on/demandware.store" = false ->
  resolveServiceWorkerPath ("/s/" ++ site ++ tail) relativePath
  = ("/s/" ++ site ++ relativePath)%string /\
  registerServiceWorker true (Some value) ("/s/" ++ site ++ tail)
  = RegisterScript ("/s/" ++ site ++ "/service-worker.js").
Proof.
  intros [Hlen%Nat.leb_le Hall]%andb_true_iff Htail%ClientFacts.tail_run Hv Hf Hsys.
  assert (forall rel, resolveServiceWorkerPath ("/s/" ++ site ++ tail) rel
                      = ("/s/" ++ site ++ rel)%string) as Hres.
  { intros rel. unfold resolveServiceWorkerPath.
    rewrite ClientFacts.sandboxMatch_at by done. by rewrite string_app_assoc. }
  split; [apply Hres|].
  unfold registerServiceWorker. cbn [negb]. cbn zeta.
  rewrite ClientFacts.not_system_url by done.
  destruct value as [|c v]; [done|]. cbn [Js.truthy default from_option id].
  destruct (String.eqb_spec (String c v) "false"); [done|].
  by rewrite Hres.
Qed.

Lemma sandbox_prefix_is_kept_witness :
  resolveServiceWorkerPath "/s/RefArch/home?lang=en_US" "/service-worker.js"
  = "/s/RefArch/service-worker.js"%string /\
  registerServiceWorker true (Some "true"%string) "/s/RefArch/home?lang=en_US"
  = RegisterScript "/s/RefArch/service-worker.js".
Proof.
  apply (sandbox_prefix_is_kept "RefArch" "/home?lang=en_US" "/service-worker.js" "true").
  - vm_compute. reflexivity.
  - right. vm_compute. reflexivity.
  - discriminate.
  - discriminate.
  - vm_compute. reflexivity.
Defined.

(** X26: On a page whose path holds no [/s/], the path of the worker script is
    the relative path as it is. *)
Theorem path_without_sandbox_prefix_is_kept (pathname relativePath : string) :
  Js.includes pathname "/s/" = false ->
  resolveServiceWorkerPath pathname relativePath = relativePath.
Proof.
  intros Hnot. unfold resolveServiceWorkerPath.
  by rewrite ClientFacts.sandboxMatch_none.
Qed.

Lemma path_without_sandbox_prefix_is_kept_witness :
  resolveServiceWorkerPath "/en/womens/clothing" "/service-worker.js"
  = "/service-worker.js"%string.
Proof.
  apply (path_without_sandbox_prefix_is_kept "/en/womens/clothing" "/service-worker.js").
  vm_compute. reflexivity.
Defined.

(** * The stream rewriter on a body with several tokens *)

Module TokensFacts.

(** An entry of a configuration without repeated placeholders stands after
    entries of other placeholders only. *)
Lemma split_at_entry (cfgs : list PlaceholderConfig) c :
  In c cfgs ->
  List.NoDup (map placeholderBytes cfgs) ->
  exists l1 l2,
    cfgs = l1 ++ c :: l2 /\
    forall a, In a l1 -> placeholderBytes a <> placeholderBytes c.
Proof.
  intros (l1 & l2 & ->)%in_split Hnd. exists l1, l2. split; [done|].
  intros a Ha Heq. rewrite map_app in Hnd. cbn [map] in Hnd.
  apply List.NoDup_remove_2 in Hnd. apply Hnd, in_or_app. left.
  rewrite <- Heq. by apply in_map.
Qed.

Section Token.
Variables (env : Env) (siteId locale : option string) (cacheId : string).
Variables (pfx : Uint8Array) (cfgs : list PlaceholderConfig).
Hypothesis Hlens : suffix_lengths_ok cfgs.
Hypothesis Hpf : prefix_free_in cfgs.
Hypothesis Hprefix : pfx <> [].
Hypothesis Hnd : List.NoDup (map placeholderBytes cfgs).
Variables (pre tok rest frag : Uint8Array) (c : PlaceholderConfig) (w w1 : World).
Hypothesis Hc : In c cfgs.
Hypothesis Htok : placeholderBytes c = tok.
Hypothesis Hmax : length pfx + length tok <= LAST_BYTES_COUNT + 1.
Hypothesis Honly :
  List.filter (tokenAt pfx cfgs (pre ++ pfx ++ tok ++ rest))
              (seq 0 (length pre + length pfx + length tok))
  = [length pre].
Hypothesis Hlast :
  forall b, In b (drop (length pre - length pfx) pre) -> pfx !! 0 <> Some b.
Hypothesis Hfetch :
  fetchOrCachePart env w (part c) siteId locale cacheId = (fragmentItem frag, w1).

Local Abbreviation scanned := (pre ++ pfx ++ tok ++ rest).
Local Abbreviation pull := (fun fuel => Stream.pull fuel env siteId locale cacheId).
Local Abbreviation pending := (srcPending pfx cfgs).

Lemma tok_length : 2 <= length tok.
Proof.
  unfold suffix_lengths_ok in Hlens. rewrite List.Forall_forall in Hlens.
  rewrite <- Htok. by apply Hlens.
Qed.

Lemma first_position i :
  i < length pre + length pfx + length tok ->
  tokenAt pfx cfgs scanned i = true -> i = length pre.
Proof.
  intros Hi Ht.
  assert (In i (List.filter (tokenAt pfx cfgs scanned)
                  (seq 0 (length pre + length pfx + length tok)))) as Hin.
  { apply filter_In. split; [apply in_seq; lia|done]. }
  rewrite Honly in Hin. destruct Hin as [<-|[]]. done.
Qed.

(** A buffer that ends before the token does holds no token. *)
Lemma open_free n (b r : Uint8Array) :
  n <= length pre ->
  b ++ r = drop n pre ++ pfx ++ tok ++ rest ->
  length b < length pre - n + length pfx + length tok ->
  tokenPositions pfx cfgs b = [].
Proof.
  intros Hn Heq Hlen.
  destruct (tokenPositions pfx cfgs b) as [|i l] eqn:Hb; [done|exfalso].
  assert (In i (tokenPositions pfx cfgs b)) as Hi by (rewrite Hb; by left).
  apply tokenPositions_spec in Hi; [|done].
  pose proof Hi as (cfg & Hin & [k Hk])%tokenAt_true.
  assert (i <= length b) as Hib.
  { destruct (Nat.le_gt_cases i (length b)); [done|].
    rewrite drop_ge in Hk by lia. by destruct pfx. }
  apply (tokenAt_inside _ _ (take n pre) b r) in Hi.
  rewrite Heq, (app_assoc (take n pre)), take_drop in Hi.
  rewrite length_take in Hi.
  apply first_position in Hi; [|lia].
  assert (i = length pre - n) as -> by lia.
  assert (length (pfx ++ placeholderBytes cfg) <= length b - (length pre - n)) as Hcl.
  { rewrite <- length_drop, Hk, !length_app. lia. }
  rewrite length_app in Hcl.
  assert (drop (length pre - n) (b ++ r) = pfx ++ tok ++ rest) as Hd.
  { rewrite Heq. rewrite <- length_drop. by rewrite drop_app_length. }
  rewrite drop_app_le, Hk in Hd by done.
  rewrite <- !app_assoc in Hd. apply app_inv_head in Hd.
  assert (placeholderBytes cfg = take (length (placeholderBytes cfg)) tok) as Hpre.
  { apply (f_equal (take (length (placeholderBytes cfg)))) in Hd.
    rewrite take_app_length in Hd. by rewrite take_app_le in Hd by lia. }
  assert (placeholderBytes cfg `prefix_of` placeholderBytes c) as Hp.
  { rewrite Htok, Hpre. apply prefix_take. }
  apply Hpf in Hp; [|done|done]. rewrite Htok in Hp. rewrite Hp in Hcl. lia.
Qed.

(** A buffer that reaches the end of the token is split around it. *)
Lemma closed_split n (b r : Uint8Array) isFinal :
  n <= length pre ->
  b ++ r = drop n pre ++ pfx ++ tok ++ rest ->
  length pre - n + length pfx + length tok <= length b ->
  exists post1,
    post1 ++ r = rest /\
    extractPlaceholderChunk b pfx cfgs isFinal
    = {| found := Some (token_match (drop n pre) pfx tok c);
         before := Some (drop n pre); after := Some post1; leftover := None |}.
Proof.
  intros Hn Heq Hlen.
  set (k := length b - (length (drop n pre) + length pfx + length tok)).
  assert (b = drop n pre ++ pfx ++ tok ++ take k rest) as Hb.
  { rewrite <- (take_app_length b r), Heq.
    rewrite take_token_buffer by (rewrite length_drop; lia). done. }
  exists (take k rest). split.
  - rewrite Hb in Heq. rewrite <- !app_assoc in Heq.
    by do 3 apply app_inv_head in Heq.
  - assert (forall i, i < length (drop n pre) -> tokenAt pfx cfgs b i = false) as Hnone.
    { intros i Hi. apply not_true_is_false. intros Ht.
      apply (tokenAt_inside _ _ (take n pre) _ r) in Ht.
      rewrite Heq, (app_assoc (take n pre)), take_drop in Ht.
      rewrite length_take, length_drop in *.
      apply first_position in Ht; lia. }
    destruct (split_at_entry cfgs c Hc Hnd) as (l1 & l2 & Hcfgs & Hfirst).
    rewrite Htok in Hfirst. revert Hnone. rewrite Hb.
    generalize Hlens Hpf. rewrite Hcfgs. intros Hlens' Hpf' Hnone.
    apply extract_token; try done.
    intros x Hx. apply Hlast.
    rewrite drop_drop in Hx. rewrite length_drop in Hx.
    apply list_elem_of_In. apply list_elem_of_In in Hx.
    destruct (Nat.le_gt_cases (length pfx) (length pre - n)).
    + by replace (length pre - length pfx) with (n + (length pre - n - length pfx)) by lia.
    + replace (n + (length pre - n - length pfx)) with n in Hx by lia.
      replace n with ((length pre - length pfx) + (n - (length pre - length pfx))) in Hx
        by lia.
      rewrite <- drop_drop in Hx. by eapply subseteq_drop.
Qed.

(** From a carry-over inside [pre] to the match of the token: the bytes of
    [pre] are emitted and the fragment is queued; [K] is what the stream
    does from there. *)
Lemma to_next_match (out E : Uint8Array) (w' : World) (extra : nat) rem :
  forall l n ctl fuel,
  n <= length pre ->
  emitted ctl = E ++ take n pre ->
  l ++ concat rem = drop n pre ++ pfx ++ tok ++ rest ->
  length l < length pre - n + length pfx + length tok ->
  length rem + extra <= fuel ->
  (forall post1 rem1 ctl1 fuel1,
     post1 ++ concat rem1 = rest ->
     emitted ctl1 = E ++ pre ->
     length rem1 + extra <= fuel1 ->
     exists src' ctl',
       pull fuel1 (srcMatched pfx cfgs frag post1 rem1) ctl1 w1 = Some (src', ctl', w') /\
       state ctl' = Closed /\ emitted ctl' = out) ->
  exists src' ctl',
    pull fuel (pending l rem) ctl w = Some (src', ctl', w') /\
    state ctl' = Closed /\ emitted ctl' = out.
Proof.
  pose proof tok_length as Htl.
  induction rem as [|chunk rem IH]; intros l n ctl fuel Hn Hem Heq Hl Hfuel K.
  - cbn [concat] in Heq. rewrite app_nil_r in Heq.
    apply (f_equal length) in Heq. rewrite !length_app, length_drop in Heq. lia.
  - cbn [concat length] in *. rewrite app_assoc in Heq.
    destruct fuel as [|fuel]; [lia|]. cbn [Stream.pull].
    destruct (Nat.lt_ge_cases (length (l ++ chunk))
                (length pre - n + length pfx + length tok)) as [Hopen|Hclosed].
    + pose proof (open_free n _ _ Hn Heq Hopen) as Hfree.
      rewrite StreamFacts.pullOnce_pending_chunk by (by apply extract_token_free).
      set (b := l ++ chunk) in *. set (k := length b - LAST_BYTES_COUNT).
      assert (k <= length pre - n) as Hk by (unfold k; lia).
      assert (take k b = take k (drop n pre)) as Htk.
      { rewrite <- (take_app_le b (concat rem)) by (unfold k; lia).
        rewrite Heq. by rewrite take_app_le by (rewrite length_drop; lia). }
      apply (IH (drop k b) (n + k)); [lia| | | |lia|done].
      * rewrite StreamFacts.emitted_enqueueIf, StreamFacts.default_window, Hem. fold k.
        by rewrite Htk, <- app_assoc, take_take_drop.
      * rewrite <- (drop_app_le b (concat rem)) by (unfold k; lia).
        rewrite Heq. rewrite drop_app_le by (rewrite length_drop; lia).
        by rewrite drop_drop.
      * rewrite length_drop. unfold k. lia.
    + destruct (closed_split n _ _ false Hn Heq Hclosed) as (post1 & Hpost & Hex).
      erewrite StreamFacts.pullOnce_pending_match; [|exact Hex|exact Hfetch].
      apply K; [done| |lia].
      by rewrite StreamFacts.emitted_enqueue, Hem, <- app_assoc, take_drop.
Qed.

End Token.

(** The read that follows the tail of a fragment and the bytes after the
    token is handled like a chunk of the body. *)
Lemma pullOnce_after_fragment env siteId locale cacheId pfx cfgs l post1 rem ctl w :
  pullOnce env siteId locale cacheId
    {| reader := tail rem; prefixBytes := pfx; configs := cfgs;
       queue := [carryItem l; afterItem post1; readItem (head rem)];
       s_done := false |} ctl w
  = pullOnce env siteId locale cacheId (srcPending pfx cfgs l (post1 :: rem)) ctl w.
Proof.
  unfold pullOnce, srcPending.
  cbn -[extractPlaceholderChunk fetchOrCachePart].
  rewrite app_nil_r.
  destruct (extractPlaceholderChunk (l ++ post1) pfx cfgs false) as [fo be af le].
  cbn -[fetchOrCachePart].
  destruct fo as [m|], be as [b|], af as [a|], le as [lo|];
    cbn -[fetchOrCachePart];
    try destruct (fetchOrCachePart env w (part (m_config m)) siteId locale cacheId)
      as [p w'];
    by destruct rem.
Qed.

(** The fragment of a staged segment holds no token. *)
Lemma staged_fragment_free pfx cfgs x segs frags post :
  suffix_lengths_ok cfgs ->
  staged pfx cfgs x segs frags post ->
  tokenPositions pfx cfgs x = [].
Proof.
  intros Hlens. destruct segs as [|[pre c] segs], frags as [|f frags];
    cbn [staged]; try done.
  - intros H. by apply (tokenPositions_inside _ _ [] x post).
  - intros (_ & _ & Honly & _).
    destruct (tokenPositions pfx cfgs x) as [|i l] eqn:Hx; [done|exfalso].
    assert (In i (tokenPositions pfx cfgs x)) as Hi by (rewrite Hx; by left).
    pose proof Hi as [Hseq _]%filter_In. apply in_seq in Hseq.
    apply tokenPositions_spec in Hi; [|done].
    apply (tokenAt_inside _ _ [] x (pre ++ pfx ++ placeholderBytes c
                                        ++ bodyOf pfx segs post)) in Hi.
    cbn [app length Nat.add] in Hi. rewrite app_assoc in Hi.
    assert (In i (List.filter
                    (tokenAt pfx cfgs
                       ((x ++ pre) ++ pfx ++ placeholderBytes c ++ bodyOf pfx segs post))
                    (seq 0 (length (x ++ pre) + length pfx
                            + length (placeholderBytes c))))) as Hin.
    { apply filter_In. split; [|done]. apply in_seq. rewrite length_app. lia. }
    rewrite Honly in Hin. destruct Hin as [Heq|[]]. rewrite length_app in Heq. lia.
Qed.

Section Segments.
Variables (env : Env) (siteId locale : option string) (cacheId : string).
Variables (pfx : Uint8Array) (cfgs : list PlaceholderConfig).
Hypothesis Hlens : suffix_lengths_ok cfgs.
Hypothesis Hpf : prefix_free_in cfgs.
Hypothesis Hprefix : pfx <> [].
Hypothesis Hnd : List.NoDup (map placeholderBytes cfgs).
Variables (post : Uint8Array) (w' : World).

Local Abbreviation pull := (fun fuel => Stream.pull fuel env siteId locale cacheId).

(** From the carry-over of the bytes [x] to the end of the stream. *)
Lemma run_segments segs : forall frags x E rem n ctl w fuel,
  staged pfx cfgs x segs frags post ->
  resolves env siteId locale cacheId w segs frags w' ->
  n <= length x ->
  emitted ctl = E ++ take n x ->
  concat rem = bodyOf pfx segs post ->
  length rem + 2 * length segs + 2 <= fuel ->
  exists src' ctl',
    pull fuel (srcPending pfx cfgs (drop n x) rem) ctl w = Some (src', ctl', w') /\
    state ctl' = Closed /\
    emitted ctl' = E ++ x ++ outputOf segs frags post.
Proof.
  induction segs as [|[pre c] segs IH];
    intros frags x E rem n ctl w fuel Hst Hres Hn Hem Hbody Hfuel;
    destruct frags as [|f frags]; cbn [staged resolves] in Hst, Hres; try done.
  - subst w'. cbn [bodyOf outputOf length] in *.
    destruct (StreamFacts.drain env siteId locale cacheId pfx cfgs Hlens rem (drop n x)
                ctl w fuel) as (src' & ctl' & Hrun & Hclosed & Hout); [|lia|].
    + rewrite Hbody.
      apply (tokenPositions_inside _ _ (take n x) (drop n x ++ post) []); [done|].
      by rewrite app_nil_r, app_assoc, take_drop.
    + exists src', ctl'. split; [done|]. split; [done|].
      by rewrite Hout, Hem, Hbody, <- !app_assoc, (app_assoc (take n x)), take_drop.
  - destruct Hst as (Hc & Hmax & Honly & Hlast & Hnext).
    destruct Hres as (w1 & Hfetch & Hres).
    rewrite List.Forall_forall in Hlast.
    cbn [bodyOf outputOf length] in *.
    assert (1 <= length pfx) as Hplen by (destruct pfx; [done|cbn; lia]).
    apply (to_next_match env siteId locale cacheId pfx cfgs Hlens Hpf Hprefix Hnd
             (x ++ pre) (placeholderBytes c) (bodyOf pfx segs post) f c w w1
             Hc eq_refl Hmax Honly Hlast Hfetch
             (E ++ x ++ pre ++ f ++ outputOf segs frags post) E w'
             (2 * length segs + 4) rem (drop n x) n ctl fuel).
    + rewrite length_app. lia.
    + by rewrite take_app_le.
    + by rewrite Hbody, drop_app_le, <- app_assoc.
    + rewrite length_drop, length_app. lia.
    + lia.
    + intros post1 rem1 ctl1 fuel1 Hpost Hem1 Hfuel1.
      destruct fuel1 as [|fuel1]; [lia|]. cbn [Stream.pull].
      rewrite StreamFacts.pullOnce_matched_fragment
        by (apply extract_token_free; [done|by eapply staged_fragment_free]).
      set (k := length f - LAST_BYTES_COUNT).
      match goal with |- context [Stream.pull fuel1 _ _ _ _ _ ?c2 _] => set (ctl2 := c2) end.
      assert (Stream.pull fuel1 env siteId locale cacheId
                {| reader := tail rem1; prefixBytes := pfx; configs := cfgs;
                   queue := [carryItem (drop k f); afterItem post1; readItem (head rem1)];
                   s_done := false |} ctl2 w1
              = Stream.pull fuel1 env siteId locale cacheId
                  (srcPending pfx cfgs (drop k f) (post1 :: rem1)) ctl2 w1) as ->.
      { destruct fuel1 as [|fuel1]; [done|]. cbn [Stream.pull].
        by rewrite pullOnce_after_fragment. }
      destruct (IH frags f (E ++ x ++ pre) (post1 :: rem1) k ctl2 w1 fuel1)
        as (src' & ctl' & Hrun & Hclosed & Hout); try done.
      * unfold k. lia.
      * unfold ctl2. rewrite StreamFacts.emitted_enqueueIf, StreamFacts.default_window, Hem1.
        fold k. by rewrite <- !app_assoc.
      * cbn [length]. lia.
      * exists src', ctl'. split; [done|]. split; [done|].
        by rewrite Hout, <- !app_assoc.
Qed.

End Segments.

End TokensFacts.

(** X11: Every token of a body is replaced by its fragment: when the body is a
    sequence of staged segments, delivered in any chunks, and the fragments
    resolve one after the other, the stream of [createStream] closes after
    emitting, for every segment, the bytes before its token followed by its
    fragment, and then the bytes after the last token; the world is the one
    the last resolution left. The configuration has no placeholder twice,
    none that is a strict prefix of another, and at least two bytes after
    the prefix in each. *)
Theorem every_token_is_replaced fuel env w w' baseResponse parts cacheId
    prefixBytes configs (segs : list Segment) (frags : list Uint8Array) post :
  encodePlaceholderConfigs parts = Some (prefixBytes, configs) ->
  suffix_lengths_ok configs ->
  prefix_free configs ->
  List.NoDup (map placeholderBytes configs) ->
  concat (body baseResponse) = bodyOf prefixBytes segs post ->
  staged prefixBytes configs [] segs frags post ->
  resolves env
    (headerGet (init_headers (buildInitHeaders baseResponse)) X_SF_CC_SITEID)
    (headerGet (init_headers (buildInitHeaders baseResponse)) X_SF_CC_REQUESTLOCALE)
    cacheId w segs frags w' ->
  length (body baseResponse) + 2 * length segs + 3 <= fuel ->
  exists ctl,
    rw_stream (createStream fuel env w baseResponse parts cacheId) = Some (ctl, w') /\
    state ctl = Closed /\
    emitted ctl = outputOf segs frags post.
Proof.
  intros Henc Hlens Hpf%prefix_free_to_in Hnd Hbody Hst Hres Hfuel.
  assert (prefixBytes <> []) as Hprefix.
  { unfold encodePlaceholderConfigs in Henc.
    destruct (encodeConfigs parts); [|done]. by injection Henc as <- _. }
  unfold createStream, runStream. cbn [rw_stream]. rewrite Henc.
  set (siteId := headerGet _ X_SF_CC_SITEID) in *.
  set (locale := headerGet _ X_SF_CC_REQUESTLOCALE) in *.
  destruct (body baseResponse) as [|chunk rest] eqn:Hchunks.
  - cbn [concat] in Hbody.
    destruct segs as [|[pre c] segs], frags as [|f frags];
      cbn [staged resolves bodyOf outputOf] in *; try done.
    + subst w' post. destruct fuel as [|fuel]; [cbn in Hfuel; lia|].
      eexists. cbn. split; [reflexivity|]. done.
    + symmetry in Hbody. apply app_eq_nil in Hbody as [_ Hbody].
      apply app_eq_nil in Hbody as [Hbody _]. done.
  - unfold readChunk. cbn [reader]. unfold setQueue.
    cbn [reader Stream.prefixBytes Stream.configs queue s_done].
    destruct (TokensFacts.run_segments env siteId locale cacheId prefixBytes configs
                Hlens Hpf Hprefix Hnd post w' segs frags [] [] (chunk :: rest) 0
                {| chunks := []; state := Readable |} w fuel)
      as (src' & ctl' & Hrun & Hclosed & Hout); try done.
    { cbn [length] in *. lia. }
    assert (pull fuel env siteId locale cacheId
              {| reader := rest; Stream.prefixBytes := prefixBytes;
                 Stream.configs := configs;
                 queue := [readItem (Some chunk)]; s_done := false |}
              {| chunks := []; state := Readable |} w
            = Some (src', ctl', w')) as Hinit.
    { rewrite <- Hrun. destruct fuel as [|fuel']; [done|]. cbn [pull].
      by rewrite StreamFacts.pullOnce_initial. }
    change (readItem (Some chunk)) with
      (Resolved {| value := Some chunk; done := false; merge := false; isBase := true |})
      in Hinit.
    rewrite Hinit. by exists ctl'.
Qed.

Lemma every_token_is_replaced_witness :
  let e := Sample.env Sample.fragmentNet true in
  let page :=
    Sample.htmlResponse
      ["<html>$swhe"; "ader$<main>"; "</main>$swfooter$</html>"]%string in
  exists ctl w',
    rw_stream (createStream 10 e Sample.emptyWorld page
                 (cachedParts (serverPreparedData e)) (CACHE_ID e))
    = Some (ctl, w') /\
    state ctl = Closed /\
    emitted ctl = encode "<html>HDR<main></main>FTR</html>".
Proof.
  cbn zeta.
  set (e := Sample.env Sample.fragmentNet true).
  set (w1 := snd (fetchOrCachePart e Sample.emptyWorld Sample.headerPart
                    (Some "RefArch"%string) (Some "en_US"%string) (CACHE_ID e))).
  set (w2 := snd (fetchOrCachePart e w1 Sample.footerPart
                    (Some "RefArch"%string) (Some "en_US"%string) (CACHE_ID e))).
  destruct (every_token_is_replaced 10 e Sample.emptyWorld w2
              (Sample.htmlResponse
                 ["<html>$swhe"; "ader$<main>"; "</main>$swfooter$</html>"]%string)
              (cachedParts (serverPreparedData e)) (CACHE_ID e)
              (encode "$sw") Sample.standardConfigs
              [(encode "<html>",
                {| part := Sample.headerPart; placeholderBytes := encode "header$" |});
               (encode "<main></main>",
                {| part := Sample.footerPart; placeholderBytes := encode "footer$" |})]
              [encode "HDR"; encode "FTR"] (encode "</html>"))
    as (ctl & Hrun & Hst & Hem).
  - vm_compute. reflexivity.
  - unfold suffix_lengths_ok. compute_done.
  - unfold prefix_free. compute_done.
  - vm_compute. constructor; [intros [H|[]]; discriminate H|].
    constructor; [intros []|constructor].
  - vm_compute. reflexivity.
  - cbn [staged]. split; [by left|]. split; [vm_compute; lia|].
    split; [vm_compute; reflexivity|]. split; [compute_done|].
    split; [right; by left|]. split; [vm_compute; lia|].
    split; [vm_compute; reflexivity|]. split; [compute_done|].
    vm_compute. reflexivity.
  - cbn [resolves]. exists w1. split; [vm_compute; reflexivity|].
    exists w2. split; [vm_compute; reflexivity|]. reflexivity.
  - vm_compute. lia.
  - exists ctl, w2. split; [exact Hrun|]. split; [exact Hst|]. exact Hem.
Defined.

(** * The end of the body *)

(** X13: A token that is matched only in the scan that ends the body cuts the
    stream short: the bytes before the token are emitted and the fragment
    is requested, but the stream is closed before the fragment and the
    bytes after the token are taken from the queue. *)
Theorem match_in_the_final_scan_closes_the_stream env siteId locale cacheId
    pfx cfgs (l : Uint8Array) m ctl w fuel :
  found (extractPlaceholderChunk l pfx cfgs true) = Some m ->
  2 <= fuel ->
  exists src',
    pull fuel env siteId locale cacheId (srcPending pfx cfgs l []) ctl w
    = Some (src', close (enqueue ctl (slice l 0 (m_start m))),
            snd (fetchOrCachePart env w (part (m_config m)) siteId locale cacheId)) /\
    queue src'
    = [fst (fetchOrCachePart env w (part (m_config m)) siteId locale cacheId);
       afterItem (sliceFrom l (m_end m + 1))].
Proof.
  intros Hfound Hfuel. destruct fuel as [|[|fuel]]; [lia|lia|].
  cbn [pull]. unfold pullOnce at 1, srcPending.
  cbn -[extractPlaceholderChunk fetchOrCachePart pullOnce].
  rewrite (LoopFacts.extract_found_shape _ _ _ _ _ Hfound).
  cbn -[fetchOrCachePart pullOnce].
  destruct (fetchOrCachePart env w (part (m_config m)) siteId locale cacheId) as [p w1].
  cbn -[pullOnce]. unfold pullOnce. cbn. eexists. split; reflexivity.
Qed.

Lemma match_in_the_final_scan_closes_the_stream_witness :
  let e := Sample.env Sample.fragmentNet true in
  exists src' w1,
    pull 2 e (Some "RefArch"%string) (Some "en_US"%string) (CACHE_ID e)
      (srcPending (encode "$sw") Sample.standardConfigs (encode "$swheader$0123456789") [])
      {| chunks := [encode "a$"]; state := Readable |} Sample.emptyWorld
    = Some (src', {| chunks := [encode "a$"; []]; state := Closed |}, w1) /\
    queue src' = [fragmentItem (encode "HDR"); afterItem (encode "0123456789")].
Proof.
  cbn zeta.
  destruct (match_in_the_final_scan_closes_the_stream
              (Sample.env Sample.fragmentNet true)
              (Some "RefArch"%string) (Some "en_US"%string)
              (CACHE_ID (Sample.env Sample.fragmentNet true))
              (encode "$sw") Sample.standardConfigs (encode "$swheader$0123456789")
              (token_match [] (encode "$sw") (encode "header$")
                 {| part := Sample.headerPart; placeholderBytes := encode "header$" |})
              {| chunks := [encode "a$"]; state := Readable |} Sample.emptyWorld 2)
    as (src' & Hrun & Hq).
  - vm_compute. reflexivity.
  - lia.
  - exists src'. eexists. split; [exact Hrun|]. exact Hq.
Defined.

(** * A token right after a byte of the prefix *)

Module SkipFacts.

Lemma scan_step_mismatch fuel (bytes pfx : Uint8Array) cfgs p :
  pfx <> [] ->
  p < length bytes ->
  bytes !! p <> pfx !! 0 ->
  scan_loop (S fuel) bytes pfx cfgs p = scan_loop fuel bytes pfx cfgs (S p).
Proof.
  intros Hpfx Hp Hne. cbn [scan_loop].
  rewrite (proj2 (Nat.ltb_lt _ _) Hp), match_prefix_mismatch by done.
  destruct pfx; [done|]. done.
Qed.

Lemma scan_walk_clean (bytes pfx : Uint8Array) cfgs k : forall p fuel,
  pfx <> [] ->
  p + k <= length bytes ->
  (forall i, p <= i -> i < p + k -> bytes !! i <> pfx !! 0) ->
  scan_loop (k + fuel) bytes pfx cfgs p = scan_loop fuel bytes pfx cfgs (p + k).
Proof.
  induction k as [|k IH]; intros p fuel Hpfx Hlen Hclean.
  - by rewrite Nat.add_0_r.
  - cbn [Nat.add]. rewrite scan_step_mismatch; [|done|lia|apply Hclean; lia].
    rewrite IH; [f_equal; lia|done|lia|]. intros i ? ?. apply Hclean; lia.
Qed.

End SkipFacts.

(** X3: A token that stands right after a byte equal to the first byte of the
    prefix is not matched: the prefix loop takes that byte for the start of
    a prefix, stops at the first byte of the token, and the outer loop then
    steps over this byte. When the token is the only one of the buffer and
    no such byte comes earlier, the scan reports no match. *)
Theorem token_after_a_prefix_byte_is_skipped
    (pre tok post : Uint8Array) (p0 p1 : byte) (ptl : Uint8Array)
    (configs : list PlaceholderConfig) (isFinal : bool) :
  let prefixBytes := p0 :: p1 :: ptl in
  let bytes := pre ++ [p0] ++ prefixBytes ++ tok ++ post in
  p1 <> p0 ->
  Forall (fun b => b <> p0) pre ->
  suffix_lengths_ok configs ->
  prefix_free configs ->
  tokenPositions prefixBytes configs bytes = [length pre + 1] ->
  found (extractPlaceholderChunk bytes prefixBytes configs isFinal) = None.
Proof.
  cbn zeta. intros Hp1 Hpre Hlens Hpf%prefix_free_to_in Hpos.
  set (pfx := p0 :: p1 :: ptl) in *.
  set (bytes := pre ++ [p0] ++ pfx ++ tok ++ post) in *.
  assert (pfx <> []) as Hpfx by done.
  assert (length bytes = length pre + S (S (S (length ptl + length tok + length post))))
    as Hlen.
  { unfold bytes, pfx. rewrite !length_app. cbn [length]. rewrite ?length_app. lia. }
  rewrite extract_found_scan, Hlen.
  rewrite SkipFacts.scan_walk_clean; [|done|lia|].
  2:{ intros i _ Hi. cbn [Nat.add] in Hi. unfold bytes.
      rewrite lookup_app_l by done.
      destruct (lookup_lt_is_Some_2 pre i Hi) as [b Hb]. rewrite Hb. cbn.
      intros [= ->]. rewrite List.Forall_forall in Hpre.
      apply (Hpre p0); [|done]. apply list_elem_of_In. by eapply list_elem_of_lookup_2. }
  cbn [Nat.add].
  assert (bytes !! length pre = Some p0) as H0.
  { unfold bytes. rewrite lookup_app_r by done. by rewrite Nat.sub_diag. }
  assert (bytes !! S (length pre) = Some p0) as H1.
  { unfold bytes. rewrite lookup_app_r by lia.
    replace (S (length pre) - length pre) with 1 by lia. done. }
  assert (match_prefix (length pfx) bytes pfx (length pre) 0 = (S (length pre), 1)) as Hmp.
  { unfold pfx at 1. cbn [length match_prefix].
    rewrite H0, H1. unfold pfx at 1 2. cbn [lookup list_lookup].
    rewrite bool_decide_eq_true_2 by done.
    rewrite (bool_decide_eq_false_2 (Some p0 = Some p1)) by (intros [= ?]; done).
    assert ((length pre <? length bytes) = true) as -> by (apply Nat.ltb_lt; lia).
    reflexivity. }
  set (F := S (S (length ptl + length tok + length post))).
  cbn [scan_loop].
  assert ((length pre <? length bytes) = true) as -> by (apply Nat.ltb_lt; lia).
  rewrite Hmp. unfold pfx at 1. cbn [length Nat.eqb andb].
  destruct (scan_loop F bytes pfx configs (S (S (length pre)))) as [m|] eqn:Hscan;
    [exfalso|done].
  apply ScanSoundness.scan_loop_exact in Hscan
    as (q & k & Hin & Hdrop & Hq & _); [|done|done].
  assert (In q (tokenPositions pfx configs bytes)) as Htok.
  { apply tokenPositions_spec; [done|]. apply tokenAt_true.
    exists (m_config m). split; [done|]. exists k. by rewrite Hdrop, <- app_assoc. }
  rewrite Hpos in Htok. destruct Htok as [<-|[]]. lia.
Qed.

Lemma token_after_a_prefix_byte_is_skipped_witness :
  tokenAt (encode "$sw") Sample.standardConfigs (encode "<p>$$swheader$</p>") 4 = true /\
  found (extractPlaceholderChunk (encode "<p>$$swheader$</p>") (encode "$sw")
           Sample.standardConfigs true) = None.
Proof.
  split; [vm_compute; reflexivity|].
  apply (token_after_a_prefix_byte_is_skipped (encode "<p>") (encode "header$")
           (encode "</p>") "$"%byte "s"%byte (encode "w") Sample.standardConfigs true).
  - discriminate.
  - compute_done.
  - unfold suffix_lengths_ok. compute_done.
  - unfold prefix_free. compute_done.
  - vm_compute. reflexivity.
Defined.

(** * Static resources of a site *)

Module StaticFacts.
Import StringFacts RegexFacts SegmentFacts.

Lemma tryDown_top k min f r :
  min <= k -> f k = Some r -> Js.tryDown k min f = Some r.
Proof.
  intros Hmin Hf. apply (tryDown_first k); [done|done|done|intros; lia].
Qed.

Lemma siteStaticFolder_matchHere (d : ascii) (b : string) :
  Js.notSlash d = true ->
  is_Some (Js.matchHere Js.siteStaticFolder
             ("/demandware.static/-/Sites-" ++ String d b)).
Proof.
  intros Hd. unfold Js.siteStaticFolder.
  change ("/demandware.static/-/Sites-" ++ String d b)%string
    with ("/demandware" ++ String "." ("static/-/Sites-" ++ String d b))%string.
  rewrite matchHere_Lit, matchHere_Rep. cbn zeta.
  change (Js.run Js.dot (String "." ("static/-/Sites-" ++ String d b)))
    with (S (Js.run Js.dot ("static/-/Sites-" ++ String d b))).
  cbn [Nat.min Nat.ltb Nat.leb].
  rewrite (tryDown_top 1 1 _ (Js.dropStr (Js.run Js.notSlash (String d b)) (String d b)));
    [by eexists|done|].
  rewrite dropStr_S, dropStr_0, matchHere_Lit, matchHere_Rep. cbn zeta.
  cbn [Js.run]. rewrite Hd. cbn [Nat.ltb Nat.leb].
  by apply tryDown_top; [lia|].
Qed.

End StaticFacts.

(** X21: A URL in which [/demandware.static/-/Sites-] is followed by a
    character other than [/] is no static resource for the worker, whatever
    its extension and the destination of the request: the static strategy
    does not handle it. *)
Theorem site_static_folder_is_not_cached (a b : string) (d : ascii) (request : Request) :
  Js.notSlash d = true ->
  url request = (a ++ "/demandware.static/-/Sites-" ++ String d b)%string ->
  isStaticResource (url request) = false /\ isCacheableStatic request = false.
Proof.
  intros Hd Hurl.
  assert (isStaticResource (url request) = false) as Hstatic.
  { unfold isStaticResource. rewrite Hurl.
    destruct (StaticFacts.siteStaticFolder_matchHere d b Hd) as [r Hr].
    destruct (RegexFacts.exec_is_Some _ _ _ a Hr) as [[pre rest] He].
    unfold Js.test at 2. rewrite He. apply andb_false_r. }
  split; [done|]. unfold isCacheableStatic. by rewrite Hstatic.
Qed.

Lemma site_static_folder_is_not_cached_witness :
  let request :=
    {| url := "https://shop.example/on/demandware.static/-/Sites-RefArch-Site/en_US/v1/js/main.js";
       method := "GET"; mode := ModeNoCors; destination := "script";
       req_headers := []; redirect := "follow" |} in
  isStaticResource (url request) = false /\ isCacheableStatic request = false.
Proof.
  apply (site_static_folder_is_not_cached "https://shop.example/on"
           "efArch-Site/en_US/v1/js/main.js" "R"
           {| url := "https://shop.example/on/demandware.static/-/Sites-RefArch-Site/en_US/v1/js/main.js";
              method := "GET"; mode := ModeNoCors; destination := "script";
              req_headers := []; redirect := "follow" |}).
  - reflexivity.
  - reflexivity.
Defined.

(** * A restart of the worker script

    The name of the cache carries the time at which the script started:
    a later run of the same script opens another cache. *)

Module RestartFacts.
Import StrategyFacts.

Lemma app_inv_tail_string (a b t : string) : (a ++ t = b ++ t)%string -> a = b.
Proof.
  revert b. induction a as [|x a IH]; intros [|y b] H; [done| | |].
  - apply (f_equal String.length) in H.
    rewrite append_Empty, append_String in H. cbn [String.length] in H.
    rewrite ReplaceFacts.length_append in H. lia.
  - apply (f_equal String.length) in H.
    rewrite append_Empty, append_String in H. cbn [String.length] in H.
    rewrite ReplaceFacts.length_append in H. lia.
  - rewrite !append_String in H. injection H as -> H. f_equal. by apply IH.
Qed.

(** Two runs with the same configuration have the same [CACHE_ID] only
    when they started at the same time. *)
Lemma CACHE_ID_inj e1 e2 :
  cacheVersion (serverPreparedData e1) = cacheVersion (serverPreparedData e2) ->
  CACHE_ID e1 = CACHE_ID e2 ->
  startTime e1 = startTime e2.
Proof.
  unfold CACHE_ID, codeVersion. intros -> H.
  apply app_inv_tail_string in H.
  rewrite !append_String, !append_Empty in H.
  injection H as H. by apply (inj pretty).
Qed.

(** The [install] listener of an enabled worker leaves the caches of other
    names as they are. *)
Lemma onInstall_other env h name :
  swEnabled (serverPreparedData env) = true ->
  name <> CACHE_ID env ->
  cachesGet (caches (world (onInstall env h))) name = cachesGet (caches (world h)) name.
Proof.
  intros Hon Hne. unfold onInstall. rewrite Hon. cbn [negb world].
  unfold precacheOfflinePage, fetch. destruct (net env _) as [resp|]; cbn [snd caches].
  - destruct (ok resp); cbn [snd caches fetched].
    + by rewrite cachesGet_put_other, cachesGet_open_other.
    + by rewrite cachesGet_open_other.
  - by rewrite cachesGet_open_other.
Qed.

Lemma filter_no_cache (cs : CacheStorage) name :
  cachesGet cs name = None ->
  List.filter (fun e => String.eqb (fst e) name) cs = [].
Proof.
  induction cs as [|[n c] cs IH]; [done|]. cbn [cachesGet List.filter fst].
  destruct (String.eqb n name); [done|exact IH].
Qed.

End RestartFacts.

(** When the storage holds no cache with the name of this run, as it does
    when the script is installed, the kill switch deletes every cache and
    unregisters the worker; it reloads no view. *)
Lemma kill_switch_clears_fresh_storage env h :
  swEnabled (serverPreparedData env) = false ->
  cachesGet (caches (world h)) (CACHE_ID env) = None ->
  caches (world (onInstall env h)) = [] /\
  registered (onInstall env h) = false /\
  navigated (onInstall env h) = navigated h.
Proof.
  intros Hoff Hfresh. unfold onInstall. rewrite Hoff.
  cbn [negb world registered navigated matchAll]. rewrite app_nil_r.
  split; [|done].
  rewrite GenerationFacts.clearOldCaches_filter. by apply RestartFacts.filter_no_cache.
Qed.

(** X30: The offline page does not outlive the run that installed it. When
    the script is started again at another time, with the same script
    URL and configuration, and the storage held no cache with the name of
    that later run when the worker was installed, a navigation whose
    request the network fails is answered with [undefined], whatever
    [install] stored: the later run looks for the page in its own cache. *)
Theorem offline_page_is_lost_at_restart fuel env now offline h request :
  let later := {| net := offline; location := location env; startTime := now;
                  serverPreparedData := serverPreparedData env |} in
  now <> startTime env ->
  swEnabled (serverPreparedData env) = true ->
  cachesGet (caches (world h)) (CACHE_ID later) = None ->
  offline (addSkipParamsToRequest later request) = None ->
  nav_answer (respondToNavigation fuel later (world (onInstall env h)) request)
  = Undefined.
Proof.
  cbn zeta. intros Hnow Hon Hfresh Hoff.
  set (later := {| net := offline; location := location env; startTime := now;
                   serverPreparedData := serverPreparedData env |}) in *.
  assert (CACHE_ID later <> CACHE_ID env) as Hne.
  { intros Heq. apply RestartFacts.CACHE_ID_inj in Heq; [|done]. by apply Hnow. }
  assert (forall k, generationLookup later (world (onInstall env h)) k = None) as Hempty.
  { intros k. unfold generationLookup, openedCache.
    rewrite RestartFacts.onInstall_other by done. by rewrite Hfresh. }
  assert (net later (addSkipParamsToRequest later request) = None) as Hoff' by exact Hoff.
  unfold respondToNavigation, fetch. rewrite Hoff'.
  pose proof (OfflineFacts.offlineAnswer_lookup later
                {| caches := caches (cleanTriggeredCache later (world (onInstall env h)) request);
                   fetched := fetched (cleanTriggeredCache later (world (onInstall env h)) request)
                              ++ [addSkipParamsToRequest later request] |}) as Hans.
  destruct (offlineAnswer later _) as [a w3]. cbn [fst nav_answer] in *. rewrite Hans.
  unfold generationLookup. cbn [caches].
  fold (generationLookup later (cleanTriggeredCache later (world (onInstall env h)) request)
          (resolveUrl later (OFFLINE_URL later))).
  rewrite cleanTriggeredCache_lookup, Hempty. by destruct (shouldDelete _ _).
Qed.

Lemma offline_page_is_lost_at_restart_witness :
  let e := {| net := fun r => Some (Sample.textResponse 200 "offline");
              location := Sample.origin ++ "/service-worker.js";
              startTime := Sample.startedAt;
              serverPreparedData := Sample.getInitConfig true |} in
  let later := {| net := fun r => None; location := location e;
                  startTime := Sample.startedAt + 60000;
                  serverPreparedData := serverPreparedData e |} in
  generationLookup e (world (onInstall e Sample.hostAtInstall))
    (resolveUrl e (OFFLINE_URL e))
  = Some (Sample.textResponse 200 "offline") /\
  nav_answer (respondToNavigation 20 later (world (onInstall e Sample.hostAtInstall))
                (Sample.navigate "Home-Show"))
  = Undefined.
Proof.
  split; [vm_compute; reflexivity|].
  apply (offline_page_is_lost_at_restart 20
           {| net := fun r => Some (Sample.textResponse 200 "offline");
              location := Sample.origin ++ "/service-worker.js";
              startTime := Sample.startedAt;
              serverPreparedData := Sample.getInitConfig true |}
           (Sample.startedAt + 60000)%Z
           (fun r => None) Sample.hostAtInstall (Sample.navigate "Home-Show")).
  - vm_compute. discriminate.
  - reflexivity.
  - vm_compute. reflexivity.
  - reflexivity.
Defined.
